(** * Instruction selection and block construction of the AGX compiler

    A shallow embedding of the compiler in [src/asahi/compiler]
    (agx_compile): the translation of NIR instructions into AGX
    pseudo-instructions ([agx_emit_load_const], [agx_emit_load_vary],
    [agx_emit_store_vary], [agx_emit_fragment_out], [agx_emit_intrinsic],
    [agx_alu_src_index], [agx_emit_alu], [agx_emit_instr]), the
    construction of the block list ([emit_block], [emit_cf_list]), the
    end of [agx_compile_shader_nir] and the order of the passes in
    [agx_optimize_nir].

    Conventions.
    - C integers are [Z]; every conversion to [unsigned] is written out
      with [to_unsigned] (reduction modulo 2^32).
    - The code mutates one [agx_context] through the pointer held by the
      [agx_builder]; here the builder carries the context by value and
      every emitting function returns the updated builder.  A block is
      named by its position in the context's block list, an emitted
      instruction by its block and its position in it.
    - [assert] and [unreachable] abort the compilation (the assertions
      are compiled in).  A run is a [result]: [Ok] with the new state, or
      [Fatal] with what the code printed on stderr just before and the
      reason of the abort.  A read through a pointer that designates
      nothing (a null key, a source the instruction does not have, a
      cursor after no block) is undefined in C; it is an abort here, so
      that no success is stated for such a run. *)

From Stdlib Require Import ZArith Lia.
From stdpp Require Import base list strings.

Local Open Scope Z_scope.

(** ** Machine integers *)

Definition to_unsigned (z : Z) : Z := z mod 2 ^ 32.

(** Modelled from the spec: [BITFIELD_MASK] (util/macros.h is not among
    the sources), the mask of the [b] lowest bits of an [unsigned]:
    [(b) == 32 ? (~0u) : ((1u << (b)) - 1)]. *)
Definition BITFIELD_MASK (b : Z) : Z :=
  if b =? 32 then Z.ones 32 else to_unsigned (Z.shiftl 1 b - 1).

(** ** Aborts *)

Inductive abort : Type :=
| assert_fail (cond : string)
| unreachable_reached (msg : string)
| invalid_pointer (what : string).

Inductive result (A : Type) : Type :=
| Ok (a : A)
| Fatal (stderr : string) (why : abort).
Arguments Ok {A} a.
Arguments Fatal {A} stderr why.

Definition is_fatal {A} (r : result A) : Prop :=
  match r with Ok _ => False | Fatal _ _ => True end.

(** ** The source IR, as far as the selector looks at it *)

Inductive gl_shader_stage : Type :=
| MESA_SHADER_VERTEX
| MESA_SHADER_TESS_CTRL
| MESA_SHADER_TESS_EVAL
| MESA_SHADER_GEOMETRY
| MESA_SHADER_FRAGMENT
| MESA_SHADER_COMPUTE
| MESA_SHADER_KERNEL.

Inductive nir_intrinsic_op : Type :=
| nir_intrinsic_load_barycentric_pixel
| nir_intrinsic_load_barycentric_centroid
| nir_intrinsic_load_barycentric_sample
| nir_intrinsic_load_barycentric_at_sample
| nir_intrinsic_load_barycentric_at_offset
| nir_intrinsic_load_interpolated_input
| nir_intrinsic_load_input
| nir_intrinsic_store_output
| nir_intrinsic_other (n : N).

Inductive nir_op : Type :=
| nir_op_vec2
| nir_op_vec3
| nir_op_vec4
| nir_op_vec8
| nir_op_vec16
| nir_op_other (n : N).

(** Modelled from the spec: constants (nir.h is not among the sources).
    A [nir_const_value] is a 64-bit union; it is kept as the integer its
    eight bytes hold, and the member of width [w], the constant's bit
    pattern at that width, is its low [w] bits. *)
Definition nir_const_value : Type := Z.

Definition nir_const_value_as_uint (v : nir_const_value) (bit_size : Z) : Z :=
  v mod 2 ^ bit_size.

(** Modelled from the spec: SSA values and the operands that read them
    (nir.h is not among the sources).  A value has an index, a component
    count and a bit width, and comes from an instruction, of which
    [nir_src_is_const], [nir_src_as_uint] and [nir_src_as_intrinsic] read
    the kind, the constant and the intrinsic. *)
Inductive nir_parent_instr : Type :=
| parent_load_const (value : list nir_const_value)
| parent_intrinsic (intrinsic : nir_intrinsic_op)
| parent_other.

Record nir_ssa_def : Type := {
  parent_instr : nir_parent_instr;
  index : Z;
  num_components : Z;
  bit_size : Z
}.

Record nir_src : Type := { ssa : nir_ssa_def }.
Record nir_dest : Type := { dest_ssa : nir_ssa_def }.

Definition nir_src_bit_size (s : nir_src) : Z := bit_size (ssa s).
Definition nir_src_num_components (s : nir_src) : Z := num_components (ssa s).
Definition nir_dest_bit_size (d : nir_dest) : Z := bit_size (dest_ssa d).
Definition nir_dest_num_components (d : nir_dest) : Z :=
  num_components (dest_ssa d).

Definition nir_src_is_const (s : nir_src) : bool :=
  match parent_instr (ssa s) with
  | parent_load_const _ => true
  | _ => false
  end.

(** Only called by the selector after [nir_src_is_const] was asserted. *)
Definition nir_src_as_uint (s : nir_src) : Z :=
  match parent_instr (ssa s) with
  | parent_load_const (v :: _) => nir_const_value_as_uint v (bit_size (ssa s))
  | _ => 0
  end.

(** [NULL] when the value is not produced by an intrinsic. *)
Definition nir_src_as_intrinsic (s : nir_src) : option nir_intrinsic_op :=
  match parent_instr (ssa s) with
  | parent_intrinsic i => Some i
  | _ => None
  end.

Record nir_load_const_instr : Type := {
  def : nir_ssa_def;
  value : list nir_const_value
}.

Record nir_intrinsic_instr : Type := {
  intrinsic : nir_intrinsic_op;
  intr_dest : nir_dest;
  intr_num_components : Z;
  intr_src : list nir_src;
  nir_intrinsic_base : Z;
  nir_intrinsic_component : Z;
  nir_intrinsic_write_mask : Z
}.

(** [swizzle] is a fixed array of [NIR_MAX_VEC_COMPONENTS] bytes. *)
Record nir_alu_src : Type := {
  src : nir_src;
  negate : bool;
  abs : bool;
  swizzle : nat -> Z
}.

Record nir_alu_dest : Type := { dest : nir_dest }.

Record nir_alu_instr : Type := {
  op : nir_op;
  alu_dest : nir_alu_dest;
  alu_src : list nir_alu_src
}.

Inductive nir_instr : Type :=
| nir_instr_type_alu (i : nir_alu_instr)
| nir_instr_type_deref
| nir_instr_type_call
| nir_instr_type_tex
| nir_instr_type_intrinsic (i : nir_intrinsic_instr)
| nir_instr_type_load_const (i : nir_load_const_instr)
| nir_instr_type_jump
| nir_instr_type_ssa_undef
| nir_instr_type_phi
| nir_instr_type_parallel_copy.

Inductive nir_cf_node : Type :=
| nir_cf_node_block (instrs : list nir_instr)
| nir_cf_node_if
| nir_cf_node_loop
| nir_cf_node_function.

Inductive nir_variable_mode : Type :=
| nir_var_shader_in
| nir_var_shader_out
| nir_var_function_temp
| nir_var_other.

Record nir_variable : Type := {
  data_mode : nir_variable_mode;
  data_location : Z;
  data_index : Z;
  data_driver_location : Z
}.

Record nir_function_impl : Type := {
  ssa_alloc : Z;
  body : list nir_cf_node
}.

Record nir_function : Type := { impl : option nir_function_impl }.

Record nir_shader : Type := {
  info_stage : gl_shader_stage;
  variables : list nir_variable;
  functions : list nir_function
}.

Definition nir_variable_mode_eqb (a b : nir_variable_mode) : bool :=
  match a, b with
  | nir_var_shader_in, nir_var_shader_in
  | nir_var_shader_out, nir_var_shader_out
  | nir_var_function_temp, nir_var_function_temp
  | nir_var_other, nir_var_other => true
  | _, _ => false
  end.

(** Modelled from the spec: the lookup of the variable an output store
    writes (nir.c is not among the sources): the first variable of the
    given mode at the given driver location, [NULL] when there is
    none. *)
Definition nir_find_variable_with_driver_location
    (nir : nir_shader) (mode : nir_variable_mode) (location : Z)
  : option nir_variable :=
  List.find
    (fun v => nir_variable_mode_eqb (data_mode v) mode
              && (data_driver_location v =? location))
    (variables nir).

(** ** The target IR *)

Inductive agx_size : Type := AGX_SIZE_16 | AGX_SIZE_32 | AGX_SIZE_64.

(** Modelled from the spec: operands (agx_compiler.h is not among the
    sources).  An operand is "no operand", an SSA-index-based virtual
    register with its size, or an immediate value. *)
Inductive agx_index : Type :=
| agx_null
| agx_get_index (value : Z) (size : agx_size)
| agx_immediate (imm : Z).

Inductive agx_opcode : Type :=
| AGX_OPCODE_MOV_IMM
| AGX_OPCODE_LD_VARY
| AGX_OPCODE_ST_VARY
| AGX_OPCODE_WRITEOUT
| AGX_OPCODE_BLEND
| AGX_OPCODE_P_EXTRACT
| AGX_OPCODE_P_COMBINE
| AGX_OPCODE_STOP
| AGX_OPCODE_TRAP.

Definition agx_format : Type := Z.

(** Modelled from the spec: the pseudo-instruction record (agx_compiler.h
    is not among the sources): an opcode tag, a destination operand or
    none, up to four source operands, and the opcode-specific immediate
    fields: a literal constant, a write mask, an output format. *)
Record agx_instr : Type := {
  i_op : agx_opcode;
  i_dest : agx_index;
  i_src : list agx_index;
  i_imm : Z;
  i_mask : Z;
  i_format : agx_format
}.

(** A block: [name] is assigned by the driver at the end, the predecessor
    set is created empty and filled by nobody in this file. *)
Record agx_block : Type := {
  instructions : list agx_instr;
  predecessors : list nat;
  name : Z
}.

Record agx_shader_key : Type := { fs_tib_formats : Z -> agx_format }.

(** [key] is a pointer in the code and may be null. *)
Record agx_context : Type := {
  nir : nir_shader;
  stage : gl_shader_stage;
  key : option agx_shader_key;
  blocks : list agx_block;
  alloc : Z
}.

(** The builder: the context and a cursor.  The only cursor this file
    makes is [agx_after_block blk]; a block is identified by its position
    in the context's block list. *)
Record agx_builder : Type := {
  shader : agx_context;
  cursor : nat
}.

Definition agx_after_block (blk : nat) : nat := blk.

Definition agx_init_builder (ctx : agx_context) (cur : nat) : agx_builder :=
  {| shader := ctx; cursor := cur |}.

(** ** The monad of emitting functions *)

Definition emitter (A : Type) : Type := agx_builder -> result (A * agx_builder).

Definition ret {A} (a : A) : emitter A := fun b => Ok (a, b).

Definition bind {A B} (m : emitter A) (k : A -> emitter B) : emitter B :=
  fun b =>
    match m b with
    | Ok (a, b') => k a b'
    | Fatal e w => Fatal e w
    end.

Declare Scope emitter_scope.
Delimit Scope emitter_scope with emitter.
Notation "x <- m ;; k" := (bind m (fun x => k))
  (at level 100, m at next level, right associativity) : emitter_scope.
Notation "m ;;; k" := (bind m (fun _ => k))
  (at level 100, right associativity) : emitter_scope.

Definition assert (cond : bool) (text : string) : emitter unit :=
  fun b => if cond then Ok (tt, b) else Fatal "" (assert_fail text).

Definition unreachable {A} (msg : string) : emitter A :=
  fun _ => Fatal "" (unreachable_reached msg).

(** [fprintf(stderr, ...)] followed directly by an abort. *)
Definition fprintf_then {A} (out : string) (why : abort) : emitter A :=
  fun _ => Fatal out why.

Definition get_shader : emitter agx_context := fun b => Ok (shader b, b).

Definition append_instr (ins : agx_instr) (blk : agx_block) : agx_block :=
  {| instructions := instructions blk ++ [ins];
     predecessors := predecessors blk;
     name := name blk |}.

Definition set_blocks (ctx : agx_context) (bs : list agx_block) : agx_context :=
  {| nir := nir ctx; stage := stage ctx; key := key ctx;
     blocks := bs; alloc := alloc ctx |}.

Definition set_alloc (ctx : agx_context) (a : Z) : agx_context :=
  {| nir := nir ctx; stage := stage ctx; key := key ctx;
     blocks := blocks ctx; alloc := a |}.

(** A pointer to an emitted instruction: its block and its position in
    the block's instruction list. *)
Record agx_instr_ptr : Type := { in_block : nat; at_pos : nat }.

(** Modelled from the spec: [agx_builder_insert] (agx_builder.h is not
    among the sources) appends the instruction to the current block; with
    a cursor after a block, that is the end of its instruction list.  A
    cursor that designates no block of the context is a wild pointer. *)
Definition agx_builder_insert (ins : agx_instr) : emitter agx_instr_ptr :=
  fun b =>
    match blocks (shader b) !! cursor b with
    | Some blk =>
        Ok ({| in_block := cursor b; at_pos := length (instructions blk) |},
            {| shader := set_blocks (shader b)
                           (<[cursor b := append_instr ins blk]> (blocks (shader b)));
               cursor := cursor b |})
    | None => Fatal "" (invalid_pointer "cursor")
    end.

(** Modelled from the spec: [agx_temp] (agx_compiler.h is not among the
    sources) takes the next index of the counter that bounds the
    virtual-register index space. *)
Definition agx_temp (size : agx_size) : emitter agx_index :=
  fun b =>
    Ok (agx_get_index (alloc (shader b)) size,
        {| shader := set_alloc (shader b) (to_unsigned (alloc (shader b) + 1));
           cursor := cursor b |}).

Definition mk_instr (o : agx_opcode) (d : agx_index) (s : list agx_index)
    (im : Z) (fmt : agx_format) : agx_instr :=
  {| i_op := o; i_dest := d; i_src := s; i_imm := im; i_mask := 0;
     i_format := fmt |}.

Definition set_mask (ins : agx_instr) (m : Z) : agx_instr :=
  {| i_op := i_op ins; i_dest := i_dest ins; i_src := i_src ins;
     i_imm := i_imm ins; i_mask := m; i_format := i_format ins |}.

Definition set_instructions (blk : agx_block) (l : list agx_instr) : agx_block :=
  {| instructions := l; predecessors := predecessors blk; name := name blk |}.

(** [ins->mask = m] through a pointer returned by a builder call. *)
Definition store_mask (p : agx_instr_ptr) (m : Z) : emitter unit :=
  fun b =>
    match blocks (shader b) !! in_block p with
    | Some blk =>
        match instructions blk !! at_pos p with
        | Some ins =>
            Ok (tt,
                {| shader :=
                     set_blocks (shader b)
                       (<[in_block p :=
                            set_instructions blk
                              (<[at_pos p := set_mask ins m]> (instructions blk))]>
                          (blocks (shader b)));
                   cursor := cursor b |})
        | None => Fatal "" (invalid_pointer "instruction")
        end
    | None => Fatal "" (invalid_pointer "instruction")
    end.

(** Reading [a[i]] from an array the IR owns; an element that is not
    there is a wild read. *)
Definition array_read {A} (a : list A) (i : nat) (what : string) : emitter A :=
  fun b =>
    match a !! i with
    | Some x => Ok (x, b)
    | None => Fatal "" (invalid_pointer what)
    end.

(** Dereferencing a pointer that may be null. *)
Definition deref {A} (p : option A) (what : string) : emitter A :=
  fun b =>
    match p with
    | Some x => Ok (x, b)
    | None => Fatal "" (invalid_pointer what)
    end.

Fixpoint foreach {A} (l : list A) (f : A -> emitter unit) : emitter unit :=
  match l with
  | [] => ret tt
  | x :: l' => bind (f x) (fun _ => foreach l' f)
  end.

Definition to_uint64 (z : Z) : Z := z mod 2 ^ 64.

Definition newline : string := String (Ascii.ascii_of_nat 10) "".

Definition nir_intrinsic_op_eqb (a b : nir_intrinsic_op) : bool :=
  match a, b with
  | nir_intrinsic_load_barycentric_pixel, nir_intrinsic_load_barycentric_pixel
  | nir_intrinsic_load_barycentric_centroid, nir_intrinsic_load_barycentric_centroid
  | nir_intrinsic_load_barycentric_sample, nir_intrinsic_load_barycentric_sample
  | nir_intrinsic_load_barycentric_at_sample, nir_intrinsic_load_barycentric_at_sample
  | nir_intrinsic_load_barycentric_at_offset, nir_intrinsic_load_barycentric_at_offset
  | nir_intrinsic_load_interpolated_input, nir_intrinsic_load_interpolated_input
  | nir_intrinsic_load_input, nir_intrinsic_load_input
  | nir_intrinsic_store_output, nir_intrinsic_store_output => true
  | nir_intrinsic_other n, nir_intrinsic_other m => N.eqb n m
  | _, _ => false
  end.

Record nir_intrinsic_info : Type := { info_name : string; has_dest : bool }.
Record nir_op_info : Type := { op_name : string; num_inputs : Z }.

(** ** Builder calls

    Modelled from the spec: the per-opcode builder functions
    (agx_builder.h is generated and not among the sources).  Each makes
    one zero-initialised instruction with the given opcode, operands and
    immediate, and inserts it at the cursor. *)

Definition agx_mov_imm_to (dst : agx_index) (imm : Z) : emitter agx_instr_ptr :=
  agx_builder_insert (mk_instr AGX_OPCODE_MOV_IMM dst [] imm 0).

Definition agx_ld_vary_to (dst s0 : agx_index) : emitter agx_instr_ptr :=
  agx_builder_insert (mk_instr AGX_OPCODE_LD_VARY dst [s0] 0 0).

Definition agx_st_vary (s0 s1 : agx_index) : emitter agx_instr_ptr :=
  agx_builder_insert (mk_instr AGX_OPCODE_ST_VARY agx_null [s0; s1] 0 0).

Definition agx_writeout (imm : Z) : emitter agx_instr_ptr :=
  agx_builder_insert (mk_instr AGX_OPCODE_WRITEOUT agx_null [] imm 0).

Definition agx_blend (s0 : agx_index) (fmt : agx_format) : emitter agx_instr_ptr :=
  agx_builder_insert (mk_instr AGX_OPCODE_BLEND agx_null [s0] 0 fmt).

Definition agx_p_extract_to (dst s0 : agx_index) (imm : Z) : emitter agx_instr_ptr :=
  agx_builder_insert (mk_instr AGX_OPCODE_P_EXTRACT dst [s0] imm 0).

Definition agx_p_combine_to (dst s0 s1 s2 s3 : agx_index) : emitter agx_instr_ptr :=
  agx_builder_insert (mk_instr AGX_OPCODE_P_COMBINE dst [s0; s1; s2; s3] 0 0).

Definition agx_stop : emitter agx_instr_ptr :=
  agx_builder_insert (mk_instr AGX_OPCODE_STOP agx_null [] 0 0).

Definition agx_trap : emitter agx_instr_ptr :=
  agx_builder_insert (mk_instr AGX_OPCODE_TRAP agx_null [] 0 0).

Definition agx_index_size (i : agx_index) : agx_size :=
  match i with
  | agx_get_index _ sz => sz
  | agx_immediate _ => AGX_SIZE_32
  | agx_null => AGX_SIZE_16
  end.

(** Modelled from the spec: the variant of the extract without
    destination (agx_builder.h is not among the sources): a fresh
    temporary of the operand's size receives the channel and is
    returned. *)
Definition agx_p_extract (s0 : agx_index) (imm : Z) : emitter agx_index :=
  bind (agx_temp (agx_index_size s0)) (fun tmp =>
  bind (agx_p_extract_to tmp s0 imm) (fun _ =>
  ret tmp)).

(** ** The selector *)

Section Selector.

(** What the selector uses of NIR and of the AGX headers without their
    definitions being among the sources is a parameter of the
    development: the operand size of a bit width ([agx_size_for_bits],
    agx_compiler.h), the tables [nir_intrinsic_infos] and [nir_op_infos]
    outside the vector packs, [nir_op_is_vec], [nir_get_io_offset_src]
    (a pointer into the intrinsic's sources, or [NULL]), and the values
    of the enumerators [FRAG_RESULT_COLOR] and [FRAG_RESULT_DATA0]. *)
Variable agx_size_for_bits : Z -> agx_size.
Variable nir_intrinsic_infos : nir_intrinsic_op -> nir_intrinsic_info.
Variable nir_op_infos_other : N -> nir_op_info.
Variable nir_op_is_vec : nir_op -> bool.
Variable nir_get_io_offset_src : nir_intrinsic_instr -> option nir_src.
Variable FRAG_RESULT_COLOR : Z.
Variable FRAG_RESULT_DATA0 : Z.

Local Open Scope emitter_scope.

(** Modelled from the spec: an n-way vector pack has n inputs
    (nir_opcodes.h is generated and not among the sources). *)
Definition nir_op_infos (o : nir_op) : nir_op_info :=
  match o with
  | nir_op_vec2 => {| op_name := "vec2"; num_inputs := 2 |}
  | nir_op_vec3 => {| op_name := "vec3"; num_inputs := 3 |}
  | nir_op_vec4 => {| op_name := "vec4"; num_inputs := 4 |}
  | nir_op_vec8 => {| op_name := "vec8"; num_inputs := 8 |}
  | nir_op_vec16 => {| op_name := "vec16"; num_inputs := 16 |}
  | nir_op_other n => nir_op_infos_other n
  end.

(** Modelled from the spec: the virtual register of an SSA value keeps
    the value's index (agx_compiler.h is not among the sources). *)
Definition agx_src_index (s : nir_src) : agx_index :=
  agx_get_index (index (ssa s)) (agx_size_for_bits (nir_src_bit_size s)).

Definition agx_dest_index (d : nir_dest) : agx_index :=
  agx_get_index (index (dest_ssa d)) (agx_size_for_bits (nir_dest_bit_size d)).

Definition agx_emit_load_const (instr : nir_load_const_instr) : emitter unit :=
  (* Ensure we've been scalarized and bit size lowered *)
  let bit_size := bit_size (def instr) in
  assert (num_components (def instr) =? 1) "instr->def.num_components == 1" ;;;
  assert ((bit_size =? 16) || (bit_size =? 32))
         "bit_size == 16 || bit_size == 32" ;;;
  (* Emit move, later passes can inline/push if useful *)
  v <- array_read (value instr) 0 "instr->value[0]" ;;
  agx_mov_imm_to
    (agx_get_index (index (def instr)) (agx_size_for_bits bit_size))
    (nir_const_value_as_uint v bit_size) ;;;
  ret tt.

Definition agx_emit_load_attr (instr : nir_intrinsic_instr) : emitter unit :=
  unreachable "stub".

Definition agx_emit_load_vary (instr : nir_intrinsic_instr) : emitter unit :=
  let components := intr_num_components instr in
  let smooth :=
    nir_intrinsic_op_eqb (intrinsic instr) nir_intrinsic_load_interpolated_input in
  (if smooth then
     s0 <- array_read (intr_src instr) 0 "instr->src[0]" ;;
     match nir_src_as_intrinsic s0 with
     | None => assert false "parent"
     | Some parent =>
         (* TODO: Interpolation modes *)
         assert (nir_intrinsic_op_eqb parent nir_intrinsic_load_barycentric_pixel)
                "parent->intrinsic == nir_intrinsic_load_barycentric_pixel"
     end
   else
     unreachable "todo: flat varyings") ;;;
  offset <- deref (nir_get_io_offset_src instr) "offset" ;;
  assert (nir_src_is_const offset) "nir_src_is_const(*offset) && todo: indirects" ;;;
  let imm_index :=
    to_unsigned (to_uint64 (nir_intrinsic_base instr + nir_src_as_uint offset)) in
  ld <- agx_ld_vary_to (agx_dest_index (intr_dest instr))
                       (agx_immediate imm_index) ;;
  if negb (components =? 4)
  then store_mask ld (BITFIELD_MASK components)
  else ret tt.

Definition agx_emit_store_vary (instr : nir_intrinsic_instr) : emitter unit :=
  offset <- deref (nir_get_io_offset_src instr) "offset" ;;
  assert (nir_src_is_const offset) "nir_src_is_const(*offset) && todo: indirects" ;;;
  let imm_index := to_unsigned (4 * nir_intrinsic_base instr) in
  let imm_index := to_unsigned (imm_index + nir_intrinsic_component instr) in
  let imm_index := to_unsigned (to_uint64 (imm_index + nir_src_as_uint offset)) in
  (* nir_lower_io_to_scalar *)
  assert (nir_intrinsic_write_mask instr =? 1)
         "nir_intrinsic_write_mask(instr) == 0x1" ;;;
  s0 <- array_read (intr_src instr) 0 "instr->src[0]" ;;
  agx_st_vary (agx_immediate imm_index) (agx_src_index s0) ;;;
  ret tt.

Definition agx_emit_fragment_out (instr : nir_intrinsic_instr) : emitter unit :=
  ctx <- get_shader ;;
  match nir_find_variable_with_driver_location (nir ctx) nir_var_shader_out
          (to_unsigned (nir_intrinsic_base instr)) with
  | None => assert false "var"
  | Some var =>
      let loc := to_unsigned (data_location var) in
      assert (data_index var =? 0)
             "var->data.index == 0 && todo: dual-source blending" ;;;
      assert ((loc =? to_unsigned FRAG_RESULT_COLOR)
              || (loc =? to_unsigned FRAG_RESULT_DATA0))
             "(loc == FRAG_RESULT_COLOR || loc == FRAG_RESULT_DATA0) && todo: MRT" ;;;
      let rt := if loc =? to_unsigned FRAG_RESULT_COLOR then 0
                else to_unsigned (loc - FRAG_RESULT_DATA0) in
      (* TODO: Reverse-engineer interactions with MRT *)
      agx_writeout 0xC200 ;;;
      agx_writeout 0x000C ;;;
      (* Emit the blend op itself *)
      s0 <- array_read (intr_src instr) 0 "instr->src[0]" ;;
      k <- deref (key ctx) "b->shader->key" ;;
      agx_blend (agx_src_index s0) (fs_tib_formats k rt) ;;;
      ret tt
  end.

Definition agx_emit_intrinsic (instr : nir_intrinsic_instr) : emitter unit :=
  let dst := if has_dest (nir_intrinsic_infos (intrinsic instr))
             then agx_dest_index (intr_dest instr) else agx_null in
  ctx <- get_shader ;;
  let stage := stage ctx in
  match intrinsic instr with
  | nir_intrinsic_load_barycentric_pixel
  | nir_intrinsic_load_barycentric_centroid
  | nir_intrinsic_load_barycentric_sample
  | nir_intrinsic_load_barycentric_at_sample
  | nir_intrinsic_load_barycentric_at_offset =>
      (* handled later via load_vary *)
      ret tt
  | nir_intrinsic_load_interpolated_input
  | nir_intrinsic_load_input =>
      match stage with
      | MESA_SHADER_FRAGMENT => agx_emit_load_vary instr
      | MESA_SHADER_VERTEX => agx_emit_load_attr instr
      | _ => unreachable "Unsupported shader stage"
      end
  | nir_intrinsic_store_output =>
      match stage with
      | MESA_SHADER_FRAGMENT => agx_emit_fragment_out instr
      | MESA_SHADER_VERTEX => agx_emit_store_vary instr
      | _ => unreachable "Unsupported shader stage"
      end
  | nir_intrinsic_other _ =>
      fprintf_then
        ("Unhandled intrinsic "
           +:+ info_name (nir_intrinsic_infos (intrinsic instr)) +:+ newline)
        (assert_fail "0")
  end.

Definition agx_alu_src_index (s : nir_alu_src) : emitter agx_index :=
  (* Check well-formedness of the input NIR *)
  let bitsize := nir_src_bit_size (src s) in
  let comps := nir_src_num_components (src s) in
  let channel := swizzle s 0%nat in
  assert ((bitsize =? 16) || (bitsize =? 32) || (bitsize =? 64))
         "bitsize == 16 || bitsize == 32 || bitsize == 64" ;;;
  assert (negb (negate s || abs s)) "!(src.negate || src.abs)" ;;;
  assert (channel <? comps) "channel < comps" ;;;
  let idx := agx_src_index (src s) in
  (* We only deal with scalars, emit p_extract if needed *)
  if comps >? 1 then agx_p_extract idx channel else ret idx.

(** [srcs > n ? agx_alu_src_index(b, instr->src[n]) : agx_null()] *)
Definition alu_src_or_null (instr : nir_alu_instr) (srcs : Z) (n : nat)
  : emitter agx_index :=
  if srcs >? Z.of_nat n
  then s <- array_read (alu_src instr) n "instr->src[n]" ;; agx_alu_src_index s
  else ret agx_null.

Definition agx_emit_alu (instr : nir_alu_instr) : emitter agx_instr_ptr :=
  let srcs := to_unsigned (num_inputs (nir_op_infos (op instr))) in
  let sz := nir_dest_bit_size (dest (alu_dest instr)) in
  src_sz <- (if negb (srcs =? 0)
             then s <- array_read (alu_src instr) 0 "instr->src[0]" ;;
                  ret (nir_src_bit_size (src s))
             else ret 0) ;;
  let comps := nir_dest_num_components (dest (alu_dest instr)) in
  assert ((comps =? 1) || nir_op_is_vec (op instr))
         "comps == 1 || nir_op_is_vec(instr->op)" ;;;
  assert ((sz =? 16) || (sz =? 32) || (sz =? 64))
         "sz == 16 || sz == 32 || sz == 64" ;;;
  let dst := agx_dest_index (dest (alu_dest instr)) in
  s0 <- alu_src_or_null instr srcs 0 ;;
  s1 <- alu_src_or_null instr srcs 1 ;;
  s2 <- alu_src_or_null instr srcs 2 ;;
  s3 <- alu_src_or_null instr srcs 3 ;;
  match op instr with
  | nir_op_vec2
  | nir_op_vec3
  | nir_op_vec4 => agx_p_combine_to dst s0 s1 s2 s3
  | nir_op_vec8
  | nir_op_vec16 => unreachable "should've been lowered"
  | nir_op_other _ =>
      fprintf_then
        ("Unhandled ALU op " +:+ op_name (nir_op_infos (op instr)) +:+ newline)
        (unreachable_reached "Unhandled ALU instruction")
  end.

Definition agx_emit_tex : emitter unit := unreachable "stub".

Definition agx_emit_jump : emitter unit := unreachable "stub".

Definition agx_emit_instr (instr : nir_instr) : emitter unit :=
  match instr with
  | nir_instr_type_load_const i => agx_emit_load_const i
  | nir_instr_type_intrinsic i => agx_emit_intrinsic i
  | nir_instr_type_alu i => agx_emit_alu i ;;; ret tt
  | nir_instr_type_tex => agx_emit_tex
  | nir_instr_type_jump => agx_emit_jump
  | _ => unreachable "should've been lowered"
  end.

(** ** Blocks *)

(** [rzalloc] gives a zeroed block; its predecessor set is created
    empty. *)
Definition agx_create_block : agx_block :=
  {| instructions := []; predecessors := []; name := 0 |}.

Definition emit_block (ctx : agx_context) (block : list nir_instr)
  : result (nat * agx_context) :=
  let blk := length (blocks ctx) in
  let ctx := set_blocks ctx (blocks ctx ++ [agx_create_block]) in
  let _b := agx_init_builder ctx (agx_after_block blk) in
  match foreach block agx_emit_instr _b with
  | Ok (_, _b) => Ok (blk, shader _b)
  | Fatal e w => Fatal e w
  end.

Definition emit_if (ctx : agx_context) : result agx_context :=
  Fatal "" (unreachable_reached "if-statements todo").

Definition emit_loop (ctx : agx_context) : result agx_context :=
  Fatal "" (unreachable_reached "loops todo").

(** The loop of [emit_cf_list], with [start_block] as it stands when the
    remaining nodes are reached. *)
Fixpoint emit_cf_nodes (ctx : agx_context) (start_block : option nat)
    (list : list nir_cf_node) : result (option nat * agx_context) :=
  match list with
  | [] => Ok (start_block, ctx)
  | node :: rest =>
      match node with
      | nir_cf_node_block instrs =>
          match emit_block ctx instrs with
          | Ok (block, ctx) =>
              let start_block :=
                match start_block with
                | None => Some block
                | Some s => Some s
                end in
              emit_cf_nodes ctx start_block rest
          | Fatal e w => Fatal e w
          end
      | nir_cf_node_if =>
          match emit_if ctx with
          | Ok ctx => emit_cf_nodes ctx start_block rest
          | Fatal e w => Fatal e w
          end
      | nir_cf_node_loop =>
          match emit_loop ctx with
          | Ok ctx => emit_cf_nodes ctx start_block rest
          | Fatal e w => Fatal e w
          end
      | nir_cf_node_function =>
          Fatal "" (unreachable_reached "Unknown control flow")
      end
  end.

Definition emit_cf_list (ctx : agx_context) (list : list nir_cf_node)
  : result (option nat * agx_context) :=
  emit_cf_nodes ctx None list.

(** ** The driver

    [agx_compile_shader_nir] from the walk over the functions to the
    naming of the blocks.  [nir] is the shader as the NIR passes of the
    first half of the function left it (they rewrite it in place and are
    not among the sources); the context then goes to the register
    allocator.  [ctx] comes zeroed from [rzalloc], and nothing in the
    function stores a key into it. *)

Definition set_name (blk : agx_block) (n : Z) : agx_block :=
  {| instructions := instructions blk; predecessors := predecessors blk;
     name := n |}.

(** [nir_foreach_function]: the first function that has a body is
    translated, then the loop is left. *)
Fixpoint agx_emit_functions (ctx : agx_context) (funcs : list nir_function)
  : result agx_context :=
  match funcs with
  | [] => Ok ctx
  | func :: rest =>
      match impl func with
      | None => agx_emit_functions ctx rest
      | Some i =>
          let ctx := set_alloc ctx (to_unsigned (alloc ctx + ssa_alloc i)) in
          match emit_cf_list ctx (body i) with
          | Ok (_, ctx) => Ok ctx (* TODO: Multi-function shaders *)
          | Fatal e w => Fatal e w
          end
      end
  end.

Definition agx_build_blocks (nir : nir_shader) : result agx_context :=
  let ctx := {| nir := nir; stage := info_stage nir; key := None;
                blocks := []; alloc := 0 |} in
  agx_emit_functions ctx (functions nir).

(** [for (unsigned i = 0; i < n; ++i) body] *)
Fixpoint for_times {A} (n : nat) (body : emitter A) : emitter unit :=
  match n with
  | O => ret tt
  | S n' => body ;;; for_times n' body
  end.

(** [agx_foreach_block(ctx, block) block->name = block_source_count++;] *)
Fixpoint agx_name_blocks (bs : list agx_block) (block_source_count : Z)
  : list agx_block :=
  match bs with
  | [] => []
  | block :: rest =>
      set_name block block_source_count
      :: agx_name_blocks rest (to_unsigned (block_source_count + 1))
  end.

(** Modelled from the spec: [list_last_entry] (util/list.h is not among
    the sources), the last block of the list; on an empty list the
    pointer designates no block. *)
Definition list_last_entry (bs : list agx_block) : nat := (length bs - 1)%nat.

Definition agx_terminate_shader (ctx : agx_context) : result agx_context :=
  (* Terminate the shader after the exit block *)
  let last_block := list_last_entry (blocks ctx) in
  let _b := agx_init_builder ctx (agx_after_block last_block) in
  match (agx_stop ;;;
         (* Also add traps to match the blob, unsure what the function is *)
         for_times 8 agx_trap) _b with
  | Ok (_, _b) =>
      let ctx := shader _b in
      (* Name blocks now that we're done emitting so the order is consistent *)
      Ok (set_blocks ctx (agx_name_blocks (blocks ctx) 0))
  | Fatal e w => Fatal e w
  end.

Definition agx_compile_shader_nir (nir : nir_shader) : result agx_context :=
  match agx_build_blocks nir with
  | Ok ctx => agx_terminate_shader ctx
  | Fatal e w => Fatal e w
  end.

(** ** The optimization pipeline

    [agx_optimize_nir] strings NIR passes together; the passes are not
    among the sources, so they come as a table.  A pass rewrites the
    shader and reports whether it changed anything.  The [do ... while]
    loop has no bound in the code; here it takes fuel and returns [None]
    when the fuel runs out. *)

Definition nir_pass : Type := nir_shader -> bool * nir_shader.

Record nir_lower_idiv_options : Type := {
  imprecise_32bit_lowering : bool;
  allow_fp16 : bool
}.

Inductive nir_move_options : Type :=
| nir_move_const_undef
| nir_move_load_ubo
| nir_move_load_input
| nir_move_comparisons
| nir_move_copies
| nir_move_load_ssbo.

Record nir_passes : Type := {
  nir_lower_regs_to_ssa : nir_pass;
  nir_lower_int64 : nir_pass;
  nir_lower_idiv : nir_lower_idiv_options -> nir_pass;
  nir_lower_alu_to_scalar : nir_pass;
  nir_lower_load_const_to_scalar : nir_pass;
  nir_lower_flrp : Z -> bool -> nir_pass;
  nir_lower_var_copies : nir_pass;
  nir_lower_vars_to_ssa : nir_pass;
  nir_copy_prop : nir_pass;
  nir_opt_remove_phis : nir_pass;
  nir_opt_dce : nir_pass;
  nir_opt_dead_cf : nir_pass;
  nir_opt_cse : nir_pass;
  nir_opt_peephole_select : Z -> bool -> bool -> nir_pass;
  nir_opt_algebraic : nir_pass;
  nir_opt_constant_folding : nir_pass;
  nir_opt_undef : nir_pass;
  nir_lower_undef_to_zero : nir_pass;
  nir_opt_loop_unroll : list nir_variable_mode -> nir_pass;
  nir_opt_algebraic_late : nir_pass;
  nir_opt_sink : list nir_move_options -> nir_pass;
  nir_opt_move : list nir_move_options -> nir_pass
}.

(** [NIR_PASS_V(nir, pass, ...)]: run the pass, drop its report. *)
Definition NIR_PASS_V (pass : nir_pass) (shader_nir : nir_shader) : nir_shader :=
  snd (pass shader_nir).

(** [NIR_PASS(progress, nir, pass, ...)]: run the pass and raise
    [progress] when it reports a change. *)
Definition NIR_PASS (pass : nir_pass) (st : bool * nir_shader)
  : bool * nir_shader :=
  let '(progress, shader_nir) := st in
  let '(changed, shader_nir) := pass shader_nir in
  (if changed then true else progress, shader_nir).

(** The passes of the loop, in the order of one iteration. *)
Definition fixed_point_set (P : nir_passes) : list nir_pass :=
  [ nir_lower_var_copies P;
    nir_lower_vars_to_ssa P;
    nir_copy_prop P;
    nir_opt_remove_phis P;
    nir_opt_dce P;
    nir_opt_dead_cf P;
    nir_opt_cse P;
    nir_opt_peephole_select P 64 false true;
    nir_opt_algebraic P;
    nir_opt_constant_folding P;
    nir_opt_undef P;
    nir_lower_undef_to_zero P;
    nir_opt_loop_unroll P
      [nir_var_shader_in; nir_var_shader_out; nir_var_function_temp] ].

(** One iteration of the loop, from [progress = false]. *)
Definition agx_optimize_iteration (P : nir_passes) (shader_nir : nir_shader)
  : bool * nir_shader :=
  fold_left (fun st pass => NIR_PASS pass st) (fixed_point_set P)
            (false, shader_nir).

Fixpoint agx_optimize_loop (P : nir_passes) (fuel : nat) (shader_nir : nir_shader)
  : option nir_shader :=
  match fuel with
  | O => None
  | S fuel' =>
      let '(progress, shader_nir) := agx_optimize_iteration P shader_nir in
      if progress then agx_optimize_loop P fuel' shader_nir
      else Some shader_nir
  end.

Definition agx_optimize_nir (P : nir_passes) (fuel : nat) (shader_nir : nir_shader)
  : option nir_shader :=
  let idiv_options :=
    {| imprecise_32bit_lowering := false; allow_fp16 := true |} in
  let shader_nir := NIR_PASS_V (nir_lower_regs_to_ssa P) shader_nir in
  let shader_nir := NIR_PASS_V (nir_lower_int64 P) shader_nir in
  let shader_nir := NIR_PASS_V (nir_lower_idiv P idiv_options) shader_nir in
  let shader_nir := NIR_PASS_V (nir_lower_alu_to_scalar P) shader_nir in
  let shader_nir := NIR_PASS_V (nir_lower_load_const_to_scalar P) shader_nir in
  let shader_nir :=
    NIR_PASS_V (nir_lower_flrp P (Z.lor 16 (Z.lor 32 64)) false) shader_nir in
  match agx_optimize_loop P fuel shader_nir with
  | None => None
  | Some shader_nir =>
      let shader_nir := NIR_PASS_V (nir_opt_algebraic_late P) shader_nir in
      let shader_nir := NIR_PASS_V (nir_opt_constant_folding P) shader_nir in
      let shader_nir := NIR_PASS_V (nir_copy_prop P) shader_nir in
      let shader_nir := NIR_PASS_V (nir_opt_dce P) shader_nir in
      let shader_nir := NIR_PASS_V (nir_opt_cse P) shader_nir in
      let shader_nir := NIR_PASS_V (nir_lower_alu_to_scalar P) shader_nir in
      let shader_nir :=
        NIR_PASS_V (nir_lower_load_const_to_scalar P) shader_nir in
      (* Cleanup optimizations *)
      let move_all :=
        [nir_move_const_undef; nir_move_load_ubo; nir_move_load_input;
         nir_move_comparisons; nir_move_copies; nir_move_load_ssbo] in
      let shader_nir := NIR_PASS_V (nir_opt_sink P move_all) shader_nir in
      let shader_nir := NIR_PASS_V (nir_opt_move P move_all) shader_nir in
      Some shader_nir
  end.

(** ** What the selector emits for one instruction

    The instructions [agx_emit_instr] appends and the value it leaves in
    the allocation counter, read off a run on a context whose only block
    is a fresh one. *)

Definition scratch_builder (ctx : agx_context) : agx_builder :=
  agx_init_builder (set_blocks ctx [agx_create_block]) (agx_after_block 0).

Definition emitted_by {A} (m : emitter A) (ctx : agx_context)
  : result (list agx_instr * Z) :=
  match m (scratch_builder ctx) with
  | Ok (_, b) =>
      Ok (match blocks (shader b) with
          | blk :: _ => instructions blk
          | [] => []
          end, alloc (shader b))
  | Fatal e w => Fatal e w
  end.

Definition selected (ctx : agx_context) (instr : nir_instr)
  : result (list agx_instr * Z) :=
  emitted_by (agx_emit_instr instr) ctx.

(** [translates ctx a instrs code a']: selecting [instrs] one after the
    other, in their order, with the counter at [a] at the start, gives
    the concatenation [code] of what each selects and leaves the counter
    at [a']. *)
Inductive translates (ctx : agx_context)
  : Z -> list nir_instr -> list agx_instr -> Z -> Prop :=
| translates_nil a : translates ctx a [] [] a
| translates_cons a instr code a1 rest code' a2 :
    selected (set_alloc ctx a) instr = Ok (code, a1) ->
    translates ctx a1 rest code' a2 ->
    translates ctx a (instr :: rest) (code ++ code') a2.

(** [builds ctx a bodies news a']: one new block per body, in order,
    each holding the translation of its body. *)
Inductive builds (ctx : agx_context)
  : Z -> list (list nir_instr) -> list agx_block -> Z -> Prop :=
| builds_nil a : builds ctx a [] [] a
| builds_cons a instrs code a1 rest news a2 :
    translates ctx a instrs code a1 ->
    builds ctx a1 rest news a2 ->
    builds ctx a (instrs :: rest)
           (set_instructions agx_create_block code :: news) a2.

(** The intrinsics the selector translates, and those it accepts without
    translating them. *)
Definition handled_case (i : nir_intrinsic_op) : bool :=
  match i with
  | nir_intrinsic_load_interpolated_input
  | nir_intrinsic_load_input
  | nir_intrinsic_store_output => true
  | _ => false
  end.

Definition is_barycentric (i : nir_intrinsic_op) : bool :=
  match i with
  | nir_intrinsic_load_barycentric_pixel
  | nir_intrinsic_load_barycentric_centroid
  | nir_intrinsic_load_barycentric_sample
  | nir_intrinsic_load_barycentric_at_sample
  | nir_intrinsic_load_barycentric_at_offset => true
  | _ => false
  end.

(** ** What the ALU path requires and what it emits for the sources *)

Definition bit_size_ok (w : Z) : bool := (w =? 16) || (w =? 32) || (w =? 64).

Definition has_modifier (s : nir_alu_src) : bool := negate s || abs s.

Definition multi_component (s : nir_alu_src) : bool :=
  nir_src_num_components (src s) >? 1.

(** A source the selector accepts: a supported width, no modifier, a
    channel that exists. *)
Definition src_legal (s : nir_alu_src) : bool :=
  bit_size_ok (nir_src_bit_size (src s))
  && negb (has_modifier s)
  && (swizzle s 0%nat <? nir_src_num_components (src s)).

(** A legalized ALU instruction: one component unless the opcode is a
    vector pack, a supported width, as many sources as the opcode has
    inputs, each of them accepted. *)
Definition alu_legalized (instr : nir_alu_instr) : bool :=
  ((nir_dest_num_components (dest (alu_dest instr)) =? 1)
   || nir_op_is_vec (op instr))
  && bit_size_ok (nir_dest_bit_size (dest (alu_dest instr)))
  && (Z.of_nat (length (alu_src instr)) =? num_inputs (nir_op_infos (op instr)))
  && forallb src_legal (alu_src instr).

Definition is_vec234 (o : nir_op) : bool :=
  match o with
  | nir_op_vec2 | nir_op_vec3 | nir_op_vec4 => true
  | _ => false
  end.

(** The lowering of one source with the counter at [a]: the
    instructions interposed, the operand to use, the counter after.  A
    scalar source is used as it is; of a source with several components
    the selected channel is extracted into a fresh temporary. *)
Definition lower_src (s : nir_alu_src) (a : Z) : list agx_instr * agx_index * Z :=
  let idx := agx_src_index (src s) in
  if multi_component s
  then let tmp := agx_get_index a (agx_index_size idx) in
       ([mk_instr AGX_OPCODE_P_EXTRACT tmp [idx] (swizzle s 0%nat) 0],
        tmp, to_unsigned (a + 1))
  else ([], idx, a).

Fixpoint lower_srcs (l : list nir_alu_src) (a : Z)
  : list agx_instr * list agx_index * Z :=
  match l with
  | [] => ([], [], a)
  | s :: rest =>
      let '(c, o, a1) := lower_src s a in
      let '(cs, os, a2) := lower_srcs rest a1 in
      (c ++ cs, o :: os, a2)
  end.

(** The [n]-th operand of [agx_emit_alu] when [srcs] inputs are
    declared: the lowering of the [n]-th source, "no operand" past the
    inputs; defined when the source is there and accepted. *)
Definition lower_nth (instr : nir_alu_instr) (srcs : Z) (n : nat) (a : Z)
  : option (list agx_instr * agx_index * Z) :=
  if srcs >? Z.of_nat n
  then match alu_src instr !! n with
       | Some s => if src_legal s then Some (lower_src s a) else None
       | None => None
       end
  else Some ([], agx_null, a).

Definition is_block (node : nir_cf_node) : bool :=
  match node with nir_cf_node_block _ => true | _ => false end.

(** The block the cursor is after grows by [new]; the counter becomes
    [a]. *)
Definition grow (b : agx_builder) (blk : agx_block) (new : list agx_instr)
    (a : Z) : agx_builder :=
  {| shader :=
       set_alloc
         (set_blocks (shader b)
            (<[cursor b := set_instructions blk (instructions blk ++ new)]>
               (blocks (shader b))))
         a;
     cursor := cursor b |}.

(** ** Auxiliary definitions of the statements *)

Definition st_vary_instr (instr : nir_intrinsic_instr) (offset s0 : nir_src)
  : agx_instr :=
  mk_instr AGX_OPCODE_ST_VARY agx_null
    [agx_immediate
       (to_unsigned (4 * nir_intrinsic_base instr
                     + nir_intrinsic_component instr
                     + nir_src_as_uint offset));
     agx_src_index s0] 0 0.

Definition ld_vary_instr (instr : nir_intrinsic_instr) (offset : nir_src)
  : agx_instr :=
  let ld :=
    mk_instr AGX_OPCODE_LD_VARY (agx_dest_index (intr_dest instr))
      [agx_immediate
         (to_unsigned (nir_intrinsic_base instr + nir_src_as_uint offset))]
      0 0 in
  if intr_num_components instr =? 4
  then ld
  else set_mask ld (BITFIELD_MASK (intr_num_components instr)).

(** The render target [agx_emit_fragment_out] computes for a variable. *)
Definition render_target (var : nir_variable) : Z :=
  let loc := to_unsigned (data_location var) in
  if loc =? to_unsigned FRAG_RESULT_COLOR then 0
  else to_unsigned (loc - FRAG_RESULT_DATA0).

Definition location_supported (var : nir_variable) : bool :=
  let loc := to_unsigned (data_location var) in
  (loc =? to_unsigned FRAG_RESULT_COLOR) || (loc =? to_unsigned FRAG_RESULT_DATA0).

Definition fragment_out_instrs (s0 : nir_src) (k : agx_shader_key) (rt : Z)
  : list agx_instr :=
  [mk_instr AGX_OPCODE_WRITEOUT agx_null [] 0xC200 0;
   mk_instr AGX_OPCODE_WRITEOUT agx_null [] 0x000C 0;
   mk_instr AGX_OPCODE_BLEND agx_null [agx_src_index s0] 0 (fs_tib_formats k rt)].

(** The switch of [agx_emit_alu] and the part of the function after the
    two assertions. *)
Definition alu_switch (instr : nir_alu_instr) (s0 s1 s2 s3 : agx_index)
  : emitter agx_instr_ptr :=
  match op instr with
  | nir_op_vec2
  | nir_op_vec3
  | nir_op_vec4 =>
      agx_p_combine_to (agx_dest_index (dest (alu_dest instr))) s0 s1 s2 s3
  | nir_op_vec8
  | nir_op_vec16 => unreachable "should've been lowered"
  | nir_op_other _ =>
      fprintf_then
        ("Unhandled ALU op " +:+ op_name (nir_op_infos (op instr)) +:+ newline)
        (unreachable_reached "Unhandled ALU instruction")
  end.

Definition alu_operands_and_switch (instr : nir_alu_instr) (srcs : Z)
  : emitter agx_instr_ptr :=
  (s0 <- alu_src_or_null instr srcs 0 ;;
   s1 <- alu_src_or_null instr srcs 1 ;;
   s2 <- alu_src_or_null instr srcs 2 ;;
   s3 <- alu_src_or_null instr srcs 3 ;;
   alu_switch instr s0 s1 s2 s3)%emitter.

Definition combine_instr (instr : nir_alu_instr) (ops : list agx_index)
  : agx_instr :=
  mk_instr AGX_OPCODE_P_COMBINE (agx_dest_index (dest (alu_dest instr)))
    (ops ++ replicate (4 - length ops) agx_null) 0 0.

Definition same_env (c1 c2 : agx_context) : Prop :=
  nir c1 = nir c2 /\ stage c1 = stage c2 /\ key c1 = key c2
  /\ alloc c1 = alloc c2.

Definition sim {A} (R : A -> A -> Prop) (m1 m2 : emitter A) : Prop :=
  forall b1 b2 blk1 blk2,
    same_env (shader b1) (shader b2) ->
    blocks (shader b1) !! cursor b1 = Some blk1 ->
    blocks (shader b2) !! cursor b2 = Some blk2 ->
    match m1 b1, m2 b2 with
    | Ok (x1, b1'), Ok (x2, b2') =>
        R x1 x2
        /\ exists c a', b1' = grow b1 blk1 c a' /\ b2' = grow b2 blk2 c a'
    | Fatal e1 w1, Fatal e2 w2 => e1 = e2 /\ w1 = w2
    | _, _ => False
    end.

Definition same_program (c1 c2 : agx_context) : Prop :=
  nir c1 = nir c2 /\ stage c1 = stage c2 /\ key c1 = key c2.

Definition first_new_block (ctx : agx_context) (bodies : list (list nir_instr))
  : option nat :=
  match bodies with
  | [] => None
  | _ :: _ => Some (length (blocks ctx))
  end.

Definition epilogue : list agx_instr :=
  mk_instr AGX_OPCODE_STOP agx_null [] 0 0
  :: replicate 8 (mk_instr AGX_OPCODE_TRAP agx_null [] 0 0).

(** ** Sample inputs

    A table for the parameters, as NIR and the AGX headers define them
    for the entries used below, and small shaders to run the selector
    on. *)

Definition sample_size_for_bits (bits : Z) : agx_size :=
  if bits =? 64 then AGX_SIZE_64
  else if bits =? 32 then AGX_SIZE_32
  else AGX_SIZE_16.

Definition sample_intrinsic_infos (i : nir_intrinsic_op) : nir_intrinsic_info :=
  match i with
  | nir_intrinsic_load_barycentric_pixel =>
      {| info_name := "load_barycentric_pixel"; has_dest := true |}
  | nir_intrinsic_load_barycentric_centroid =>
      {| info_name := "load_barycentric_centroid"; has_dest := true |}
  | nir_intrinsic_load_barycentric_sample =>
      {| info_name := "load_barycentric_sample"; has_dest := true |}
  | nir_intrinsic_load_barycentric_at_sample =>
      {| info_name := "load_barycentric_at_sample"; has_dest := true |}
  | nir_intrinsic_load_barycentric_at_offset =>
      {| info_name := "load_barycentric_at_offset"; has_dest := true |}
  | nir_intrinsic_load_interpolated_input =>
      {| info_name := "load_interpolated_input"; has_dest := true |}
  | nir_intrinsic_load_input =>
      {| info_name := "load_input"; has_dest := true |}
  | nir_intrinsic_store_output =>
      {| info_name := "store_output"; has_dest := false |}
  | nir_intrinsic_other _ =>
      {| info_name := "discard"; has_dest := false |}
  end.

Definition sample_op_infos_other (n : N) : nir_op_info :=
  {| op_name := "fadd"; num_inputs := 2 |}.

Definition sample_op_is_vec (o : nir_op) : bool :=
  match o with
  | nir_op_other _ => false
  | _ => true
  end.

Definition sample_get_io_offset_src (instr : nir_intrinsic_instr)
  : option nir_src :=
  match intrinsic instr with
  | nir_intrinsic_load_input => intr_src instr !! 0%nat
  | nir_intrinsic_load_interpolated_input
  | nir_intrinsic_store_output => intr_src instr !! 1%nat
  | _ => None
  end.

Definition sample_FRAG_RESULT_COLOR : Z := 2.
Definition sample_FRAG_RESULT_DATA0 : Z := 4.

Definition sample_def (parent : nir_parent_instr) (idx comps bits : Z)
  : nir_ssa_def :=
  {| parent_instr := parent; index := idx; num_components := comps;
     bit_size := bits |}.

(** A 32-bit constant, the pixel barycentrics, a 4-component value. *)
Definition sample_const (v : Z) : nir_src :=
  {| ssa := sample_def (parent_load_const [v]) 1 1 32 |}.

Definition sample_barycentric (i : nir_intrinsic_op) : nir_src :=
  {| ssa := sample_def (parent_intrinsic i) 2 2 32 |}.

Definition sample_vec4 : nir_src :=
  {| ssa := sample_def parent_other 3 4 32 |}.

Definition sample_scalar : nir_src :=
  {| ssa := sample_def parent_other 4 1 32 |}.

Definition sample_dest (idx comps : Z) : nir_dest :=
  {| dest_ssa := sample_def parent_other idx comps 32 |}.

Definition sample_load_const : nir_load_const_instr :=
  {| def := sample_def parent_other 7 1 32; value := [42] |}.

Definition sample_load_const64 : nir_load_const_instr :=
  {| def := sample_def parent_other 7 1 64; value := [42] |}.

Definition sample_load_const_vec2 : nir_load_const_instr :=
  {| def := sample_def parent_other 7 2 32; value := [42; 43] |}.

Definition sample_intrinsic (i : nir_intrinsic_op) (comps : Z)
    (srcs : list nir_src) (base component write_mask : Z)
  : nir_intrinsic_instr :=
  {| intrinsic := i; intr_dest := sample_dest 5 comps;
     intr_num_components := comps; intr_src := srcs;
     nir_intrinsic_base := base; nir_intrinsic_component := component;
     nir_intrinsic_write_mask := write_mask |}.

(** [load_interpolated_input] of 3 components at base 1, offset 2. *)
Definition sample_load_vary : nir_intrinsic_instr :=
  sample_intrinsic nir_intrinsic_load_interpolated_input 3
    [sample_barycentric nir_intrinsic_load_barycentric_pixel; sample_const 2]
    1 0 0.

Definition sample_load_vary_dynamic : nir_intrinsic_instr :=
  sample_intrinsic nir_intrinsic_load_interpolated_input 3
    [sample_barycentric nir_intrinsic_load_barycentric_pixel; sample_scalar]
    1 0 0.

Definition sample_load_vary_centroid : nir_intrinsic_instr :=
  sample_intrinsic nir_intrinsic_load_interpolated_input 3
    [sample_barycentric nir_intrinsic_load_barycentric_centroid; sample_const 2]
    1 0 0.

Definition sample_load_flat : nir_intrinsic_instr :=
  sample_intrinsic nir_intrinsic_load_input 3 [sample_const 2] 1 0 0.

(** [store_output] of a scalar at base 2, component 3, offset 1. *)
Definition sample_store (write_mask : Z) : nir_intrinsic_instr :=
  sample_intrinsic nir_intrinsic_store_output 1
    [sample_scalar; sample_const 1] 2 3 write_mask.

(** [store_output] of a vec4 to the variable at driver location 0. *)
Definition sample_store_color : nir_intrinsic_instr :=
  sample_intrinsic nir_intrinsic_store_output 4
    [sample_vec4; sample_const 0] 0 0 15.

Definition sample_barycentric_instr : nir_intrinsic_instr :=
  sample_intrinsic nir_intrinsic_load_barycentric_pixel 2 [] 0 0 0.

Definition sample_discard : nir_intrinsic_instr :=
  sample_intrinsic (nir_intrinsic_other 0) 0 [] 0 0 0.

Definition sample_out_var (location idx : Z) : nir_variable :=
  {| data_mode := nir_var_shader_out; data_location := location;
     data_index := idx; data_driver_location := 0 |}.

Definition sample_shader (st : gl_shader_stage) (vars : list nir_variable)
    (funcs : list nir_function) : nir_shader :=
  {| info_stage := st; variables := vars; functions := funcs |}.

Definition sample_key : agx_shader_key :=
  {| fs_tib_formats := fun rt => 100 + rt |}.

(** A context with one empty block and the counter at 10, and the builder
    after that block. *)
Definition sample_context (st : gl_shader_stage) (vars : list nir_variable)
  : agx_context :=
  {| nir := sample_shader st vars []; stage := st; key := Some sample_key;
     blocks := [agx_create_block]; alloc := 10 |}.

Definition sample_builder (st : gl_shader_stage) (vars : list nir_variable)
  : agx_builder :=
  agx_init_builder (sample_context st vars) (agx_after_block 0).

Definition sample_alu_src (s : nir_src) (neg : bool) (channel : Z) : nir_alu_src :=
  {| src := s; negate := neg; abs := false; swizzle := fun _ => channel |}.

Definition sample_alu (o : nir_op) (comps : Z) (srcs : list nir_alu_src)
  : nir_alu_instr :=
  {| op := o; alu_dest := {| dest := sample_dest 6 comps |}; alu_src := srcs |}.

(** [vec2] of a scalar and of channel 2 of a vec4. *)
Definition sample_vec2 : nir_alu_instr :=
  sample_alu nir_op_vec2 2
    [sample_alu_src sample_scalar false 0; sample_alu_src sample_vec4 false 2].

Definition sample_vec2_negated : nir_alu_instr :=
  sample_alu nir_op_vec2 2
    [sample_alu_src sample_scalar true 0; sample_alu_src sample_vec4 false 2].

Definition sample_fadd : nir_alu_instr :=
  sample_alu (nir_op_other 0) 1
    [sample_alu_src sample_scalar false 0; sample_alu_src sample_scalar false 0].

Definition sample_vec8 : nir_alu_instr :=
  sample_alu nir_op_vec8 8
    (replicate 8 (sample_alu_src sample_scalar false 0)).

(** A vertex shader of two blocks: a constant, then a constant and a
    store of an output. *)
Definition sample_bodies : list (list nir_instr) :=
  [ [nir_instr_type_load_const sample_load_const];
    [nir_instr_type_load_const sample_load_const;
     nir_instr_type_intrinsic (sample_store 1)] ].

Definition sample_vertex_shader : nir_shader :=
  sample_shader MESA_SHADER_VERTEX []
    [ {| impl := None |};
      {| impl := Some {| ssa_alloc := 8;
                         body := map nir_cf_node_block sample_bodies |} |} ].

(** The sample builder after [code] was appended to its block and the
    counter moved to [a]. *)
Definition sample_after (st : gl_shader_stage) (vars : list nir_variable)
    (code : list agx_instr) (a : Z) : agx_builder :=
  {| shader :=
       {| nir := sample_shader st vars []; stage := st; key := Some sample_key;
          blocks := [ {| instructions := code; predecessors := []; name := 0 |} ];
          alloc := a |};
     cursor := 0 |}.

(** A fragment shader whose only block stores a colour output. *)
Definition sample_fragment_shader : nir_shader :=
  sample_shader MESA_SHADER_FRAGMENT [sample_out_var 2 0]
    [ {| impl :=
           Some {| ssa_alloc := 8;
                   body := [nir_cf_node_block
                              [nir_instr_type_load_const sample_load_const;
                               nir_instr_type_intrinsic sample_store_color]] |} |} ].

(** The sample vertex shader followed by a function whose body the
    selector does not translate. *)
Definition sample_untranslated_function : nir_function :=
  {| impl := Some {| ssa_alloc := 3; body := [nir_cf_node_if] |} |}.

Definition sample_multi_shader : nir_shader :=
  sample_shader MESA_SHADER_VERTEX []
    (functions sample_vertex_shader ++ [sample_untranslated_function]).

(** A table of passes: one that drops the functions without a body and
    reports whether it dropped any, the others doing nothing. *)
Definition sample_idle : nir_pass := fun shader_nir => (false, shader_nir).

Definition has_body (func : nir_function) : bool :=
  match impl func with Some _ => true | None => false end.

Definition sample_dce : nir_pass :=
  fun shader_nir =>
    let kept := List.filter has_body (functions shader_nir) in
    if (length kept <? length (functions shader_nir))%nat
    then (true,
          {| info_stage := info_stage shader_nir;
             variables := variables shader_nir; functions := kept |})
    else (false, shader_nir).

Definition sample_passes : nir_passes :=
  {| nir_lower_regs_to_ssa := sample_idle;
     nir_lower_int64 := sample_idle;
     nir_lower_idiv := fun _ => sample_idle;
     nir_lower_alu_to_scalar := sample_idle;
     nir_lower_load_const_to_scalar := sample_idle;
     nir_lower_flrp := fun _ _ => sample_idle;
     nir_lower_var_copies := sample_idle;
     nir_lower_vars_to_ssa := sample_idle;
     nir_copy_prop := sample_idle;
     nir_opt_remove_phis := sample_idle;
     nir_opt_dce := sample_dce;
     nir_opt_dead_cf := sample_idle;
     nir_opt_cse := sample_idle;
     nir_opt_peephole_select := fun _ _ _ => sample_idle;
     nir_opt_algebraic := sample_idle;
     nir_opt_constant_folding := sample_idle;
     nir_opt_undef := sample_idle;
     nir_lower_undef_to_zero := sample_idle;
     nir_opt_loop_unroll := fun _ => sample_idle;
     nir_opt_algebraic_late := sample_idle;
     nir_opt_sink := fun _ => sample_idle;
     nir_opt_move := fun _ => sample_idle |}.

(** ** What the selector accepts

    The conditions under which each emitting function gets through its
    assertions and stubs, as decidable predicates: they read the
    instruction, the stage, the shader's variables and whether there is a
    key, and neither the counter nor the blocks. *)

Definition is_ok {A} (r : result A) : bool :=
  match r with Ok _ => true | Fatal _ _ => false end.

Definition is_some {A} (o : option A) : bool :=
  match o with Some _ => true | None => false end.

Definition load_const_accepted (instr : nir_load_const_instr) : bool :=
  (num_components (def instr) =? 1)
  && ((bit_size (def instr) =? 16) || (bit_size (def instr) =? 32))
  && is_some (value instr !! 0%nat).

Definition constant_offset (instr : nir_intrinsic_instr) : bool :=
  match nir_get_io_offset_src instr with
  | Some offset => nir_src_is_const offset
  | None => false
  end.

Definition load_vary_accepted (instr : nir_intrinsic_instr) : bool :=
  nir_intrinsic_op_eqb (intrinsic instr) nir_intrinsic_load_interpolated_input
  && match intr_src instr !! 0%nat with
     | Some s0 =>
         match nir_src_as_intrinsic s0 with
         | Some parent =>
             nir_intrinsic_op_eqb parent nir_intrinsic_load_barycentric_pixel
         | None => false
         end
     | None => false
     end
  && constant_offset instr.

Definition store_vary_accepted (instr : nir_intrinsic_instr) : bool :=
  constant_offset instr
  && (nir_intrinsic_write_mask instr =? 1)
  && is_some (intr_src instr !! 0%nat).

Definition fragment_out_accepted (ctx : agx_context)
    (instr : nir_intrinsic_instr) : bool :=
  match nir_find_variable_with_driver_location (nir ctx) nir_var_shader_out
          (to_unsigned (nir_intrinsic_base instr)) with
  | Some var => (data_index var =? 0) && location_supported var
  | None => false
  end
  && is_some (intr_src instr !! 0%nat)
  && is_some (key ctx).

Definition intrinsic_accepted (ctx : agx_context) (instr : nir_intrinsic_instr)
  : bool :=
  match intrinsic instr with
  | nir_intrinsic_load_barycentric_pixel
  | nir_intrinsic_load_barycentric_centroid
  | nir_intrinsic_load_barycentric_sample
  | nir_intrinsic_load_barycentric_at_sample
  | nir_intrinsic_load_barycentric_at_offset => true
  | nir_intrinsic_load_interpolated_input
  | nir_intrinsic_load_input =>
      match stage ctx with
      | MESA_SHADER_FRAGMENT => load_vary_accepted instr
      | _ => false
      end
  | nir_intrinsic_store_output =>
      match stage ctx with
      | MESA_SHADER_FRAGMENT => fragment_out_accepted ctx instr
      | MESA_SHADER_VERTEX => store_vary_accepted instr
      | _ => false
      end
  | nir_intrinsic_other _ => false
  end.

(** The [n]-th source of an ALU instruction with [srcs] declared inputs
    is there and accepted, or lies past the inputs. *)
Definition alu_src_accepted (instr : nir_alu_instr) (srcs : Z) (n : nat) : bool :=
  if srcs >? Z.of_nat n
  then match alu_src instr !! n with
       | Some s => src_legal s
       | None => false
       end
  else true.

Definition alu_accepted (instr : nir_alu_instr) : bool :=
  let srcs := to_unsigned (num_inputs (nir_op_infos (op instr))) in
  ((nir_dest_num_components (dest (alu_dest instr)) =? 1)
   || nir_op_is_vec (op instr))
  && bit_size_ok (nir_dest_bit_size (dest (alu_dest instr)))
  && alu_src_accepted instr srcs 0
  && alu_src_accepted instr srcs 1
  && alu_src_accepted instr srcs 2
  && alu_src_accepted instr srcs 3
  && is_vec234 (op instr).

Definition instr_accepted (ctx : agx_context) (instr : nir_instr) : bool :=
  match instr with
  | nir_instr_type_load_const i => load_const_accepted i
  | nir_instr_type_intrinsic i => intrinsic_accepted ctx i
  | nir_instr_type_alu i => alu_accepted i
  | _ => false
  end.

Definition cf_node_accepted (ctx : agx_context) (node : nir_cf_node) : bool :=
  match node with
  | nir_cf_node_block instrs => forallb (instr_accepted ctx) instrs
  | _ => false
  end.

(** ** Temporaries *)

(** The indices of the registers that the extracts of [code] define, in
    the order of the code. *)
Fixpoint temporaries (code : list agx_instr) : list Z :=
  match code with
  | [] => []
  | ins :: rest =>
      match i_op ins, i_dest ins with
      | AGX_OPCODE_P_EXTRACT, agx_get_index v _ => v :: temporaries rest
      | _, _ => temporaries rest
      end
  end.

(** [count] consecutive values of the counter from [a], as the
    [unsigned] increments produce them. *)
Definition counted_from (a : Z) (count : nat) : list Z :=
  map (fun i => to_unsigned (a + Z.of_nat i)) (seq 0 count).

(** ** The function the driver walks *)

(** The body of the first function that has one. *)
Fixpoint first_body (funcs : list nir_function) : option nir_function_impl :=
  match funcs with
  | [] => None
  | func :: rest =>
      match impl func with
      | Some i => Some i
      | None => first_body rest
      end
  end.

(** The context [agx_compile_shader_nir] starts from, with the counter
    at [a]. *)
Definition initial_context (shader_nir : nir_shader) (a : Z) : agx_context :=
  {| nir := shader_nir; stage := info_stage shader_nir; key := None;
     blocks := []; alloc := a |}.

(** ** Passes *)

(** A pass that reports no progress has left the shader as it was. *)
Definition honest (pass : nir_pass) : Prop :=
  forall shader_nir shader_nir',
    pass shader_nir = (false, shader_nir') -> shader_nir' = shader_nir.

(** The passes [agx_optimize_nir] runs after the loop, in order. *)
Definition late_passes (P : nir_passes) : list nir_pass :=
  [ nir_opt_algebraic_late P;
    nir_opt_constant_folding P;
    nir_copy_prop P;
    nir_opt_dce P;
    nir_opt_cse P;
    nir_lower_alu_to_scalar P;
    nir_lower_load_const_to_scalar P;
    nir_opt_sink P
      [nir_move_const_undef; nir_move_load_ubo; nir_move_load_input;
       nir_move_comparisons; nir_move_copies; nir_move_load_ssbo];
    nir_opt_move P
      [nir_move_const_undef; nir_move_load_ubo; nir_move_load_input;
       nir_move_comparisons; nir_move_copies; nir_move_load_ssbo] ].

(** The passes before the loop, in order. *)
Definition early_passes (P : nir_passes) : list nir_pass :=
  [ nir_lower_regs_to_ssa P;
    nir_lower_int64 P;
    nir_lower_idiv P {| imprecise_32bit_lowering := false; allow_fp16 := true |};
    nir_lower_alu_to_scalar P;
    nir_lower_load_const_to_scalar P;
    nir_lower_flrp P (Z.lor 16 (Z.lor 32 64)) false ].

Definition run_passes (passes : list nir_pass) (shader_nir : nir_shader)
  : nir_shader :=
  fold_left (fun n pass => NIR_PASS_V pass n) passes shader_nir.

(** Entering [agx_emit_intrinsic] for a known intrinsic at a known
    stage. *)
Ltac enter_intrinsic Hi Hst :=
  unfold agx_emit_intrinsic, bind, get_shader; rewrite Hi, Hst.

(** * Properties *)

(** ** The builder's primitives *)

Lemma grow_lookup b blk new a :
  blocks (shader b) !! cursor b = Some blk ->
  blocks (shader (grow b blk new a)) !! cursor (grow b blk new a)
  = Some (set_instructions blk (instructions blk ++ new)).
Proof.
  intros Hb. cbn. apply list_lookup_insert_eq.
  by eapply lookup_lt_Some.
Qed.

Lemma grow_grow b blk n1 a1 n2 a2 :
  grow (grow b blk n1 a1) (set_instructions blk (instructions blk ++ n1)) n2 a2
  = grow b blk (n1 ++ n2) a2.
Proof.
  unfold grow. cbn. rewrite list_insert_insert_eq.
  unfold set_instructions. cbn. by rewrite app_assoc.
Qed.

Lemma alloc_grow b blk new a : alloc (shader (grow b blk new a)) = a.
Proof. reflexivity. Qed.

Lemma key_grow b blk new a : key (shader (grow b blk new a)) = key (shader b).
Proof. reflexivity. Qed.

Lemma stage_grow b blk new a : stage (shader (grow b blk new a)) = stage (shader b).
Proof. reflexivity. Qed.

Lemma nir_grow b blk new a : nir (shader (grow b blk new a)) = nir (shader b).
Proof. reflexivity. Qed.

Lemma cursor_grow b blk new a : cursor (grow b blk new a) = cursor b.
Proof. reflexivity. Qed.

Lemma grow_nil b blk :
  blocks (shader b) !! cursor b = Some blk ->
  grow b blk [] (alloc (shader b)) = b.
Proof.
  intros Hb. destruct b as [[n s k bs a] c]. unfold grow. cbn in *.
  rewrite app_nil_r. f_equal. unfold set_alloc, set_blocks. cbn. f_equal.
  destruct blk. by apply list_insert_id.
Qed.

Lemma grow_nil_alloc b blk a :
  blocks (shader b) !! cursor b = Some blk ->
  grow b blk [] a = {| shader := set_alloc (shader b) a; cursor := cursor b |}.
Proof.
  intros Hb. destruct b as [[n s k bs a0] c]. unfold grow. cbn in *.
  rewrite app_nil_r. f_equal. unfold set_alloc, set_blocks. cbn. f_equal.
  destruct blk. by apply list_insert_id.
Qed.

Lemma agx_builder_insert_run ins b blk :
  blocks (shader b) !! cursor b = Some blk ->
  agx_builder_insert ins b
  = Ok ({| in_block := cursor b; at_pos := length (instructions blk) |},
        grow b blk [ins] (alloc (shader b))).
Proof. intros Hb. unfold agx_builder_insert. by rewrite Hb. Qed.

Lemma agx_builder_insert_wild ins b :
  blocks (shader b) !! cursor b = None ->
  agx_builder_insert ins b = Fatal "" (invalid_pointer "cursor").
Proof. intros Hb. unfold agx_builder_insert. by rewrite Hb. Qed.

(** Setting the mask through the pointer a builder call returned is
    inserting the instruction with that mask. *)
Lemma insert_store_mask ins m b blk :
  blocks (shader b) !! cursor b = Some blk ->
  bind (agx_builder_insert ins) (fun ld => store_mask ld m) b
  = Ok (tt, grow b blk [set_mask ins m] (alloc (shader b))).
Proof.
  intros Hb. unfold bind. rewrite (agx_builder_insert_run _ _ _ Hb).
  unfold store_mask. cbn [in_block at_pos].
  pose proof (lookup_lt_Some _ _ _ Hb) as Hlt.
  change (blocks (shader (grow b blk [ins] (alloc (shader b)))))
    with (<[cursor b := set_instructions blk (instructions blk ++ [ins])]>
            (blocks (shader b))).
  rewrite list_lookup_insert_eq by done. cbn [instructions set_instructions].
  rewrite lookup_app_r by done. rewrite Nat.sub_diag. cbn.
  unfold grow. cbn. do 3 f_equal. rewrite list_insert_insert_eq.
  f_equal. unfold set_instructions. cbn. f_equal.
  rewrite insert_app_r_alt by done. by rewrite Nat.sub_diag.
Qed.

(** ** Constant loads *)

Lemma nir_const_value_as_uint_range v w :
  0 <= w -> 0 <= nir_const_value_as_uint v w < 2 ^ w.
Proof. intros Hw. unfold nir_const_value_as_uint. apply Z.mod_pos_bound. lia. Qed.

(** C5.  A constant load of one component and of bit width 16 or 32
    appends to the current block exactly one move-immediate whose
    destination is the virtual register of the loaded value and whose
    immediate is the constant's bit pattern at that width (its low
    [bit_size] bits); nothing else changes.  A load of any other width, in
    particular 64, or of a component count other than one, in particular
    more than one, aborts. *)
Theorem agx_emit_load_const_spec (b : agx_builder) (instr : nir_load_const_instr) :
  (forall blk v rest,
      blocks (shader b) !! cursor b = Some blk ->
      value instr = v :: rest ->
      num_components (def instr) = 1 ->
      bit_size (def instr) = 16 \/ bit_size (def instr) = 32 ->
      agx_emit_load_const instr b
      = Ok (tt, grow b blk
                  [mk_instr AGX_OPCODE_MOV_IMM
                     (agx_get_index (index (def instr))
                        (agx_size_for_bits (bit_size (def instr))))
                     [] (v mod 2 ^ bit_size (def instr)) 0]
                  (alloc (shader b))))
  /\ (bit_size (def instr) <> 16 -> bit_size (def instr) <> 32 ->
      is_fatal (agx_emit_load_const instr b))
  /\ (bit_size (def instr) = 64 -> is_fatal (agx_emit_load_const instr b))
  /\ (num_components (def instr) <> 1 ->
      is_fatal (agx_emit_load_const instr b))
  /\ (num_components (def instr) > 1 ->
      is_fatal (agx_emit_load_const instr b)).
Proof.
  assert (Hcomps : num_components (def instr) <> 1 ->
                   is_fatal (agx_emit_load_const instr b)).
  { intros Hn. unfold agx_emit_load_const, bind, assert.
    apply Z.eqb_neq in Hn. by rewrite Hn. }
  assert (Hbits : bit_size (def instr) <> 16 -> bit_size (def instr) <> 32 ->
                  is_fatal (agx_emit_load_const instr b)).
  { intros H16 H32. unfold agx_emit_load_const, bind, assert.
    destruct (num_components (def instr) =? 1); [|done].
    apply Z.eqb_neq in H16, H32. by rewrite H16, H32. }
  split; [|split; [|split; [|split]]]; auto.
  - intros blk v rest Hb Hv Hn Hw.
    unfold agx_emit_load_const, bind, assert, array_read, agx_mov_imm_to, ret.
    rewrite Hn, Hv. cbn [Z.eqb Pos.eqb lookup list_lookup].
    assert ((bit_size (def instr) =? 16) || (bit_size (def instr) =? 32) = true)
      as -> by (destruct Hw as [-> | ->]; reflexivity).
    cbn. by rewrite (agx_builder_insert_run _ _ _ Hb).
  - intros H64. apply Hbits; lia.
  - intros Hgt. apply Hcomps. lia.
Qed.

(** ** Arithmetic of immediate indices *)

Lemma to_unsigned_range z : 0 <= to_unsigned z < 2 ^ 32.
Proof. unfold to_unsigned. apply Z.mod_pos_bound. lia. Qed.

Lemma to_unsigned_small z : 0 <= z < 2 ^ 32 -> to_unsigned z = z.
Proof. unfold to_unsigned. apply Z.mod_small. Qed.

Lemma to_unsigned_to_uint64 z : to_unsigned (to_uint64 z) = to_unsigned z.
Proof.
  unfold to_unsigned, to_uint64. apply Z.mod_mod_divide.
  exists (2 ^ 32). reflexivity.
Qed.

Lemma to_unsigned_add_l x y : to_unsigned (to_unsigned x + y) = to_unsigned (x + y).
Proof. unfold to_unsigned. apply Zplus_mod_idemp_l. Qed.

(** The three steps of [agx_emit_store_vary] amount to one reduction. *)
Lemma store_vary_index base comp off :
  to_unsigned (to_uint64 (to_unsigned (to_unsigned (4 * base) + comp) + off))
  = to_unsigned (4 * base + comp + off).
Proof.
  rewrite to_unsigned_to_uint64, to_unsigned_add_l.
  rewrite <- Z.add_assoc, to_unsigned_add_l. by rewrite Z.add_assoc.
Qed.

Lemma BITFIELD_MASK_low c : 0 <= c < 32 -> BITFIELD_MASK c = Z.ones c.
Proof.
  intros Hc. unfold BITFIELD_MASK.
  destruct (Z.eqb_spec c 32) as [->|_]; [lia|].
  rewrite Z.shiftl_1_l, Z.ones_equiv, <- Z.sub_1_r.
  apply to_unsigned_small.
  assert (0 < 2 ^ c) by (apply Z.pow_pos_nonneg; lia).
  assert (2 ^ c < 2 ^ 32) by (apply Z.pow_lt_mono_r; lia).
  lia.
Qed.

(** Exactly the [c] lowest bits of the mask are set. *)
Lemma BITFIELD_MASK_testbit c n :
  0 <= c < 32 -> 0 <= n ->
  Z.testbit (BITFIELD_MASK c) n = (n <? c).
Proof.
  intros Hc Hn. rewrite BITFIELD_MASK_low by done.
  destruct (Z.ltb_spec n c).
  - apply Z.ones_spec_low. lia.
  - apply Z.ones_spec_high. lia.
Qed.

(** ** Stores of vertex outputs *)

Lemma agx_emit_store_vary_eq instr b :
  agx_emit_store_vary instr b
  = match nir_get_io_offset_src instr with
    | None => Fatal "" (invalid_pointer "offset")
    | Some offset =>
        if negb (nir_src_is_const offset)
        then Fatal "" (assert_fail "nir_src_is_const(*offset) && todo: indirects")
        else if negb (nir_intrinsic_write_mask instr =? 1)
        then Fatal "" (assert_fail "nir_intrinsic_write_mask(instr) == 0x1")
        else match intr_src instr !! 0%nat with
             | None => Fatal "" (invalid_pointer "instr->src[0]")
             | Some s0 =>
                 match blocks (shader b) !! cursor b with
                 | None => Fatal "" (invalid_pointer "cursor")
                 | Some blk =>
                     Ok (tt, grow b blk [st_vary_instr instr offset s0]
                               (alloc (shader b)))
                 end
             end
    end.
Proof.
  unfold agx_emit_store_vary, bind, deref, assert, array_read, agx_st_vary, ret.
  destruct (nir_get_io_offset_src instr) as [offset|]; [|done].
  destruct (nir_src_is_const offset); [|done]. cbn [negb].
  destruct (nir_intrinsic_write_mask instr =? 1); [|done]. cbn [negb].
  destruct (intr_src instr !! 0%nat) as [s0|]; [|done].
  destruct (blocks (shader b) !! cursor b) as [blk|] eqn:Hb.
  - rewrite (agx_builder_insert_run _ _ _ Hb).
    unfold st_vary_instr. by rewrite store_vary_index.
  - by rewrite (agx_builder_insert_wild _ _ Hb).
Qed.

(** C4.  At the vertex stage, a store of an output whose offset operand is
    a compile-time constant [o], with base [b] and component [comp], and
    whose write mask is [0b1] appends exactly one store-varying
    instruction; its first operand is the immediate [4*b + comp + o],
    computed as the code does in [unsigned] arithmetic (modulo 2^32, so
    the sum itself whenever it fits), its second is the stored value.
    Any other write mask aborts. *)
Theorem agx_emit_store_vary_spec (b : agx_builder) (instr : nir_intrinsic_instr) :
  (forall blk offset s0,
      stage (shader b) = MESA_SHADER_VERTEX ->
      intrinsic instr = nir_intrinsic_store_output ->
      blocks (shader b) !! cursor b = Some blk ->
      nir_get_io_offset_src instr = Some offset ->
      nir_src_is_const offset = true ->
      intr_src instr !! 0%nat = Some s0 ->
      nir_intrinsic_write_mask instr = 1 ->
      let sum := 4 * nir_intrinsic_base instr + nir_intrinsic_component instr
                 + nir_src_as_uint offset in
      agx_emit_intrinsic instr b
      = Ok (tt, grow b blk
                  [mk_instr AGX_OPCODE_ST_VARY agx_null
                     [agx_immediate (sum mod 2 ^ 32); agx_src_index s0] 0 0]
                  (alloc (shader b)))
      /\ (0 <= sum < 2 ^ 32 -> sum mod 2 ^ 32 = sum))
  /\ (stage (shader b) = MESA_SHADER_VERTEX ->
      intrinsic instr = nir_intrinsic_store_output ->
      nir_intrinsic_write_mask instr <> 1 ->
      is_fatal (agx_emit_intrinsic instr b)).
Proof.
  split.
  - intros blk offset s0 Hst Hi Hb Hoff Hc Hs0 Hm sum. split.
    + enter_intrinsic Hi Hst.
      rewrite agx_emit_store_vary_eq, Hoff, Hc, Hm, Hs0, Hb. reflexivity.
    + apply Z.mod_small.
  - intros Hst Hi Hm.
    enter_intrinsic Hi Hst.
    rewrite agx_emit_store_vary_eq.
    destruct (nir_get_io_offset_src instr) as [offset|]; [|done].
    destruct (nir_src_is_const offset); [|done].
    apply Z.eqb_neq in Hm. by rewrite Hm.
Qed.

(** ** Loads of fragment inputs *)

Lemma agx_emit_load_vary_eq instr b :
  agx_emit_load_vary instr b
  = if negb (nir_intrinsic_op_eqb (intrinsic instr)
               nir_intrinsic_load_interpolated_input)
    then Fatal "" (unreachable_reached "todo: flat varyings")
    else
      match intr_src instr !! 0%nat with
      | None => Fatal "" (invalid_pointer "instr->src[0]")
      | Some s0 =>
          match nir_src_as_intrinsic s0 with
          | None => Fatal "" (assert_fail "parent")
          | Some parent =>
              if negb (nir_intrinsic_op_eqb parent
                         nir_intrinsic_load_barycentric_pixel)
              then Fatal "" (assert_fail
                     "parent->intrinsic == nir_intrinsic_load_barycentric_pixel")
              else
                match nir_get_io_offset_src instr with
                | None => Fatal "" (invalid_pointer "offset")
                | Some offset =>
                    if negb (nir_src_is_const offset)
                    then Fatal "" (assert_fail
                           "nir_src_is_const(*offset) && todo: indirects")
                    else
                      match blocks (shader b) !! cursor b with
                      | None => Fatal "" (invalid_pointer "cursor")
                      | Some blk =>
                          Ok (tt, grow b blk [ld_vary_instr instr offset]
                                    (alloc (shader b)))
                      end
                end
          end
      end.
Proof.
  unfold agx_emit_load_vary.
  unfold bind at 1.
  destruct (nir_intrinsic_op_eqb (intrinsic instr) _); [|done]. cbn [negb].
  unfold bind at 1, array_read.
  destruct (intr_src instr !! 0%nat) as [s0|]; [|done].
  destruct (nir_src_as_intrinsic s0) as [parent|]; [|done].
  unfold assert at 1.
  destruct (nir_intrinsic_op_eqb parent _); [|done]. cbn [negb].
  unfold bind at 1, deref.
  destruct (nir_get_io_offset_src instr) as [offset|]; [|done].
  unfold bind at 1, assert.
  destruct (nir_src_is_const offset); [|done]. cbn [negb].
  unfold agx_ld_vary_to, ld_vary_instr. rewrite to_unsigned_to_uint64.
  destruct (blocks (shader b) !! cursor b) as [blk|] eqn:Hb.
  - destruct (intr_num_components instr =? 4); cbn [negb].
    + unfold bind, ret. by rewrite (agx_builder_insert_run _ _ _ Hb).
    + by rewrite (insert_store_mask _ _ _ _ Hb).
  - unfold bind. by rewrite (agx_builder_insert_wild _ _ Hb).
Qed.

Lemma nir_intrinsic_op_eqb_eq x y : nir_intrinsic_op_eqb x y = true <-> x = y.
Proof.
  split.
  - destruct x, y; cbn; try done. intros ->%N.eqb_eq. done.
  - intros ->. destruct y; cbn; try done. apply N.eqb_refl.
Qed.

(** C3.  At the fragment stage, a load of an interpolated input whose
    barycentric source is [load_barycentric_pixel] and whose offset
    operand is a compile-time constant [o], with base [b] and [c]
    components, appends exactly one load-varying instruction; its operand
    is the immediate [b + o], computed as the code does in [unsigned]
    arithmetic (modulo 2^32, so the sum itself whenever it fits); when
    [c < 4] its write mask has its [c] lowest bits set and no other.  An
    offset that is not a constant aborts, and so do a flat input
    ([load_input]) and a barycentric source other than
    [load_barycentric_pixel]. *)
Theorem agx_emit_load_vary_spec (b : agx_builder) (instr : nir_intrinsic_instr) :
  (forall blk s0 offset,
      stage (shader b) = MESA_SHADER_FRAGMENT ->
      intrinsic instr = nir_intrinsic_load_interpolated_input ->
      intr_src instr !! 0%nat = Some s0 ->
      nir_src_as_intrinsic s0 = Some nir_intrinsic_load_barycentric_pixel ->
      nir_get_io_offset_src instr = Some offset ->
      nir_src_is_const offset = true ->
      blocks (shader b) !! cursor b = Some blk ->
      let sum := nir_intrinsic_base instr + nir_src_as_uint offset in
      let c := intr_num_components instr in
      let ld := ld_vary_instr instr offset in
        agx_emit_intrinsic instr b
        = Ok (tt, grow b blk [ld] (alloc (shader b)))
        /\ i_op ld = AGX_OPCODE_LD_VARY
        /\ i_dest ld = agx_dest_index (intr_dest instr)
        /\ i_src ld = [agx_immediate (sum mod 2 ^ 32)]
        /\ (0 <= sum < 2 ^ 32 -> i_src ld = [agx_immediate sum])
        /\ (0 <= c < 4 ->
            i_mask ld = Z.ones c
            /\ forall n, 0 <= n -> Z.testbit (i_mask ld) n = (n <? c)))
  /\ (forall offset,
      stage (shader b) = MESA_SHADER_FRAGMENT ->
      intrinsic instr = nir_intrinsic_load_interpolated_input ->
      nir_get_io_offset_src instr = Some offset ->
      nir_src_is_const offset = false ->
      is_fatal (agx_emit_intrinsic instr b))
  /\ (stage (shader b) = MESA_SHADER_FRAGMENT ->
      intrinsic instr = nir_intrinsic_load_input ->
      is_fatal (agx_emit_intrinsic instr b))
  /\ (forall s0,
      stage (shader b) = MESA_SHADER_FRAGMENT ->
      intrinsic instr = nir_intrinsic_load_interpolated_input ->
      intr_src instr !! 0%nat = Some s0 ->
      nir_src_as_intrinsic s0 <> Some nir_intrinsic_load_barycentric_pixel ->
      is_fatal (agx_emit_intrinsic instr b)).
Proof.
  split; [|split; [|split]].
  - intros blk s0 offset Hst Hi Hs0 Hp Hoff Hc Hb sum c ld. subst ld.
    split; [|split; [|split; [|split; [|split]]]].
    + enter_intrinsic Hi Hst.
      rewrite agx_emit_load_vary_eq, Hi, Hs0, Hp, Hoff, Hc, Hb. reflexivity.
    + unfold ld_vary_instr. by destruct (_ =? 4).
    + unfold ld_vary_instr. by destruct (_ =? 4).
    + unfold ld_vary_instr. by destruct (_ =? 4).
    + intros Hsum. unfold ld_vary_instr.
      destruct (_ =? 4); cbn; by rewrite to_unsigned_small.
    + intros Hlt. unfold ld_vary_instr.
      destruct (Z.eqb_spec (intr_num_components instr) 4) as [E|_];
        [subst c; lia|]. cbn. split.
      * apply BITFIELD_MASK_low. subst c. lia.
      * intros n Hn. apply BITFIELD_MASK_testbit; subst c; lia.
  - intros offset Hst Hi Hoff Hc.
    enter_intrinsic Hi Hst.
    rewrite agx_emit_load_vary_eq, Hi. cbn [nir_intrinsic_op_eqb negb].
    destruct (intr_src instr !! 0%nat) as [s0|]; [|done].
    destruct (nir_src_as_intrinsic s0) as [parent|]; [|done].
    destruct (nir_intrinsic_op_eqb parent _); [|done]. cbn [negb].
    by rewrite Hoff, Hc.
  - intros Hst Hi.
    enter_intrinsic Hi Hst.
    by rewrite agx_emit_load_vary_eq, Hi.
  - intros s0 Hst Hi Hs0 Hp.
    enter_intrinsic Hi Hst.
    rewrite agx_emit_load_vary_eq, Hi, Hs0. cbn [nir_intrinsic_op_eqb negb].
    destruct (nir_src_as_intrinsic s0) as [parent|]; [|done].
    destruct (nir_intrinsic_op_eqb parent _) eqn:E; [|done].
    apply nir_intrinsic_op_eqb_eq in E. by subst.
Qed.

(** ** Stores of fragment outputs *)

Lemma location_supported_render_target var :
  location_supported var = true -> render_target var = 0.
Proof.
  unfold location_supported, render_target. cbn zeta.
  destruct (Z.eqb_spec (to_unsigned (data_location var))
              (to_unsigned FRAG_RESULT_COLOR)) as [_|_]; [done|].
  cbn [orb]. intros ->%Z.eqb_eq. unfold to_unsigned.
  rewrite Zminus_mod_idemp_l, Z.sub_diag. reflexivity.
Qed.

Lemma agx_emit_fragment_out_eq instr b :
  agx_emit_fragment_out instr b
  = match nir_find_variable_with_driver_location (nir (shader b))
            nir_var_shader_out (to_unsigned (nir_intrinsic_base instr)) with
    | None => Fatal "" (assert_fail "var")
    | Some var =>
        if negb (data_index var =? 0)
        then Fatal "" (assert_fail
               "var->data.index == 0 && todo: dual-source blending")
        else if negb (location_supported var)
        then Fatal "" (assert_fail
               "(loc == FRAG_RESULT_COLOR || loc == FRAG_RESULT_DATA0) && todo: MRT")
        else
          match blocks (shader b) !! cursor b with
          | None => Fatal "" (invalid_pointer "cursor")
          | Some blk =>
              match intr_src instr !! 0%nat with
              | None => Fatal "" (invalid_pointer "instr->src[0]")
              | Some s0 =>
                  match key (shader b) with
                  | None => Fatal "" (invalid_pointer "b->shader->key")
                  | Some k =>
                      Ok (tt, grow b blk (fragment_out_instrs s0 k 0)
                                (alloc (shader b)))
                  end
              end
          end
    end.
Proof.
  unfold agx_emit_fragment_out. unfold bind at 1, get_shader.
  destruct (nir_find_variable_with_driver_location _ _ _) as [var|]; [|done].
  unfold bind at 1, assert at 1.
  destruct (data_index var =? 0); [|done]. cbn [negb].
  unfold bind at 1, assert at 1.
  fold (location_supported var). fold (render_target var).
  destruct (location_supported var) eqn:Hloc; [|done]. cbn [negb].
  rewrite (location_supported_render_target _ Hloc).
  unfold agx_writeout, agx_blend, array_read, deref, ret.
  destruct (blocks (shader b) !! cursor b) as [blk|] eqn:Hb.
  - unfold bind at 1. rewrite (agx_builder_insert_run _ _ _ Hb).
    unfold bind at 1.
    rewrite (agx_builder_insert_run _ _ _ (grow_lookup _ _ _ _ Hb)).
    rewrite grow_grow.
    unfold bind at 1.
    destruct (intr_src instr !! 0%nat) as [s0|]; [|done].
    unfold bind at 1.
    destruct (key (shader b)) as [k|]; [|done].
    unfold bind.
    rewrite (agx_builder_insert_run _ _ _ (grow_lookup _ _ _ _ Hb)).
    by rewrite alloc_grow, grow_grow.
  - unfold bind. by rewrite (agx_builder_insert_wild _ _ Hb).
Qed.

(** C1 (as amended).  At the fragment stage, a store of an output whose
    variable has dual-source index 0 and sits at the implicit colour
    location or at the explicit data-0 location resolves to render
    target 0 and appends exactly, in this order, a writeout with
    immediate 0xC200, a writeout with immediate 0x000C and one blend
    that carries the stored value and the key's format of render target
    0.  A variable whose resolved render target is 1 or more aborts, and
    so does a variable whose dual-source index is not 0. *)
Theorem agx_emit_fragment_out_spec (b : agx_builder) (instr : nir_intrinsic_instr) :
  (forall blk var s0 k,
      stage (shader b) = MESA_SHADER_FRAGMENT ->
      intrinsic instr = nir_intrinsic_store_output ->
      nir_find_variable_with_driver_location (nir (shader b))
        nir_var_shader_out (to_unsigned (nir_intrinsic_base instr)) = Some var ->
      data_index var = 0 ->
      to_unsigned (data_location var) = to_unsigned FRAG_RESULT_COLOR
      \/ to_unsigned (data_location var) = to_unsigned FRAG_RESULT_DATA0 ->
      blocks (shader b) !! cursor b = Some blk ->
      intr_src instr !! 0%nat = Some s0 ->
      key (shader b) = Some k ->
      render_target var = 0
      /\ agx_emit_intrinsic instr b
         = Ok (tt, grow b blk
                     [mk_instr AGX_OPCODE_WRITEOUT agx_null [] 0xC200 0;
                      mk_instr AGX_OPCODE_WRITEOUT agx_null [] 0x000C 0;
                      mk_instr AGX_OPCODE_BLEND agx_null [agx_src_index s0] 0
                        (fs_tib_formats k 0)]
                     (alloc (shader b))))
  /\ (forall var,
      stage (shader b) = MESA_SHADER_FRAGMENT ->
      intrinsic instr = nir_intrinsic_store_output ->
      nir_find_variable_with_driver_location (nir (shader b))
        nir_var_shader_out (to_unsigned (nir_intrinsic_base instr)) = Some var ->
      1 <= render_target var ->
      is_fatal (agx_emit_intrinsic instr b))
  /\ (forall var,
      stage (shader b) = MESA_SHADER_FRAGMENT ->
      intrinsic instr = nir_intrinsic_store_output ->
      nir_find_variable_with_driver_location (nir (shader b))
        nir_var_shader_out (to_unsigned (nir_intrinsic_base instr)) = Some var ->
      data_index var <> 0 ->
      is_fatal (agx_emit_intrinsic instr b)).
Proof.
  split; [|split].
  - intros blk var s0 k Hst Hi Hvar Hidx Hloc Hb Hs0 Hk.
    assert (location_supported var = true) as Hsup.
    { unfold location_supported. cbn zeta.
      destruct Hloc as [-> | ->]; rewrite Z.eqb_refl; [done|apply orb_true_r]. }
    split; [by apply location_supported_render_target|].
    enter_intrinsic Hi Hst.
    rewrite agx_emit_fragment_out_eq, Hvar, Hidx, Hsup, Hb, Hs0, Hk.
    reflexivity.
  - intros var Hst Hi Hvar Hrt.
    enter_intrinsic Hi Hst.
    rewrite agx_emit_fragment_out_eq, Hvar.
    destruct (data_index var =? 0); [|done]. cbn [negb].
    destruct (location_supported var) eqn:Hsup; [|done].
    apply location_supported_render_target in Hsup. lia.
  - intros var Hst Hi Hvar Hidx.
    enter_intrinsic Hi Hst.
    rewrite agx_emit_fragment_out_eq, Hvar.
    apply Z.eqb_neq in Hidx. by rewrite Hidx.
Qed.

(** ** The dispatch on the intrinsic *)

Lemma grow_blocks_neq b blk new a :
  blocks (shader b) !! cursor b = Some blk ->
  new <> [] ->
  blocks (shader (grow b blk new a)) <> blocks (shader b).
Proof.
  intros Hb Hnew Heq.
  pose proof (grow_lookup b blk new a Hb) as Hl.
  rewrite cursor_grow, Heq, Hb in Hl.
  injection Hl as Hl. apply (f_equal instructions) in Hl. cbn in Hl.
  apply (f_equal length) in Hl. rewrite length_app in Hl.
  destruct new; [done|]. cbn in Hl. lia.
Qed.

(** C10.  Each of the five barycentric loads is accepted and emits
    nothing: the builder, and with it the current block's instruction
    list, is returned as it was. *)
Theorem agx_emit_intrinsic_barycentric (b : agx_builder) (instr : nir_intrinsic_instr) :
  is_barycentric (intrinsic instr) = true ->
  agx_emit_intrinsic instr b = Ok (tt, b)
  /\ agx_emit_instr (nir_instr_type_intrinsic instr) b = Ok (tt, b)
  /\ forall b', agx_emit_instr (nir_instr_type_intrinsic instr) b = Ok (tt, b') ->
       blocks (shader b') !! cursor b' = blocks (shader b) !! cursor b.
Proof.
  intros Hbary.
  assert (agx_emit_intrinsic instr b = Ok (tt, b)) as H.
  { unfold agx_emit_intrinsic, bind, get_shader, ret.
    by destruct (intrinsic instr). }
  split; [done|]. split; [done|].
  intros b'. cbn [agx_emit_instr]. rewrite H. by intros [= <-].
Qed.

(** C2 (as amended).  An intrinsic that is neither one of the handled
    cases (interpolated or flat input load, output store) nor one of the
    five barycentric loads aborts after printing a diagnostic that names
    it.  The barycentric loads are the only intrinsics that are accepted
    without anything being emitted. *)
Theorem agx_emit_intrinsic_unhandled (b : agx_builder) (instr : nir_intrinsic_instr) :
  (handled_case (intrinsic instr) = false ->
   is_barycentric (intrinsic instr) = false ->
   agx_emit_intrinsic instr b
   = Fatal ("Unhandled intrinsic "
              +:+ info_name (nir_intrinsic_infos (intrinsic instr)) +:+ newline)
           (assert_fail "0"))
  /\ (forall b',
       agx_emit_intrinsic instr b = Ok (tt, b') ->
       blocks (shader b') = blocks (shader b) ->
       is_barycentric (intrinsic instr) = true).
Proof.
  split.
  - intros Hh Hb. unfold agx_emit_intrinsic, bind, get_shader, fprintf_then.
    by destruct (intrinsic instr).
  - intros b'. unfold agx_emit_intrinsic, bind, get_shader, fprintf_then.
    destruct (intrinsic instr) eqn:Hi; cbn [is_barycentric]; try done.
    + destruct (stage (shader b)); try done.
      rewrite agx_emit_load_vary_eq, Hi. cbn [nir_intrinsic_op_eqb negb].
      repeat case_match; try done.
      intros [= <-] Heq. by eapply grow_blocks_neq in Heq.
    + destruct (stage (shader b)); try done.
      by rewrite agx_emit_load_vary_eq, Hi.
    + destruct (stage (shader b)); try done.
      * rewrite agx_emit_store_vary_eq. repeat case_match; try done.
        intros [= <-] Heq. by eapply grow_blocks_neq in Heq.
      * rewrite agx_emit_fragment_out_eq. repeat case_match; try done.
        intros [= <-] Heq. by eapply grow_blocks_neq in Heq.
Qed.

(** ** ALU instructions *)

Lemma agx_alu_src_index_fatal s b :
  src_legal s = false -> is_fatal (agx_alu_src_index s b).
Proof.
  unfold src_legal, bit_size_ok, has_modifier, agx_alu_src_index, bind, assert.
  intros H.
  destruct ((_ =? 16) || (_ =? 32) || (_ =? 64)); [|done].
  destruct (negb (negate s || abs s)); [|done].
  destruct (swizzle s 0%nat <? _); [|done]. done.
Qed.

Lemma agx_alu_src_index_modifier s b :
  has_modifier s = true -> is_fatal (agx_alu_src_index s b).
Proof.
  intros H. apply agx_alu_src_index_fatal. unfold src_legal.
  rewrite H. cbn. by rewrite andb_false_r.
Qed.

Lemma agx_alu_src_index_run s b blk :
  blocks (shader b) !! cursor b = Some blk ->
  src_legal s = true ->
  agx_alu_src_index s b
  = let '(c, o, a1) := lower_src s (alloc (shader b)) in
    Ok (o, grow b blk c a1).
Proof.
  intros Hb Hl. unfold src_legal, bit_size_ok, has_modifier in Hl.
  apply andb_true_iff in Hl as [Hl H3]. apply andb_true_iff in Hl as [H1 H2].
  unfold agx_alu_src_index, bind, assert, lower_src, multi_component.
  rewrite H1, H2, H3.
  destruct (nir_src_num_components (src s) >? 1).
  - unfold agx_p_extract, bind, agx_temp, agx_p_extract_to, ret.
    match goal with
    | |- context [agx_builder_insert ?i ?bb] =>
        rewrite (agx_builder_insert_run i bb blk Hb)
    end.
    reflexivity.
  - unfold ret. by rewrite grow_nil.
Qed.

Lemma alu_src_or_null_run instr srcs n b blk c o a1 :
  blocks (shader b) !! cursor b = Some blk ->
  lower_nth instr srcs n (alloc (shader b)) = Some (c, o, a1) ->
  alu_src_or_null instr srcs n b = Ok (o, grow b blk c a1).
Proof.
  intros Hb. unfold lower_nth, alu_src_or_null.
  destruct (srcs >? Z.of_nat n).
  - unfold bind, array_read.
    destruct (alu_src instr !! n) as [s|]; [|done].
    destruct (src_legal s) eqn:Hl; [|done].
    rewrite (agx_alu_src_index_run _ _ _ Hb Hl). by intros [= ->].
  - intros [= <- <- <-]. unfold ret. by rewrite grow_nil.
Qed.

Lemma alu_src_or_null_modifier instr srcs n b s :
  Z.of_nat n < srcs ->
  alu_src instr !! n = Some s ->
  has_modifier s = true ->
  is_fatal (alu_src_or_null instr srcs n b).
Proof.
  intros Hn Hs Hm. unfold alu_src_or_null.
  assert ((srcs >? Z.of_nat n) = true) as -> by lia.
  unfold bind, array_read. rewrite Hs.
  by apply agx_alu_src_index_modifier.
Qed.

Lemma agx_emit_alu_unfold instr b :
  agx_emit_alu instr b
  = let srcs := to_unsigned (num_inputs (nir_op_infos (op instr))) in
    if (negb (srcs =? 0) && negb (bool_decide (is_Some (alu_src instr !! 0%nat))))%bool
    then Fatal "" (invalid_pointer "instr->src[0]")
    else if negb ((nir_dest_num_components (dest (alu_dest instr)) =? 1)
                  || nir_op_is_vec (op instr))
    then Fatal "" (assert_fail "comps == 1 || nir_op_is_vec(instr->op)")
    else if negb (bit_size_ok (nir_dest_bit_size (dest (alu_dest instr))))
    then Fatal "" (assert_fail "sz == 16 || sz == 32 || sz == 64")
    else alu_operands_and_switch instr srcs b.
Proof.
  unfold agx_emit_alu. cbn zeta. unfold bind at 1.
  destruct (_ =? 0); cbn [negb andb].
  - unfold ret, bind at 1, assert at 1.
    destruct ((_ =? 1) || _); [|done]. cbn [negb].
    unfold bind at 1, assert at 1, bit_size_ok.
    destruct ((_ =? 16) || (_ =? 32) || (_ =? 64)); [|done]. done.
  - unfold bind at 1, array_read.
    destruct (alu_src instr !! 0%nat) as [s|]; [|done].
    rewrite bool_decide_true by eauto. cbn [negb].
    unfold ret, bind at 1, assert at 1.
    destruct ((_ =? 1) || _); [|done]. cbn [negb].
    unfold bind at 1, assert at 1, bit_size_ok.
    destruct ((_ =? 16) || (_ =? 32) || (_ =? 64)); [|done]. done.
Qed.

(** Whatever the sources, an opcode other than the three packs never
    gets through the switch. *)
Lemma alu_operands_and_switch_other instr srcs b :
  is_vec234 (op instr) = false ->
  is_fatal (alu_operands_and_switch instr srcs b).
Proof.
  intros Hop. unfold alu_operands_and_switch, bind.
  destruct (alu_src_or_null instr srcs 0 b) as [[s0 b0]|]; [|done].
  destruct (alu_src_or_null instr srcs 1 b0) as [[s1 b1]|]; [|done].
  destruct (alu_src_or_null instr srcs 2 b1) as [[s2 b2]|]; [|done].
  destruct (alu_src_or_null instr srcs 3 b2) as [[s3 b3]|]; [|done].
  unfold alu_switch. by destruct (op instr).
Qed.

Lemma agx_emit_alu_other instr b :
  is_vec234 (op instr) = false -> is_fatal (agx_emit_alu instr b).
Proof.
  intros Hop. rewrite agx_emit_alu_unfold. cbn zeta.
  repeat (case_match; [done|]).
  by apply alu_operands_and_switch_other.
Qed.

(** A modifier on one of the first four declared sources stops the
    selector at that source, if not before. *)
Lemma alu_operands_and_switch_modifier instr srcs b n s :
  (n < 4)%nat ->
  Z.of_nat n < srcs ->
  alu_src instr !! n = Some s ->
  has_modifier s = true ->
  is_fatal (alu_operands_and_switch instr srcs b).
Proof.
  intros Hn4 Hn Hs Hm. unfold alu_operands_and_switch, bind.
  pose proof (fun b' => alu_src_or_null_modifier instr srcs n b' s Hn Hs Hm) as Hf.
  destruct n as [|[|[|[|n]]]]; [| | | |lia].
  - specialize (Hf b). by destruct (alu_src_or_null instr srcs 0 b) as [[??]|].
  - destruct (alu_src_or_null instr srcs 0 b) as [[s0 b0]|]; [|done].
    specialize (Hf b0). by destruct (alu_src_or_null instr srcs 1 b0) as [[??]|].
  - destruct (alu_src_or_null instr srcs 0 b) as [[s0 b0]|]; [|done].
    destruct (alu_src_or_null instr srcs 1 b0) as [[s1 b1]|]; [|done].
    specialize (Hf b1). by destruct (alu_src_or_null instr srcs 2 b1) as [[??]|].
  - destruct (alu_src_or_null instr srcs 0 b) as [[s0 b0]|]; [|done].
    destruct (alu_src_or_null instr srcs 1 b0) as [[s1 b1]|]; [|done].
    destruct (alu_src_or_null instr srcs 2 b1) as [[s2 b2]|]; [|done].
    specialize (Hf b2). by destruct (alu_src_or_null instr srcs 3 b2) as [[??]|].
Qed.

Lemma agx_emit_alu_modifier instr b n s :
  Z.of_nat n < num_inputs (nir_op_infos (op instr)) ->
  alu_src instr !! n = Some s ->
  has_modifier s = true ->
  is_fatal (agx_emit_alu instr b).
Proof.
  intros Hn Hs Hm.
  destruct (is_vec234 (op instr)) eqn:Hop; [|by apply agx_emit_alu_other].
  rewrite agx_emit_alu_unfold. cbn zeta.
  repeat (case_match; [done|]).
  assert (num_inputs (nir_op_infos (op instr)) <= 4) as Hle
    by (destruct (op instr); cbn in *; done || lia).
  apply (alu_operands_and_switch_modifier instr _ b n s); try done.
  - lia.
  - rewrite to_unsigned_small; lia.
Qed.

Lemma alu_operands_chain instr srcs b blk c0 o0 a1 c1 o1 a2 c2 o2 a3 c3 o3 a4 :
  blocks (shader b) !! cursor b = Some blk ->
  lower_nth instr srcs 0 (alloc (shader b)) = Some (c0, o0, a1) ->
  lower_nth instr srcs 1 a1 = Some (c1, o1, a2) ->
  lower_nth instr srcs 2 a2 = Some (c2, o2, a3) ->
  lower_nth instr srcs 3 a3 = Some (c3, o3, a4) ->
  alu_operands_and_switch instr srcs b
  = alu_switch instr o0 o1 o2 o3 (grow b blk (c0 ++ c1 ++ c2 ++ c3) a4).
Proof.
  intros Hb H0 H1 H2 H3. unfold alu_operands_and_switch.
  unfold bind at 1. rewrite (alu_src_or_null_run _ _ _ _ _ _ _ _ Hb H0).
  unfold bind at 1.
  rewrite (alu_src_or_null_run _ _ _ _ _ _ _ _ (grow_lookup _ _ _ _ Hb) H1).
  rewrite grow_grow. unfold bind at 1.
  rewrite (alu_src_or_null_run _ _ _ _ _ _ _ _ (grow_lookup _ _ _ _ Hb) H2).
  rewrite grow_grow. unfold bind at 1.
  rewrite (alu_src_or_null_run _ _ _ _ _ _ _ _ (grow_lookup _ _ _ _ Hb) H3).
  rewrite grow_grow. by rewrite <- !app_assoc.
Qed.

Lemma alu_legalized_inv instr :
  alu_legalized instr = true ->
  ((nir_dest_num_components (dest (alu_dest instr)) =? 1)
   || nir_op_is_vec (op instr)) = true
  /\ bit_size_ok (nir_dest_bit_size (dest (alu_dest instr))) = true
  /\ Z.of_nat (length (alu_src instr)) = num_inputs (nir_op_infos (op instr))
  /\ forall n s, alu_src instr !! n = Some s -> src_legal s = true.
Proof.
  unfold alu_legalized. rewrite !andb_true_iff, Z.eqb_eq.
  intros [[[H1 H2] H3] H4]. repeat split; try done.
  intros n s Hs. rewrite forallb_forall in H4. apply H4.
  apply list_elem_of_In. by eapply list_elem_of_lookup_2.
Qed.

(** Under legality every operand of the chain is defined. *)
Lemma alu_legalized_lower_nth instr n a :
  alu_legalized instr = true ->
  lower_nth instr (to_unsigned (num_inputs (nir_op_infos (op instr)))) n a
  = if to_unsigned (num_inputs (nir_op_infos (op instr))) >? Z.of_nat n
    then match alu_src instr !! n with
         | Some s => Some (lower_src s a)
         | None => None
         end
    else Some ([], agx_null, a).
Proof.
  intros (_ & _ & _ & Hall)%alu_legalized_inv. unfold lower_nth.
  destruct (_ >? _); [|done].
  destruct (alu_src instr !! n) as [s|] eqn:Hs; [|done].
  by rewrite (Hall _ _ Hs).
Qed.

Lemma alu_legalized_source instr n :
  alu_legalized instr = true ->
  to_unsigned (num_inputs (nir_op_infos (op instr))) > Z.of_nat n ->
  is_Some (alu_src instr !! n).
Proof.
  intros (_ & _ & Hlen & _)%alu_legalized_inv Hn.
  apply lookup_lt_is_Some.
  assert (0 <= num_inputs (nir_op_infos (op instr))) by lia.
  assert (to_unsigned (num_inputs (nir_op_infos (op instr)))
          <= num_inputs (nir_op_infos (op instr))).
  { unfold to_unsigned. apply Z.mod_le; lia. }
  lia.
Qed.

(** A legalized instruction reaches the switch, with the sources lowered
    one after the other. *)
Lemma agx_emit_alu_legalized instr b blk :
  blocks (shader b) !! cursor b = Some blk ->
  alu_legalized instr = true ->
  exists c0 o0 a1 c1 o1 a2 c2 o2 a3 c3 o3 a4,
    let srcs := to_unsigned (num_inputs (nir_op_infos (op instr))) in
    lower_nth instr srcs 0 (alloc (shader b)) = Some (c0, o0, a1)
    /\ lower_nth instr srcs 1 a1 = Some (c1, o1, a2)
    /\ lower_nth instr srcs 2 a2 = Some (c2, o2, a3)
    /\ lower_nth instr srcs 3 a3 = Some (c3, o3, a4)
    /\ agx_emit_alu instr b
       = alu_switch instr o0 o1 o2 o3 (grow b blk (c0 ++ c1 ++ c2 ++ c3) a4).
Proof.
  intros Hb Hleg.
  assert (forall n a, exists c o a',
             lower_nth instr (to_unsigned (num_inputs (nir_op_infos (op instr))))
               n a = Some (c, o, a')) as Hex.
  { intros n a. rewrite alu_legalized_lower_nth by done.
    destruct (_ >? _) eqn:Hgt; [|by eauto].
    destruct (alu_legalized_source instr n Hleg) as [s ->]; [lia|].
    destruct (lower_src s a) as [[c o] a']. eauto. }
  destruct (Hex 0%nat (alloc (shader b))) as (c0 & o0 & a1 & H0).
  destruct (Hex 1%nat a1) as (c1 & o1 & a2 & H1).
  destruct (Hex 2%nat a2) as (c2 & o2 & a3 & H2).
  destruct (Hex 3%nat a3) as (c3 & o3 & a4 & H3).
  exists c0, o0, a1, c1, o1, a2, c2, o2, a3, c3, o3, a4. cbn zeta.
  repeat split; try done.
  rewrite agx_emit_alu_unfold. cbn zeta.
  pose proof Hleg as (Hc & Hsz & _ & _)%alu_legalized_inv.
  rewrite Hc, Hsz. cbn [negb].
  destruct (Z.eqb_spec (to_unsigned (num_inputs (nir_op_infos (op instr)))) 0)
    as [E|E]; cbn [negb andb].
  - by eapply alu_operands_chain.
  - rewrite bool_decide_true.
    + by eapply alu_operands_chain.
    + apply alu_legalized_source; [done|].
      pose proof (to_unsigned_range (num_inputs (nir_op_infos (op instr)))). lia.
Qed.

Lemma alu_switch_vec instr o0 o1 o2 o3 b blk :
  blocks (shader b) !! cursor b = Some blk ->
  is_vec234 (op instr) = true ->
  alu_switch instr o0 o1 o2 o3 b
  = Ok ({| in_block := cursor b; at_pos := length (instructions blk) |},
        grow b blk
          [mk_instr AGX_OPCODE_P_COMBINE (agx_dest_index (dest (alu_dest instr)))
             [o0; o1; o2; o3] 0 0]
          (alloc (shader b))).
Proof.
  intros Hb Hop. unfold alu_switch, agx_p_combine_to.
  destruct (op instr); try done; by rewrite (agx_builder_insert_run _ _ _ Hb).
Qed.

(** A legalized pack: the sources are lowered in order, then one combine
    reads the operands so obtained. *)
Lemma agx_emit_alu_vec instr b blk code ops a' :
  blocks (shader b) !! cursor b = Some blk ->
  alu_legalized instr = true ->
  is_vec234 (op instr) = true ->
  lower_srcs (alu_src instr) (alloc (shader b)) = (code, ops, a') ->
  agx_emit_alu instr b
  = Ok ({| in_block := cursor b;
           at_pos := length (instructions blk) + length code |},
        grow b blk (code ++ [combine_instr instr ops]) a').
Proof.
  intros Hb Hleg Hop Hlow.
  destruct (agx_emit_alu_legalized instr b blk Hb Hleg)
    as (c0 & o0 & a1 & c1 & o1 & a2 & c2 & o2 & a3 & c3 & o3 & a4
        & H0 & H1 & H2 & H3 & ->).
  rewrite (alu_switch_vec _ _ _ _ _ _ _ (grow_lookup _ _ _ _ Hb) Hop).
  rewrite cursor_grow, alloc_grow, grow_grow. cbn [instructions set_instructions].
  rewrite length_app.
  rewrite alu_legalized_lower_nth in H0, H1, H2, H3 by done.
  pose proof Hleg as (_ & _ & Hlen & _)%alu_legalized_inv.
  unfold combine_instr.
  destruct (op instr); try done; cbn [nir_op_infos num_inputs] in *;
    change (to_unsigned 2) with 2 in *; change (to_unsigned 3) with 3 in *;
    change (to_unsigned 4) with 4 in *.
  - destruct (alu_src instr) as [|x0 [|x1 [|]]]; cbn [length] in Hlen; try lia.
    cbn in H0, H1, H2, H3, Hlow.
    destruct (lower_src x0 _) as [[??]?]. injection H0 as -> -> ->.
    destruct (lower_src x1 _) as [[??]?]. injection H1 as -> -> ->.
    injection H2 as <- <- <-. injection H3 as <- <- <-.
    injection Hlow as <- <- <-. by rewrite !app_nil_r.
  - destruct (alu_src instr) as [|x0 [|x1 [|x2 [|]]]]; cbn [length] in Hlen; try lia.
    cbn in H0, H1, H2, H3, Hlow.
    destruct (lower_src x0 _) as [[??]?]. injection H0 as -> -> ->.
    destruct (lower_src x1 _) as [[??]?]. injection H1 as -> -> ->.
    destruct (lower_src x2 _) as [[??]?]. injection H2 as -> -> ->.
    injection H3 as <- <- <-.
    injection Hlow as <- <- <-. by rewrite !app_nil_r.
  - destruct (alu_src instr) as [|x0 [|x1 [|x2 [|x3 [|]]]]]; cbn [length] in Hlen;
      try lia.
    cbn in H0, H1, H2, H3, Hlow.
    destruct (lower_src x0 _) as [[??]?]. injection H0 as -> -> ->.
    destruct (lower_src x1 _) as [[??]?]. injection H1 as -> -> ->.
    destruct (lower_src x2 _) as [[??]?]. injection H2 as -> -> ->.
    destruct (lower_src x3 _) as [[??]?]. injection H3 as -> -> ->.
    injection Hlow as <- <- <-. by rewrite !app_nil_r.
Qed.

(** What [lower_srcs] yields: one extract per source with several
    components and nothing else, and for each source the operand the
    combine reads: the source's own register when it is scalar, else the
    destination of an extract of the selected channel. *)
Lemma lower_srcs_spec l a code ops a' :
  lower_srcs l a = (code, ops, a') ->
  Forall (fun i => i_op i = AGX_OPCODE_P_EXTRACT) code
  /\ length code = length (filter (fun s => multi_component s = true) l)
  /\ Forall2
       (fun s o =>
          if multi_component s
          then exists t,
                 o = agx_get_index t (agx_index_size (agx_src_index (src s)))
                 /\ mk_instr AGX_OPCODE_P_EXTRACT o [agx_src_index (src s)]
                      (swizzle s 0%nat) 0 ∈ code
          else o = agx_src_index (src s))
       l ops.
Proof.
  revert a code ops a'.
  induction l as [|s l IH]; intros a code ops a'; cbn [lower_srcs].
  - intros [= <- <- <-]. by repeat constructor.
  - unfold lower_src.
    destruct (multi_component s) eqn:Hm.
    + destruct (lower_srcs l (to_unsigned (a + 1))) as [[cs' os'] a2'] eqn:E2.
      intros [= <- <- <-].
      destruct (IH _ _ _ _ E2) as (Hf & Hl & H2).
      rewrite filter_cons_True by done. cbn. repeat split.
      * by constructor.
      * by rewrite Hl.
      * constructor.
        -- rewrite Hm. eexists. split; [done|]. by left.
        -- eapply Forall2_impl; [exact H2|]. intros s' o'. cbn.
           destruct (multi_component s'); [|done].
           intros (t & -> & Hin). eexists. split; [done|]. by right.
    + destruct (lower_srcs l a) as [[cs os] a2] eqn:E1.
      intros [= <- <- <-].
      destruct (IH _ _ _ _ E1) as (Hf & Hl & H2).
      rewrite filter_cons_False by (by rewrite Hm). cbn. repeat split; try done.
      constructor; [by rewrite Hm|done].
Qed.

(** C6.  A legalized ALU instruction is accepted exactly when its opcode
    is the 2-, 3- or 4-way vector pack, and then what is appended ends
    with a single combine, preceded only by extracts: one for each source
    that has several components, whose selected channel goes to a fresh
    temporary that the combine reads in place of the source.  Any other
    opcode aborts, with the diagnostic that names the opcode when the
    switch is reached on an opcode it does not list; and an instruction
    one of whose sources carries a negation or an absolute-value modifier
    aborts. *)
Theorem agx_emit_alu_spec (b : agx_builder) (instr : nir_alu_instr) :
  (forall blk code ops a',
      blocks (shader b) !! cursor b = Some blk ->
      alu_legalized instr = true ->
      is_vec234 (op instr) = true ->
      lower_srcs (alu_src instr) (alloc (shader b)) = (code, ops, a') ->
      (exists ptr,
          agx_emit_alu instr b
          = Ok (ptr,
                grow b blk
                  (code ++
                   [mk_instr AGX_OPCODE_P_COMBINE
                      (agx_dest_index (dest (alu_dest instr)))
                      (ops ++ replicate (4 - length ops) agx_null) 0 0])
                  a'))
      /\ Forall (fun i => i_op i = AGX_OPCODE_P_EXTRACT) code
      /\ length code
         = length (filter (fun s => multi_component s = true) (alu_src instr))
      /\ Forall2
           (fun s o =>
              if multi_component s
              then exists t,
                     o = agx_get_index t (agx_index_size (agx_src_index (src s)))
                     /\ mk_instr AGX_OPCODE_P_EXTRACT o [agx_src_index (src s)]
                          (swizzle s 0%nat) 0 ∈ code
              else o = agx_src_index (src s))
           (alu_src instr) ops)
  /\ (is_vec234 (op instr) = false -> is_fatal (agx_emit_alu instr b))
  /\ (forall blk n,
      blocks (shader b) !! cursor b = Some blk ->
      alu_legalized instr = true ->
      op instr = nir_op_other n ->
      agx_emit_alu instr b
      = Fatal ("Unhandled ALU op " +:+ op_name (nir_op_infos (op instr))
                 +:+ newline)
              (unreachable_reached "Unhandled ALU instruction"))
  /\ (forall blk,
      blocks (shader b) !! cursor b = Some blk ->
      alu_legalized instr = true ->
      op instr = nir_op_vec8 \/ op instr = nir_op_vec16 ->
      agx_emit_alu instr b
      = Fatal "" (unreachable_reached "should've been lowered"))
  /\ (forall n s,
      Z.of_nat n < num_inputs (nir_op_infos (op instr)) ->
      alu_src instr !! n = Some s ->
      negate s = true \/ abs s = true ->
      is_fatal (agx_emit_alu instr b)).
Proof.
  split; [|split; [|split; [|split]]].
  - intros blk code ops a' Hb Hleg Hop Hlow. split.
    + eexists. by apply agx_emit_alu_vec.
    + by eapply lower_srcs_spec.
  - apply agx_emit_alu_other.
  - intros blk n Hb Hleg Hop.
    destruct (agx_emit_alu_legalized instr b blk Hb Hleg)
      as (c0 & o0 & a1 & c1 & o1 & a2 & c2 & o2 & a3 & c3 & o3 & a4
          & _ & _ & _ & _ & ->).
    unfold alu_switch. by rewrite Hop.
  - intros blk Hb Hleg Hop.
    destruct (agx_emit_alu_legalized instr b blk Hb Hleg)
      as (c0 & o0 & a1 & c1 & o1 & a2 & c2 & o2 & a3 & c3 & o3 & a4
          & _ & _ & _ & _ & ->).
    unfold alu_switch. by destruct Hop as [-> | ->].
  - intros n s Hn Hs Hm. eapply agx_emit_alu_modifier; [done..|].
    unfold has_modifier. destruct Hm as [-> | ->]; [done|apply orb_true_r].
Qed.

(** ** The selector only appends to the current block

    Two runs of an emitting function from builders that agree on the
    shader, the stage, the key and the counter abort alike or append the
    same instructions to their current blocks and leave the same
    counter. *)

Lemma same_env_grow b1 b2 blk1 blk2 c1 c2 a :
  same_env (shader b1) (shader b2) ->
  same_env (shader (grow b1 blk1 c1 a)) (shader (grow b2 blk2 c2 a)).
Proof. intros (? & ? & ? & ?). by repeat split. Qed.

Lemma sim_ret {A} (R : A -> A -> Prop) x1 x2 :
  R x1 x2 -> sim R (ret x1) (ret x2).
Proof.
  intros HR b1 b2 blk1 blk2 (Hn & Hs & Hk & Ha) H1 H2. unfold ret.
  split; [done|]. exists [], (alloc (shader b1)).
  split; [by rewrite grow_nil|]. rewrite Ha. by rewrite grow_nil.
Qed.

Lemma sim_bind {A B} (R : A -> A -> Prop) (R' : B -> B -> Prop) m1 m2 k1 k2 :
  sim R m1 m2 ->
  (forall x1 x2, R x1 x2 -> sim R' (k1 x1) (k2 x2)) ->
  sim R' (bind m1 k1) (bind m2 k2).
Proof.
  intros Hm Hk b1 b2 blk1 blk2 Henv H1 H2. unfold bind.
  specialize (Hm b1 b2 blk1 blk2 Henv H1 H2).
  destruct (m1 b1) as [[x1 b1']|e1 w1], (m2 b2) as [[x2 b2']|e2 w2]; try done.
  destruct Hm as (HR & c & a' & -> & ->).
  specialize (Hk x1 x2 HR _ _ _ _
                (same_env_grow _ _ blk1 blk2 c c a' Henv)
                (grow_lookup _ _ _ _ H1) (grow_lookup _ _ _ _ H2)).
  destruct (k1 x1 _) as [[y1 b1'']|], (k2 x2 _) as [[y2 b2'']|]; try done.
  destruct Hk as (HR' & c' & a'' & -> & ->).
  split; [done|]. exists (c ++ c'), a''. by rewrite !grow_grow.
Qed.

Lemma sim_fatal {A} (R : A -> A -> Prop) e w :
  sim R (fun _ => Fatal e w) (fun _ => Fatal e w).
Proof. by intros b1 b2 blk1 blk2 _ _ _. Qed.

Lemma sim_assert c text : sim eq (assert c text) (assert c text).
Proof.
  destruct c; [apply (sim_ret eq tt tt eq_refl)|apply sim_fatal].
Qed.

Lemma sim_array_read {A} (l : list A) n what :
  sim eq (array_read l n what) (array_read l n what).
Proof.
  unfold array_read. destruct (l !! n) as [x|].
  - by apply (sim_ret eq x x).
  - apply sim_fatal.
Qed.

Lemma sim_insert ins :
  sim (fun _ _ => True) (agx_builder_insert ins) (agx_builder_insert ins).
Proof.
  intros b1 b2 blk1 blk2 (Hn & Hs & Hk & Ha) H1 H2.
  rewrite (agx_builder_insert_run _ _ _ H1), (agx_builder_insert_run _ _ _ H2).
  split; [done|]. eexists _, _. split; [done|]. by rewrite Ha.
Qed.

Lemma sim_temp sz : sim eq (agx_temp sz) (agx_temp sz).
Proof.
  intros b1 b2 blk1 blk2 (Hn & Hs & Hk & Ha) H1 H2. unfold agx_temp.
  rewrite Ha. split; [done|]. exists [], (to_unsigned (alloc (shader b2) + 1)).
  by rewrite !grow_nil_alloc.
Qed.

(** Whatever a builder call returns, dropping it gives equal values. *)
Lemma sim_drop {A} (m1 m2 : emitter A) :
  sim (fun _ _ => True) m1 m2 ->
  sim eq (bind m1 (fun _ => ret tt)) (bind m2 (fun _ => ret tt)).
Proof.
  intros Hm. eapply sim_bind; [exact Hm|]. intros. by apply (sim_ret eq tt tt).
Qed.

Lemma sim_weaken {A} (R : A -> A -> Prop) m1 m2 :
  sim R m1 m2 -> sim (fun _ _ => True) m1 m2.
Proof.
  intros Hm b1 b2 blk1 blk2 Henv H1 H2.
  specialize (Hm b1 b2 blk1 blk2 Henv H1 H2).
  destruct (m1 b1) as [[??]|], (m2 b2) as [[??]|]; try done.
  by destruct Hm.
Qed.

Lemma sim_load_const instr :
  sim eq (agx_emit_load_const instr) (agx_emit_load_const instr).
Proof.
  unfold agx_emit_load_const.
  eapply sim_bind; [apply sim_assert|intros _ _ _].
  eapply sim_bind; [apply sim_assert|intros _ _ _].
  eapply sim_bind; [apply sim_array_read|intros v ? <-].
  apply sim_drop, sim_insert.
Qed.

Lemma sim_store_vary instr :
  sim eq (agx_emit_store_vary instr) (agx_emit_store_vary instr).
Proof.
  intros b1 b2 blk1 blk2 (Hn & Hs & Hk & Ha) H1 H2.
  rewrite !agx_emit_store_vary_eq, H1, H2.
  destruct (nir_get_io_offset_src instr) as [offset|]; [|done].
  destruct (nir_src_is_const offset); [|done].
  destruct (nir_intrinsic_write_mask instr =? 1); [|done].
  destruct (intr_src instr !! 0%nat) as [s0|]; [|done]. cbn [negb].
  split; [done|]. eexists _, _. split; [done|]. by rewrite Ha.
Qed.

Lemma sim_load_vary instr :
  sim eq (agx_emit_load_vary instr) (agx_emit_load_vary instr).
Proof.
  intros b1 b2 blk1 blk2 (Hn & Hs & Hk & Ha) H1 H2.
  rewrite !agx_emit_load_vary_eq, H1, H2.
  destruct (nir_intrinsic_op_eqb (intrinsic instr) _); [|done].
  destruct (intr_src instr !! 0%nat) as [s0|]; [|done].
  destruct (nir_src_as_intrinsic s0) as [parent|]; [|done].
  destruct (nir_intrinsic_op_eqb parent _); [|done].
  destruct (nir_get_io_offset_src instr) as [offset|]; [|done].
  destruct (nir_src_is_const offset); [|done]. cbn [negb].
  split; [done|]. eexists _, _. split; [done|]. by rewrite Ha.
Qed.

Lemma sim_fragment_out instr :
  sim eq (agx_emit_fragment_out instr) (agx_emit_fragment_out instr).
Proof.
  intros b1 b2 blk1 blk2 (Hn & Hs & Hk & Ha) H1 H2.
  rewrite !agx_emit_fragment_out_eq, H1, H2, Hn, Hk.
  destruct (nir_find_variable_with_driver_location _ _ _) as [var|]; [|done].
  destruct (data_index var =? 0); [|done].
  destruct (location_supported var); [|done].
  destruct (intr_src instr !! 0%nat) as [s0|]; [|done].
  destruct (key (shader b2)) as [k|]; [|done]. cbn [negb].
  split; [done|]. eexists _, _. split; [done|]. by rewrite Ha.
Qed.

Lemma sim_intrinsic instr :
  sim eq (agx_emit_intrinsic instr) (agx_emit_intrinsic instr).
Proof.
  intros b1 b2 blk1 blk2 Henv H1 H2.
  pose proof Henv as (Hn & Hs & Hk & Ha).
  unfold agx_emit_intrinsic, bind, get_shader. rewrite Hs.
  destruct (intrinsic instr);
    try exact (sim_ret eq tt tt eq_refl b1 b2 blk1 blk2 Henv H1 H2);
    try done;
    destruct (stage (shader b2)); try done;
    first [ exact (sim_load_vary instr b1 b2 blk1 blk2 Henv H1 H2)
          | exact (sim_store_vary instr b1 b2 blk1 blk2 Henv H1 H2)
          | exact (sim_fragment_out instr b1 b2 blk1 blk2 Henv H1 H2) ].
Qed.

Lemma sim_alu_src_index s :
  sim eq (agx_alu_src_index s) (agx_alu_src_index s).
Proof.
  unfold agx_alu_src_index.
  eapply sim_bind; [apply sim_assert|intros _ _ _].
  eapply sim_bind; [apply sim_assert|intros _ _ _].
  eapply sim_bind; [apply sim_assert|intros _ _ _].
  destruct (_ >? 1); [|by apply (sim_ret eq)].
  unfold agx_p_extract.
  eapply sim_bind; [apply sim_temp|intros tmp ? <-].
  eapply sim_bind; [apply sim_insert|intros _ _ _].
  by apply (sim_ret eq).
Qed.

Lemma sim_alu_src_or_null instr srcs n :
  sim eq (alu_src_or_null instr srcs n) (alu_src_or_null instr srcs n).
Proof.
  unfold alu_src_or_null. destruct (_ >? _); [|by apply (sim_ret eq)].
  eapply sim_bind; [apply sim_array_read|intros s ? <-].
  apply sim_alu_src_index.
Qed.

Lemma sim_alu instr :
  sim (fun _ _ => True) (agx_emit_alu instr) (agx_emit_alu instr).
Proof.
  unfold agx_emit_alu.
  eapply sim_bind.
  { instantiate (1 := eq). destruct (negb _); [|by apply (sim_ret eq)].
    eapply sim_bind; [apply sim_array_read|intros s ? <-].
    by apply (sim_ret eq). }
  intros src_sz ? <-.
  eapply sim_bind; [apply sim_assert|intros _ _ _].
  eapply sim_bind; [apply sim_assert|intros _ _ _].
  eapply sim_bind; [apply sim_alu_src_or_null|intros s0 ? <-].
  eapply sim_bind; [apply sim_alu_src_or_null|intros s1 ? <-].
  eapply sim_bind; [apply sim_alu_src_or_null|intros s2 ? <-].
  eapply sim_bind; [apply sim_alu_src_or_null|intros s3 ? <-].
  destruct (op instr); try apply sim_insert; apply sim_fatal.
Qed.

Lemma sim_instr instr : sim eq (agx_emit_instr instr) (agx_emit_instr instr).
Proof.
  destruct instr; cbn [agx_emit_instr]; try apply sim_fatal.
  - apply sim_drop, sim_alu.
  - apply sim_intrinsic.
  - apply sim_load_const.
Qed.

(** ** Blocks *)

Lemma scratch_lookup ctx :
  blocks (shader (scratch_builder ctx)) !! cursor (scratch_builder ctx)
  = Some agx_create_block.
Proof. reflexivity. Qed.

(** Selecting an instruction into any block appends what [selected]
    reads off the fresh block. *)
Lemma agx_emit_instr_frame instr b blk :
  blocks (shader b) !! cursor b = Some blk ->
  agx_emit_instr instr b
  = match selected (shader b) instr with
    | Ok (code, a') => Ok (tt, grow b blk code a')
    | Fatal e w => Fatal e w
    end.
Proof.
  intros Hb.
  pose proof (sim_instr instr (scratch_builder (shader b)) b agx_create_block blk)
    as Hsim.
  unfold selected, emitted_by.
  destruct (agx_emit_instr instr (scratch_builder (shader b))) as [[[] b1]|e1 w1],
           (agx_emit_instr instr b) as [[[] b2]|e2 w2];
    specialize (Hsim ltac:(by repeat split) (scratch_lookup _) Hb); try done.
  - destruct Hsim as (_ & c & a' & -> & ->). reflexivity.
  - by destruct Hsim as [-> ->].
Qed.

Lemma selected_env c1 c2 instr :
  same_env c1 c2 -> selected c1 instr = selected c2 instr.
Proof.
  intros Henv.
  pose proof (sim_instr instr (scratch_builder c1) (scratch_builder c2)
                agx_create_block agx_create_block Henv
                (scratch_lookup _) (scratch_lookup _)) as Hsim.
  unfold selected, emitted_by.
  destruct (agx_emit_instr instr (scratch_builder c1)) as [[[] b1]|e1 w1],
           (agx_emit_instr instr (scratch_builder c2)) as [[[] b2]|e2 w2];
    try done.
  - by destruct Hsim as (_ & c & a' & -> & ->).
  - by destruct Hsim as [-> ->].
Qed.

Lemma translates_env c1 c2 a instrs code a' :
  same_program c1 c2 ->
  translates c1 a instrs code a' -> translates c2 a instrs code a'.
Proof.
  intros (Hn & Hs & Hk) Ht. induction Ht as [|a instr code a1 rest code' a2 Hsel _ IH].
  - constructor.
  - econstructor; [|exact IH].
    rewrite <- Hsel. symmetry. apply selected_env. by repeat split.
Qed.

Lemma builds_env c1 c2 a bodies news a' :
  same_program c1 c2 ->
  builds c1 a bodies news a' -> builds c2 a bodies news a'.
Proof.
  intros Hp Hb. induction Hb; econstructor; eauto using translates_env.
Qed.

Lemma translates_deterministic ctx a instrs code1 a1 code2 a2 :
  translates ctx a instrs code1 a1 ->
  translates ctx a instrs code2 a2 ->
  code1 = code2 /\ a1 = a2.
Proof.
  intros H1. revert code2 a2.
  induction H1 as [|a instr code a1 rest code' a2' Hsel _ IH]; intros code2 a2 H2.
  - by inversion H2.
  - inversion H2 as [|? ? codeb a1b ? codeb' ? Hselb Hrest]; subst.
    rewrite Hsel in Hselb. injection Hselb as <- <-.
    by destruct (IH _ _ Hrest) as [-> ->].
Qed.

Lemma builds_length ctx a bodies news a' :
  builds ctx a bodies news a' -> length news = length bodies.
Proof. induction 1; cbn; congruence. Qed.

Lemma builds_deterministic ctx a bodies news1 a1 news2 a2 :
  builds ctx a bodies news1 a1 ->
  builds ctx a bodies news2 a2 ->
  news1 = news2 /\ a1 = a2.
Proof.
  intros H1. revert news2 a2.
  induction H1 as [|a instrs code a1 rest news a2' Ht _ IH]; intros news2 a2 H2.
  - by inversion H2.
  - inversion H2 as [|? ? codeb a1b ? newsb ? Htb Hrest]; subst.
    destruct (translates_deterministic _ _ _ _ _ _ _ Ht Htb) as [-> ->].
    by destruct (IH _ _ Hrest) as [-> ->].
Qed.

Lemma set_alloc_same ctx : set_alloc ctx (alloc ctx) = ctx.
Proof. by destruct ctx. Qed.

(** The loop of [emit_block]: the instructions are selected one after
    the other, in their order. *)
Lemma foreach_emit_instr instrs b blk :
  blocks (shader b) !! cursor b = Some blk ->
  match foreach instrs agx_emit_instr b with
  | Ok (_, b') =>
      exists code a',
        translates (shader b) (alloc (shader b)) instrs code a'
        /\ b' = grow b blk code a'
  | Fatal _ _ =>
      forall code a', ~ translates (shader b) (alloc (shader b)) instrs code a'
  end.
Proof.
  revert b blk. induction instrs as [|instr rest IH]; intros b blk Hb.
  - cbn. exists [], (alloc (shader b)). split; [constructor|].
    by rewrite grow_nil.
  - cbn [foreach]. unfold bind. rewrite (agx_emit_instr_frame _ _ _ Hb).
    destruct (selected (shader b) instr) as [[code a1]|e w] eqn:Hsel.
    + specialize (IH _ _ (grow_lookup b blk code a1 Hb)).
      rewrite alloc_grow in IH.
      destruct (foreach rest agx_emit_instr (grow b blk code a1)) as [[[] b']|].
      * destruct IH as (code' & a' & Ht & ->).
        exists (code ++ code'), a'. split; [|by rewrite grow_grow].
        econstructor; [by rewrite set_alloc_same|].
        eapply translates_env; [|exact Ht]. by repeat split.
      * intros code' a' Ht.
        inversion Ht as [|? ? codeb a1b ? codeb' ? Hselb Hrest]; subst.
        rewrite set_alloc_same, Hsel in Hselb. injection Hselb as <- <-.
        eapply IH. eapply translates_env; [|exact Hrest]. by repeat split.
    + intros code' a' Ht.
      inversion Ht as [|? ? codeb a1b ? codeb' ? Hselb Hrest]; subst.
      by rewrite set_alloc_same, Hsel in Hselb.
Qed.

Lemma emit_block_spec ctx instrs :
  match emit_block ctx instrs with
  | Ok (blk, ctx') =>
      blk = length (blocks ctx)
      /\ exists code a',
           translates ctx (alloc ctx) instrs code a'
           /\ ctx' = set_alloc
                       (set_blocks ctx
                          (blocks ctx ++ [set_instructions agx_create_block code]))
                       a'
  | Fatal _ _ => forall code a', ~ translates ctx (alloc ctx) instrs code a'
  end.
Proof.
  unfold emit_block, agx_after_block.
  set (b := agx_init_builder (set_blocks ctx (blocks ctx ++ [agx_create_block]))
              (length (blocks ctx))).
  assert (blocks (shader b) !! cursor b = Some agx_create_block) as Hb.
  { cbn. rewrite lookup_app_r by done. by rewrite Nat.sub_diag. }
  pose proof (foreach_emit_instr instrs b _ Hb) as H.
  destruct (foreach instrs agx_emit_instr b) as [[[] b']|].
  - destruct H as (code & a' & Ht & ->). split; [done|].
    exists code, a'. split.
    + eapply translates_env; [|exact Ht]. by repeat split.
    + unfold grow. cbn. unfold set_alloc, set_blocks. cbn. f_equal.
      rewrite insert_app_r_alt by done. by rewrite Nat.sub_diag.
  - intros code a' Ht. eapply H. eapply translates_env; [|exact Ht].
    by repeat split.
Qed.

Lemma emit_cf_nodes_blocks bodies ctx start :
  match emit_cf_nodes ctx start (map nir_cf_node_block bodies) with
  | Ok (start', ctx') =>
      start' = match start with
               | Some s => Some s
               | None => first_new_block ctx bodies
               end
      /\ exists news a',
           builds ctx (alloc ctx) bodies news a'
           /\ ctx' = set_alloc (set_blocks ctx (blocks ctx ++ news)) a'
  | Fatal _ _ => forall news a', ~ builds ctx (alloc ctx) bodies news a'
  end.
Proof.
  revert ctx start. induction bodies as [|instrs rest IH]; intros ctx start.
  - cbn. split; [by destruct start|]. exists [], (alloc ctx).
    split; [constructor|]. rewrite app_nil_r. by destruct ctx.
  - cbn [map emit_cf_nodes].
    pose proof (emit_block_spec ctx instrs) as Hblk.
    destruct (emit_block ctx instrs) as [[blk ctx1]|].
    + destruct Hblk as (-> & code & a1 & Ht & ->).
      match goal with
      | |- context [emit_cf_nodes ?c ?s _] => specialize (IH c s)
      end.
      destruct (emit_cf_nodes _ _ _) as [[start' ctx']|].
      * destruct IH as (-> & news & a' & Hb & ->). split; [by destruct start|].
        exists (set_instructions agx_create_block code :: news), a'. split.
        -- econstructor; [exact Ht|].
           eapply builds_env; [|exact Hb]. by repeat split.
        -- unfold set_alloc, set_blocks. cbn. by rewrite <- app_assoc.
      * intros news a' Hb.
        inversion Hb as [|? ? codeb a1b ? newsb ? Htb Hrest]; subst.
        destruct (translates_deterministic _ _ _ _ _ _ _ Ht Htb) as [<- <-].
        eapply IH. eapply builds_env; [|exact Hrest]. by repeat split.
    + intros news a' Hb.
      inversion Hb as [|? ? codeb a1b ? newsb ? Htb Hrest]; subst.
      by eapply Hblk.
Qed.

Lemma emit_cf_nodes_other list ctx start :
  forallb is_block list = false ->
  is_fatal (emit_cf_nodes ctx start list).
Proof.
  revert ctx start. induction list as [|node rest IH]; intros ctx start; [done|].
  cbn [forallb emit_cf_nodes]. destruct node; cbn [is_block andb]; try done.
  intros Hrest. destruct (emit_block ctx instrs) as [[blk ctx1]|]; [|done].
  by apply IH.
Qed.

Lemma builds_Forall2 ctx a bodies news a' :
  builds ctx a bodies news a' ->
  Forall2
    (fun instrs blk =>
       predecessors blk = [] /\
       exists a0 a1, translates ctx a0 instrs (instructions blk) a1)
    bodies news.
Proof.
  induction 1 as [|a instrs code a1 rest news a2 Ht _ IH]; constructor; [|done].
  split; [done|]. by exists a, a1.
Qed.

(** C7 (as amended).  For a control-flow list made of block nodes only,
    with bodies [bodies], all of whose instructions the selector accepts
    ([builds]): [emit_cf_list] appends to the context's block list one
    new block per node, in the order of the walk, the k-th holding the
    translation of the instructions of the k-th body in their order, and
    returns the first block it created (none when the list is empty).
    It succeeds on such a list in no other case: when the selector
    rejects an instruction, it aborts.  A list that holds a conditional,
    a loop or any other node that is not a block aborts. *)
Theorem emit_cf_list_spec (ctx : agx_context) (list : list nir_cf_node) :
  (forall bodies,
      list = map nir_cf_node_block bodies ->
      (forall news a',
          builds ctx (alloc ctx) bodies news a' ->
          emit_cf_list ctx list
          = Ok (first_new_block ctx bodies,
                set_alloc (set_blocks ctx (blocks ctx ++ news)) a')
          /\ length news = length bodies
          /\ Forall2
               (fun instrs blk =>
                  predecessors blk = [] /\
                  exists a0 a1, translates ctx a0 instrs (instructions blk) a1)
               bodies news)
      /\ (forall start ctx',
          emit_cf_list ctx list = Ok (start, ctx') ->
          exists news,
            builds ctx (alloc ctx) bodies news (alloc ctx')
            /\ blocks ctx' = blocks ctx ++ news
            /\ length news = length bodies
            /\ start = first_new_block ctx bodies)
      /\ ((forall news a', ~ builds ctx (alloc ctx) bodies news a') ->
          is_fatal (emit_cf_list ctx list)))
  /\ (forallb is_block list = false -> is_fatal (emit_cf_list ctx list)).
Proof.
  split; [|apply emit_cf_nodes_other].
  intros bodies ->. unfold emit_cf_list.
  pose proof (emit_cf_nodes_blocks bodies ctx None) as H.
  destruct (emit_cf_nodes ctx None (map nir_cf_node_block bodies))
    as [[start ctx']|e w].
  - destruct H as (-> & news & a' & Hb & ->). split; [|split].
    + intros news2 a2 Hb2.
      destruct (builds_deterministic _ _ _ _ _ _ _ Hb Hb2) as [<- <-].
      split; [done|]. split; [by eapply builds_length|by eapply builds_Forall2].
    + intros start ctx' [= <- <-]. exists news. cbn.
      split; [done|]. split; [done|]. split; [|done]. by eapply builds_length.
    + intros Hno. by destruct (Hno _ _ Hb).
  - split; [|split]; try done.
    intros news a' Hb. by destruct (H _ _ Hb).
Qed.

(** ** The epilogue *)

Lemma for_times_insert n ins b blk :
  blocks (shader b) !! cursor b = Some blk ->
  for_times n (agx_builder_insert ins) b
  = Ok (tt, grow b blk (replicate n ins) (alloc (shader b))).
Proof.
  revert b blk. induction n as [|n IH]; intros b blk Hb; cbn [for_times replicate].
  - unfold ret. by rewrite grow_nil.
  - unfold bind. rewrite (agx_builder_insert_run _ _ _ Hb).
    rewrite (IH _ _ (grow_lookup _ _ _ _ Hb)).
    by rewrite alloc_grow, grow_grow.
Qed.

Lemma agx_name_blocks_lookup bs n i :
  0 <= n < 2 ^ 32 ->
  agx_name_blocks bs n !! i
  = (fun blk => set_name blk (to_unsigned (n + Z.of_nat i))) <$> bs !! i.
Proof.
  revert n i. induction bs as [|blk bs IH]; intros n i Hn; [done|].
  destruct i as [|i]; cbn [agx_name_blocks].
  - cbn. by rewrite Z.add_0_r, to_unsigned_small.
  - cbn [lookup list_lookup]. rewrite IH by apply to_unsigned_range.
    rewrite to_unsigned_add_l.
    by replace (n + 1 + Z.of_nat i) with (n + Z.of_nat (S i)) by lia.
Qed.

Lemma agx_name_blocks_length bs n : length (agx_name_blocks bs n) = length bs.
Proof. revert n. induction bs; intros n; cbn; [done|]. by rewrite IHbs. Qed.

Lemma agx_terminate_shader_run ctx pre last :
  blocks ctx = pre ++ [last] ->
  agx_terminate_shader ctx
  = Ok (set_blocks ctx
          (agx_name_blocks
             (pre ++ [set_instructions last (instructions last ++ epilogue)]) 0)).
Proof.
  intros Hbs. unfold agx_terminate_shader, list_last_entry, agx_after_block.
  set (b := agx_init_builder ctx (length (blocks ctx) - 1)).
  assert (blocks (shader b) !! cursor b = Some last) as Hb.
  { cbn. rewrite Hbs, length_app. cbn.
    rewrite lookup_app_r by lia.
    by replace (length pre + 1 - 1 - length pre)%nat with 0%nat by lia. }
  unfold bind, agx_stop, agx_trap.
  rewrite (agx_builder_insert_run _ _ _ Hb).
  rewrite (for_times_insert _ _ _ _ (grow_lookup _ _ _ _ Hb)).
  rewrite alloc_grow, grow_grow. cbn [app].
  unfold grow. cbn. unfold set_blocks, set_alloc. cbn. do 3 f_equal.
  rewrite Hbs, length_app. cbn.
  replace (length pre + 1 - 1)%nat with (length pre + 0)%nat by lia.
  by rewrite insert_app_r.
Qed.

(** C8.  When the blocks have been built and there is a last block, the
    driver appends to that block exactly one stop followed by exactly
    eight traps, leaves the instructions of the other blocks as they
    are, and names the blocks 0, 1, 2, ... by their position in the list,
    which is the order of their creation (the counter is an [unsigned],
    so position i gets i modulo 2^32). *)
Theorem agx_compile_shader_nir_epilogue
    (shader_nir : nir_shader) (ctx : agx_context)
    (pre : list agx_block) (last : agx_block) :
  agx_build_blocks shader_nir = Ok ctx ->
  blocks ctx = pre ++ [last] ->
  exists ctx',
    agx_compile_shader_nir shader_nir = Ok ctx'
    /\ length (blocks ctx') = length (blocks ctx)
    /\ (forall i blk,
           blocks ctx' !! i = Some blk ->
           name blk = Z.of_nat i mod 2 ^ 32
           /\ (Z.of_nat i < 2 ^ 32 -> name blk = Z.of_nat i))
    /\ (forall i blk,
           pre !! i = Some blk ->
           exists blk', blocks ctx' !! i = Some blk'
                        /\ instructions blk' = instructions blk)
    /\ (exists blk',
           blocks ctx' !! length pre = Some blk'
           /\ instructions blk'
              = instructions last
                ++ [mk_instr AGX_OPCODE_STOP agx_null [] 0 0]
                ++ replicate 8 (mk_instr AGX_OPCODE_TRAP agx_null [] 0 0)).
Proof.
  intros Hbuild Hbs. unfold agx_compile_shader_nir. rewrite Hbuild.
  rewrite (agx_terminate_shader_run _ _ _ Hbs).
  eexists. split; [reflexivity|]. cbn [blocks set_blocks].
  split; [|split; [|split]].
  - rewrite agx_name_blocks_length, Hbs, !length_app. done.
  - intros i blk. rewrite agx_name_blocks_lookup by lia.
    destruct (_ !! i) as [blk0|]; [|done]. intros [= <-]. cbn.
    split; [done|]. intros Hi. apply Z.mod_small. lia.
  - intros i blk Hi. rewrite agx_name_blocks_lookup by lia.
    rewrite lookup_app_l by (by eapply lookup_lt_Some).
    rewrite Hi. cbn. eauto.
  - rewrite agx_name_blocks_lookup by lia.
    rewrite lookup_app_r by done. rewrite Nat.sub_diag. cbn. eauto.
Qed.

(** ** The optimization loop *)

Lemma NIR_PASS_progress pass st :
  fst (NIR_PASS pass st) = false ->
  fst st = false /\ fst (pass (snd st)) = false.
Proof.
  destruct st as [progress shader_nir]. unfold NIR_PASS. cbn.
  destruct (pass shader_nir) as [[] ?]; cbn; [done|]. by destruct progress.
Qed.

Lemma fold_NIR_PASS_quiet passes st :
  fst (fold_left (fun st pass => NIR_PASS pass st) passes st) = false ->
  fst st = false.
Proof.
  revert st. induction passes as [|pass passes IH]; intros st; cbn; [done|].
  intros H%IH. by apply NIR_PASS_progress in H as [? _].
Qed.

(** When the loop is left, its last iteration started from some shader on
    which it reported no progress, and the loop returns what that
    iteration left. *)
Lemma agx_optimize_loop_exit P fuel shader_nir result_nir :
  agx_optimize_loop P fuel shader_nir = Some result_nir ->
  exists last_input,
    agx_optimize_iteration P last_input = (false, result_nir).
Proof.
  revert shader_nir. induction fuel as [|fuel IH]; intros shader_nir; [done|].
  cbn [agx_optimize_loop].
  destruct (agx_optimize_iteration P shader_nir) as [[] next] eqn:Hit.
  - apply IH.
  - intros [= <-]. by exists shader_nir.
Qed.

(** More fuel does not change a result. *)
Lemma agx_optimize_loop_fuel P fuel fuel' shader_nir result_nir :
  (fuel <= fuel')%nat ->
  agx_optimize_loop P fuel shader_nir = Some result_nir ->
  agx_optimize_loop P fuel' shader_nir = Some result_nir.
Proof.
  revert fuel' shader_nir.
  induction fuel as [|fuel IH]; intros fuel' shader_nir Hle; [done|].
  destruct fuel' as [|fuel']; [lia|]. cbn [agx_optimize_loop].
  destruct (agx_optimize_iteration P shader_nir) as [[] next]; [|done].
  apply IH. lia.
Qed.

(** * Further properties of the selector *)

(** ** Emission only appends *)

Lemma grow_lookup_ne b blk new a i :
  i <> cursor b ->
  blocks (shader (grow b blk new a)) !! i = blocks (shader b) !! i.
Proof. intros Hi. cbn. by apply list_lookup_insert_ne. Qed.

Lemma grow_length b blk new a :
  length (blocks (shader (grow b blk new a))) = length (blocks (shader b)).
Proof. cbn. apply length_insert. Qed.

(** X1.  When [agx_emit_instr] accepts an instruction, the builder it
    returns differs from the one it got in the block the cursor is after
    and in the counter only: the cursor, the shader, the stage, the key
    and the number of blocks are the same, every other block is as it
    was, and the current block keeps its predecessors, its name and its
    instructions, with the emitted ones after them. *)
Theorem agx_emit_instr_appends
    (instr : nir_instr) (b b' : agx_builder) (blk : agx_block) :
  blocks (shader b) !! cursor b = Some blk ->
  agx_emit_instr instr b = Ok (tt, b') ->
  cursor b' = cursor b
  /\ nir (shader b') = nir (shader b)
  /\ stage (shader b') = stage (shader b)
  /\ key (shader b') = key (shader b)
  /\ length (blocks (shader b')) = length (blocks (shader b))
  /\ (forall i, i <> cursor b ->
        blocks (shader b') !! i = blocks (shader b) !! i)
  /\ exists code blk',
       blocks (shader b') !! cursor b = Some blk'
       /\ instructions blk' = instructions blk ++ code
       /\ predecessors blk' = predecessors blk
       /\ name blk' = name blk.
Proof.
  intros Hb. rewrite (agx_emit_instr_frame _ _ _ Hb).
  destruct (selected (shader b) instr) as [[code a']|]; [|done].
  intros [= <-]. repeat split.
  - apply grow_length.
  - intros i Hi. by apply grow_lookup_ne.
  - exists code, (set_instructions blk (instructions blk ++ code)).
    split; [|done]. exact (grow_lookup b blk code a' Hb).
Qed.

(** ** What the intrinsic path accepts *)

Lemma is_fatal_not_ok {A} (r : result A) : is_fatal r -> is_ok r = false.
Proof. by destruct r. Qed.

Lemma agx_emit_load_vary_accepts instr b blk :
  blocks (shader b) !! cursor b = Some blk ->
  is_ok (agx_emit_load_vary instr b) = load_vary_accepted instr.
Proof.
  intros Hb. rewrite agx_emit_load_vary_eq, Hb.
  unfold load_vary_accepted, constant_offset.
  destruct (nir_intrinsic_op_eqb (intrinsic instr) _); [|done].
  destruct (intr_src instr !! 0%nat) as [s0|]; [|done].
  destruct (nir_src_as_intrinsic s0) as [parent|]; [|done].
  destruct (nir_intrinsic_op_eqb parent _); [|done].
  destruct (nir_get_io_offset_src instr) as [offset|]; [|done].
  by destruct (nir_src_is_const offset).
Qed.

Lemma agx_emit_store_vary_accepts instr b blk :
  blocks (shader b) !! cursor b = Some blk ->
  is_ok (agx_emit_store_vary instr b) = store_vary_accepted instr.
Proof.
  intros Hb. rewrite agx_emit_store_vary_eq, Hb.
  unfold store_vary_accepted, constant_offset.
  destruct (nir_get_io_offset_src instr) as [offset|]; [|done].
  destruct (nir_src_is_const offset); [|done].
  destruct (nir_intrinsic_write_mask instr =? 1); [|done].
  by destruct (intr_src instr !! 0%nat).
Qed.

Lemma agx_emit_fragment_out_accepts instr b blk :
  blocks (shader b) !! cursor b = Some blk ->
  is_ok (agx_emit_fragment_out instr b) = fragment_out_accepted (shader b) instr.
Proof.
  intros Hb. rewrite agx_emit_fragment_out_eq, Hb.
  unfold fragment_out_accepted.
  destruct (nir_find_variable_with_driver_location _ _ _) as [var|]; [|done].
  destruct (data_index var =? 0); [|done].
  destruct (location_supported var); [|done].
  destruct (intr_src instr !! 0%nat) as [s0|]; [|done].
  by destruct (key (shader b)).
Qed.

Lemma agx_emit_intrinsic_ok instr b blk :
  blocks (shader b) !! cursor b = Some blk ->
  is_ok (agx_emit_intrinsic instr b) = intrinsic_accepted (shader b) instr.
Proof.
  intros Hb. unfold agx_emit_intrinsic, bind, get_shader, intrinsic_accepted.
  destruct (intrinsic instr) eqn:Hi; try done;
    destruct (stage (shader b)); try done;
    eauto using agx_emit_load_vary_accepts, agx_emit_store_vary_accepts,
                agx_emit_fragment_out_accepts.
Qed.

(** X2.  With the cursor after a block, [agx_emit_intrinsic] accepts an
    intrinsic exactly when [intrinsic_accepted] holds: a barycentric
    load; at the fragment stage an interpolated load fed by the pixel
    barycentrics with a constant offset, or an output store whose
    variable is found with dual-source index 0 at the colour or data-0
    location, with its source and a key; at the vertex stage an output
    store with a constant offset, write mask 1 and its source.  So an
    input load at the vertex stage, a flat input load, and any input load
    or output store at another stage always abort, and acceptance does
    not depend on the counter or on the blocks. *)
Theorem agx_emit_intrinsic_accepts
    (instr : nir_intrinsic_instr) (b : agx_builder) (blk : agx_block) :
  blocks (shader b) !! cursor b = Some blk ->
  is_ok (agx_emit_intrinsic instr b) = intrinsic_accepted (shader b) instr
  /\ (stage (shader b) = MESA_SHADER_VERTEX ->
      intrinsic instr = nir_intrinsic_load_input
      \/ intrinsic instr = nir_intrinsic_load_interpolated_input ->
      agx_emit_intrinsic instr b = Fatal "" (unreachable_reached "stub"))
  /\ (stage (shader b) <> MESA_SHADER_VERTEX ->
      stage (shader b) <> MESA_SHADER_FRAGMENT ->
      handled_case (intrinsic instr) = true ->
      agx_emit_intrinsic instr b
      = Fatal "" (unreachable_reached "Unsupported shader stage"))
  /\ (intrinsic instr = nir_intrinsic_load_input ->
      is_ok (agx_emit_intrinsic instr b) = false).
Proof.
  intros Hb. split; [by eapply agx_emit_intrinsic_ok|]. split; [|split].
  - intros Hst Hi. unfold agx_emit_intrinsic, bind, get_shader.
    rewrite Hst. by destruct Hi as [-> | ->].
  - intros Hv Hf Hh. unfold agx_emit_intrinsic, bind, get_shader.
    destruct (intrinsic instr); try done; by destruct (stage (shader b)).
  - intros Hi. rewrite (agx_emit_intrinsic_ok _ _ _ Hb).
    unfold intrinsic_accepted. rewrite Hi.
    destruct (stage (shader b)); try done.
    unfold load_vary_accepted. by rewrite Hi.
Qed.

(** ** What the ALU path accepts *)

Lemma alu_src_accepted_lower instr srcs n a :
  alu_src_accepted instr srcs n = true ->
  exists c o a1, lower_nth instr srcs n a = Some (c, o, a1).
Proof.
  unfold alu_src_accepted, lower_nth. destruct (_ >? _); [|by eauto].
  destruct (alu_src instr !! n) as [s|]; [|done]. intros ->.
  destruct (lower_src s a) as [[c o] a1]. eauto.
Qed.

Lemma alu_src_or_null_reject instr srcs n b :
  alu_src_accepted instr srcs n = false ->
  is_fatal (alu_src_or_null instr srcs n b).
Proof.
  unfold alu_src_accepted, alu_src_or_null. destruct (_ >? _); [|done].
  unfold bind, array_read. destruct (alu_src instr !! n) as [s|]; [|done].
  apply agx_alu_src_index_fatal.
Qed.

Lemma alu_operands_and_switch_reject instr srcs b :
  alu_src_accepted instr srcs 0 && alu_src_accepted instr srcs 1
  && alu_src_accepted instr srcs 2 && alu_src_accepted instr srcs 3
  && is_vec234 (op instr) = false ->
  is_fatal (alu_operands_and_switch instr srcs b).
Proof.
  intros Hrej.
  destruct (is_vec234 (op instr)) eqn:Hop;
    [|by apply alu_operands_and_switch_other].
  rewrite andb_true_r in Hrej.
  unfold alu_operands_and_switch, bind.
  pose proof (fun n b' => alu_src_or_null_reject instr srcs n b') as Hf.
  destruct (alu_src_accepted instr srcs 0) eqn:H0;
    [|specialize (Hf 0%nat b H0);
      by destruct (alu_src_or_null instr srcs 0 b) as [[??]|]].
  destruct (alu_src_or_null instr srcs 0 b) as [[s0 b0]|]; [|done].
  destruct (alu_src_accepted instr srcs 1) eqn:H1;
    [|specialize (Hf 1%nat b0 H1);
      by destruct (alu_src_or_null instr srcs 1 b0) as [[??]|]].
  destruct (alu_src_or_null instr srcs 1 b0) as [[s1 b1]|]; [|done].
  destruct (alu_src_accepted instr srcs 2) eqn:H2;
    [|specialize (Hf 2%nat b1 H2);
      by destruct (alu_src_or_null instr srcs 2 b1) as [[??]|]].
  destruct (alu_src_or_null instr srcs 2 b1) as [[s2 b2]|]; [|done].
  destruct (alu_src_accepted instr srcs 3) eqn:H3; [done|].
  specialize (Hf 3%nat b2 H3).
  by destruct (alu_src_or_null instr srcs 3 b2) as [[??]|].
Qed.

Lemma alu_accepted_inv instr :
  alu_accepted instr = true ->
  let srcs := to_unsigned (num_inputs (nir_op_infos (op instr))) in
  ((nir_dest_num_components (dest (alu_dest instr)) =? 1)
   || nir_op_is_vec (op instr)) = true
  /\ bit_size_ok (nir_dest_bit_size (dest (alu_dest instr))) = true
  /\ alu_src_accepted instr srcs 0 = true
  /\ alu_src_accepted instr srcs 1 = true
  /\ alu_src_accepted instr srcs 2 = true
  /\ alu_src_accepted instr srcs 3 = true
  /\ is_vec234 (op instr) = true.
Proof.
  unfold alu_accepted. cbn zeta. rewrite !andb_true_iff. tauto.
Qed.

(** The first source is there whenever the opcode has inputs and the
    sources are accepted, so the read of its width is no obstacle. *)
Lemma alu_src_accepted_first instr :
  let srcs := to_unsigned (num_inputs (nir_op_infos (op instr))) in
  alu_src_accepted instr srcs 0 = true ->
  (negb (srcs =? 0) && negb (bool_decide (is_Some (alu_src instr !! 0%nat))))%bool
  = false.
Proof.
  cbn zeta. unfold alu_src_accepted.
  pose proof (to_unsigned_range (num_inputs (nir_op_infos (op instr)))) as Hr.
  destruct (Z.eqb_spec (to_unsigned (num_inputs (nir_op_infos (op instr)))) 0)
    as [E|E]; [done|].
  assert ((to_unsigned (num_inputs (nir_op_infos (op instr))) >? Z.of_nat 0)
          = true) as -> by (apply Z.gtb_lt; lia).
  destruct (alu_src instr !! 0%nat) as [s|]; [|done]. intros _.
  by rewrite bool_decide_true by eauto.
Qed.

(** An accepted instruction runs as the chain of its four operand
    lowerings and the combine. *)
Lemma agx_emit_alu_accepted_run instr b blk :
  blocks (shader b) !! cursor b = Some blk ->
  alu_accepted instr = true ->
  exists c0 o0 a1 c1 o1 a2 c2 o2 a3 c3 o3 a4,
    let srcs := to_unsigned (num_inputs (nir_op_infos (op instr))) in
    lower_nth instr srcs 0 (alloc (shader b)) = Some (c0, o0, a1)
    /\ lower_nth instr srcs 1 a1 = Some (c1, o1, a2)
    /\ lower_nth instr srcs 2 a2 = Some (c2, o2, a3)
    /\ lower_nth instr srcs 3 a3 = Some (c3, o3, a4)
    /\ agx_emit_alu instr b
       = Ok ({| in_block := cursor b;
                at_pos := length (instructions blk ++ c0 ++ c1 ++ c2 ++ c3) |},
             grow b blk
               ((c0 ++ c1 ++ c2 ++ c3)
                ++ [mk_instr AGX_OPCODE_P_COMBINE
                      (agx_dest_index (dest (alu_dest instr)))
                      [o0; o1; o2; o3] 0 0])
               a4).
Proof.
  intros Hb Hacc.
  pose proof (alu_accepted_inv _ Hacc) as (Hc & Hsz & H0 & H1 & H2 & H3 & Hop).
  cbn zeta in *.
  destruct (alu_src_accepted_lower _ _ _ (alloc (shader b)) H0)
    as (c0 & o0 & a1 & E0).
  destruct (alu_src_accepted_lower _ _ _ a1 H1) as (c1 & o1 & a2 & E1).
  destruct (alu_src_accepted_lower _ _ _ a2 H2) as (c2 & o2 & a3 & E2).
  destruct (alu_src_accepted_lower _ _ _ a3 H3) as (c3 & o3 & a4 & E3).
  exists c0, o0, a1, c1, o1, a2, c2, o2, a3, c3, o3, a4.
  repeat split; try done.
  rewrite agx_emit_alu_unfold. cbn zeta.
  rewrite (alu_src_accepted_first _ H0), Hc, Hsz. cbn [negb].
  rewrite (alu_operands_chain _ _ _ _ _ _ _ _ _ _ _ _ _ _ _ _ Hb E0 E1 E2 E3).
  rewrite (alu_switch_vec _ _ _ _ _ _ _ (grow_lookup _ _ _ _ Hb) Hop).
  by rewrite cursor_grow, alloc_grow, grow_grow.
Qed.

Lemma agx_emit_alu_ok instr b blk :
  blocks (shader b) !! cursor b = Some blk ->
  is_ok (agx_emit_alu instr b) = alu_accepted instr.
Proof.
  intros Hb. destruct (alu_accepted instr) eqn:Hacc.
  - destruct (agx_emit_alu_accepted_run _ _ _ Hb Hacc)
      as (c0 & o0 & a1 & c1 & o1 & a2 & c2 & o2 & a3 & c3 & o3 & a4
          & _ & _ & _ & _ & ->).
    done.
  - apply is_fatal_not_ok. rewrite agx_emit_alu_unfold. cbn zeta.
    unfold alu_accepted in Hacc. cbn zeta in Hacc.
    destruct (_ && negb (bool_decide _))%bool; [done|].
    destruct ((_ =? 1) || _); [|done].
    destruct (bit_size_ok _); [|done]. cbn [negb andb] in *.
    apply alu_operands_and_switch_reject.
    by rewrite <- !andb_assoc in Hacc |- *.
Qed.

(** X3.  With the cursor after a block, [agx_emit_alu] accepts an ALU
    instruction exactly when [alu_accepted] holds: the opcode is the 2-,
    3- or 4-way pack, the destination has one component or the opcode is
    a vector opcode, its width is 16, 32 or 64, and each of the first
    sources up to the opcode's input count (four at most) is there, has
    width 16, 32 or 64, no modifier, and a selected channel below its
    component count.  Acceptance does not depend on the counter or on
    the blocks, and a legalized pack is accepted. *)
Theorem agx_emit_alu_accepts
    (instr : nir_alu_instr) (b : agx_builder) (blk : agx_block) :
  blocks (shader b) !! cursor b = Some blk ->
  is_ok (agx_emit_alu instr b) = alu_accepted instr
  /\ (alu_legalized instr = true -> is_vec234 (op instr) = true ->
      alu_accepted instr = true).
Proof.
  intros Hb. split; [by eapply agx_emit_alu_ok|].
  intros Hleg Hop.
  pose proof Hleg as (Hc & Hsz & Hlen & Hall)%alu_legalized_inv.
  unfold alu_accepted. cbn zeta. rewrite Hc, Hsz, Hop. cbn [andb].
  rewrite andb_true_r.
  assert (forall n,
             alu_src_accepted instr
               (to_unsigned (num_inputs (nir_op_infos (op instr)))) n = true)
    as Hn.
  { intros n. unfold alu_src_accepted.
    destruct (_ >? _) eqn:Hgt; [|done].
    destruct (alu_legalized_source instr n Hleg) as [s Hs]; [lia|].
    rewrite Hs. by eapply Hall. }
  by rewrite !Hn.
Qed.

(** ** What the walk over a control-flow list accepts *)

Lemma agx_emit_load_const_ok instr b blk :
  blocks (shader b) !! cursor b = Some blk ->
  is_ok (agx_emit_load_const instr b) = load_const_accepted instr.
Proof.
  intros Hb.
  unfold agx_emit_load_const, load_const_accepted, bind, assert, array_read,
    agx_mov_imm_to, ret.
  destruct (_ =? 1); [|done]. destruct ((_ =? 16) || _); [|done].
  destruct (value instr !! 0%nat); [|done]. cbn.
  by rewrite (agx_builder_insert_run _ _ _ Hb).
Qed.

Lemma agx_emit_instr_ok instr b blk :
  blocks (shader b) !! cursor b = Some blk ->
  is_ok (agx_emit_instr instr b) = instr_accepted (shader b) instr.
Proof.
  intros Hb. destruct instr as [i| | | |i|i| | | |];
    cbn [agx_emit_instr instr_accepted]; try done.
  - unfold bind. rewrite <- (agx_emit_alu_ok i b blk Hb).
    by destruct (agx_emit_alu i b) as [[]|].
  - by eapply agx_emit_intrinsic_ok.
  - by eapply agx_emit_load_const_ok.
Qed.

(** Acceptance reads the variables of the shader, the stage and the key
    of the context. *)
Lemma instr_accepted_env c1 c2 instr :
  variables (nir c1) = variables (nir c2) ->
  stage c1 = stage c2 -> key c1 = key c2 ->
  instr_accepted c1 instr = instr_accepted c2 instr.
Proof.
  intros Hn Hs Hk. destruct instr; cbn [instr_accepted]; try done.
  unfold intrinsic_accepted, fragment_out_accepted,
    nir_find_variable_with_driver_location.
  by rewrite Hn, Hs, Hk.
Qed.

Lemma instrs_accepted_env c1 c2 instrs :
  variables (nir c1) = variables (nir c2) ->
  stage c1 = stage c2 -> key c1 = key c2 ->
  forallb (instr_accepted c1) instrs = forallb (instr_accepted c2) instrs.
Proof.
  intros Hn Hs Hk. induction instrs as [|instr rest IH]; [done|].
  cbn [forallb]. by rewrite IH, (instr_accepted_env c1 c2 instr Hn Hs Hk).
Qed.

Lemma cf_nodes_accepted_env c1 c2 list :
  variables (nir c1) = variables (nir c2) ->
  stage c1 = stage c2 -> key c1 = key c2 ->
  forallb (cf_node_accepted c1) list = forallb (cf_node_accepted c2) list.
Proof.
  intros Hn Hs Hk. induction list as [|node rest IH]; [done|].
  cbn [forallb]. rewrite IH. f_equal.
  destruct node; cbn [cf_node_accepted]; try done.
  by apply instrs_accepted_env.
Qed.

Lemma foreach_emit_instr_ok instrs b blk :
  blocks (shader b) !! cursor b = Some blk ->
  is_ok (foreach instrs agx_emit_instr b)
  = forallb (instr_accepted (shader b)) instrs.
Proof.
  revert b blk. induction instrs as [|instr rest IH]; intros b blk Hb; [done|].
  cbn [foreach forallb]. unfold bind.
  rewrite <- (agx_emit_instr_ok instr b blk Hb).
  rewrite (agx_emit_instr_frame _ _ _ Hb).
  destruct (selected (shader b) instr) as [[code a']|]; [|done].
  cbn [is_ok andb]. rewrite (IH _ _ (grow_lookup b blk code a' Hb)).
  by apply instrs_accepted_env.
Qed.

Lemma emit_block_ok ctx instrs :
  is_ok (emit_block ctx instrs) = forallb (instr_accepted ctx) instrs.
Proof.
  unfold emit_block, agx_after_block.
  set (b := agx_init_builder (set_blocks ctx (blocks ctx ++ [agx_create_block]))
              (length (blocks ctx))).
  assert (blocks (shader b) !! cursor b = Some agx_create_block) as Hb.
  { cbn. rewrite lookup_app_r by done. by rewrite Nat.sub_diag. }
  rewrite (instrs_accepted_env ctx (shader b)) by done.
  rewrite <- (foreach_emit_instr_ok instrs b _ Hb).
  by destruct (foreach instrs agx_emit_instr b) as [[[] b']|].
Qed.

Lemma emit_cf_nodes_ok list ctx start :
  is_ok (emit_cf_nodes ctx start list) = forallb (cf_node_accepted ctx) list.
Proof.
  revert ctx start. induction list as [|node rest IH]; intros ctx start; [done|].
  cbn [emit_cf_nodes forallb]. destruct node as [instrs| | |]; try done.
  cbn [cf_node_accepted]. rewrite <- (emit_block_ok ctx instrs).
  pose proof (emit_block_spec ctx instrs) as Hspec.
  destruct (emit_block ctx instrs) as [[blk ctx']|]; [|done].
  destruct Hspec as (_ & code & a' & _ & ->).
  cbn [is_ok andb]. rewrite IH. by apply cf_nodes_accepted_env.
Qed.

(** X4.  Whether [emit_cf_list] gets through a control-flow list is
    decided by the list, the shader's variables, the stage and the
    presence of a key: it does exactly when every node is a block all of
    whose instructions the selector accepts ([cf_node_accepted]).  The
    blocks already in the context and the value of the counter play no
    part. *)
Theorem emit_cf_list_accepts (ctx : agx_context) (list : list nir_cf_node) :
  is_ok (emit_cf_list ctx list) = forallb (cf_node_accepted ctx) list
  /\ forall bs a,
       is_ok (emit_cf_list (set_alloc (set_blocks ctx bs) a) list)
       = is_ok (emit_cf_list ctx list).
Proof.
  split; [apply emit_cf_nodes_ok|].
  intros bs a. unfold emit_cf_list. rewrite !emit_cf_nodes_ok.
  by apply cf_nodes_accepted_env.
Qed.

(** ** Walking a list in two parts *)

Lemma emit_cf_nodes_app l1 l2 ctx start :
  emit_cf_nodes ctx start (l1 ++ l2)
  = match emit_cf_nodes ctx start l1 with
    | Ok (s, ctx') => emit_cf_nodes ctx' s l2
    | Fatal e w => Fatal e w
    end.
Proof.
  revert ctx start. induction l1 as [|node rest IH]; intros ctx start; [done|].
  cbn [app emit_cf_nodes]. destruct node as [instrs| | |]; try done.
  destruct (emit_block ctx instrs) as [[blk ctx1]|]; [apply IH|done].
Qed.

(** The start block that is already known is returned; the walk does not
    depend on it otherwise. *)
Lemma emit_cf_nodes_start list ctx s :
  emit_cf_nodes ctx (Some s) list
  = match emit_cf_nodes ctx None list with
    | Ok (_, ctx') => Ok (Some s, ctx')
    | Fatal e w => Fatal e w
    end.
Proof.
  assert (forall list ctx s0,
             emit_cf_nodes ctx (Some s0) list
             = match emit_cf_nodes ctx (Some s) list with
               | Ok (_, ctx') => Ok (Some s0, ctx')
               | Fatal e w => Fatal e w
               end) as Hany.
  { clear. intros list. induction list as [|node rest IH]; intros ctx s0; [done|].
    cbn [emit_cf_nodes]. destruct node as [instrs| | |]; try done.
    destruct (emit_block ctx instrs) as [[blk ctx1]|]; [apply IH|done]. }
  revert ctx. destruct list as [|node rest]; intros ctx; [done|].
  cbn [emit_cf_nodes]. destruct node as [instrs| | |]; try done.
  destruct (emit_block ctx instrs) as [[blk ctx1]|]; [|done].
  rewrite (Hany rest ctx1 blk), (Hany rest ctx1 s).
  by destruct (emit_cf_nodes ctx1 (Some s) rest) as [[? ?]|].
Qed.

(** X5.  Walking the concatenation of two control-flow lists is walking
    the first and then, from the context so obtained, the second: the
    first abort met is the result, the blocks of the second list come
    after those of the first, and the start block is that of the first
    list unless it created none. *)
Theorem emit_cf_list_app (ctx : agx_context) (l1 l2 : list nir_cf_node) :
  emit_cf_list ctx (l1 ++ l2)
  = match emit_cf_list ctx l1 with
    | Ok (s1, ctx1) =>
        match emit_cf_list ctx1 l2 with
        | Ok (s2, ctx2) =>
            Ok (match s1 with Some s => Some s | None => s2 end, ctx2)
        | Fatal e w => Fatal e w
        end
    | Fatal e w => Fatal e w
    end.
Proof.
  unfold emit_cf_list. rewrite emit_cf_nodes_app.
  destruct (emit_cf_nodes ctx None l1) as [[[s|] ctx1]|]; try done.
  - rewrite emit_cf_nodes_start.
    by destruct (emit_cf_nodes ctx1 None l2) as [[? ?]|].
  - by destruct (emit_cf_nodes ctx1 None l2) as [[? ?]|].
Qed.

(** ** The walk over the functions *)

Lemma agx_emit_functions_first_body ctx funcs :
  agx_emit_functions ctx funcs
  = match first_body funcs with
    | None => Ok ctx
    | Some i =>
        match emit_cf_list (set_alloc ctx (to_unsigned (alloc ctx + ssa_alloc i)))
                (body i) with
        | Ok (_, ctx') => Ok ctx'
        | Fatal e w => Fatal e w
        end
    end.
Proof.
  induction funcs as [|func rest IH]; [done|].
  cbn [agx_emit_functions first_body]. by destruct (impl func).
Qed.

Lemma first_body_skip skipped funcs :
  Forall (fun g => impl g = None) skipped ->
  first_body (skipped ++ funcs) = first_body funcs.
Proof.
  induction 1 as [|g skipped Hg _ IH]; [done|].
  cbn [app first_body]. by rewrite Hg.
Qed.

Lemma agx_build_blocks_eq shader_nir :
  agx_build_blocks shader_nir
  = match first_body (functions shader_nir) with
    | None => Ok (initial_context shader_nir 0)
    | Some i =>
        match emit_cf_list
                (initial_context shader_nir (to_unsigned (ssa_alloc i)))
                (body i) with
        | Ok (_, ctx') => Ok ctx'
        | Fatal e w => Fatal e w
        end
    end.
Proof.
  unfold agx_build_blocks. rewrite agx_emit_functions_first_body.
  by destruct (first_body (functions shader_nir)).
Qed.

(** X6.  Of the functions of the shader, the driver translates the first
    one that has a body and no other: the bodiless functions before it
    are skipped, the counter is seeded with its [ssa_alloc], its body is
    walked with no block in the context, and whatever follows it in the
    list is never walked: the shader with those functions dropped gets
    through the build exactly when this one does. *)
Theorem agx_build_blocks_first_body
    (shader_nir : nir_shader) (skipped : list nir_function)
    (f : nir_function) (i : nir_function_impl) (rest : list nir_function) :
  functions shader_nir = skipped ++ f :: rest ->
  Forall (fun g => impl g = None) skipped ->
  impl f = Some i ->
  agx_build_blocks shader_nir
  = match emit_cf_list (initial_context shader_nir (to_unsigned (ssa_alloc i)))
            (body i) with
    | Ok (_, ctx) => Ok ctx
    | Fatal e w => Fatal e w
    end
  /\ forall other,
       functions other = skipped ++ [f]
       -> info_stage other = info_stage shader_nir
       -> variables other = variables shader_nir
       -> is_ok (agx_build_blocks other) = is_ok (agx_build_blocks shader_nir).
Proof.
  intros Hf Hskip Hi. split.
  - rewrite agx_build_blocks_eq, Hf, (first_body_skip _ _ Hskip).
    cbn [first_body]. by rewrite Hi.
  - intros other Hof Hst Hvars. rewrite !agx_build_blocks_eq, Hf, Hof.
    rewrite !(first_body_skip _ _ Hskip). cbn [first_body]. rewrite Hi.
    transitivity
      (is_ok (emit_cf_list (initial_context other (to_unsigned (ssa_alloc i)))
                (body i))).
    { by destruct (emit_cf_list (initial_context other _) (body i)) as [[? ?]|]. }
    transitivity
      (is_ok (emit_cf_list
                (initial_context shader_nir (to_unsigned (ssa_alloc i)))
                (body i))).
    { unfold emit_cf_list. rewrite !emit_cf_nodes_ok.
      by apply cf_nodes_accepted_env. }
    by destruct (emit_cf_list (initial_context shader_nir _) (body i))
      as [[? ?]|].
Qed.

(** ** What a build gives *)

Lemma emit_cf_nodes_shape list ctx start s ctx' :
  emit_cf_nodes ctx start list = Ok (s, ctx') ->
  nir ctx' = nir ctx /\ stage ctx' = stage ctx /\ key ctx' = key ctx
  /\ exists news,
       blocks ctx' = blocks ctx ++ news
       /\ length news = length list
       /\ Forall (fun blk => predecessors blk = [] /\ name blk = 0) news.
Proof.
  revert ctx start. induction list as [|node rest IH]; intros ctx start.
  - intros [= <- <-]. repeat split. exists []. by rewrite app_nil_r.
  - cbn [emit_cf_nodes]. destruct node as [instrs| | |]; try done.
    pose proof (emit_block_spec ctx instrs) as Hspec.
    destruct (emit_block ctx instrs) as [[blk ctx1]|]; [|done].
    destruct Hspec as (_ & code & a1 & _ & ->).
    intros (Hn & Hs & Hk & news & Hb & Hlen & Hall)%IH.
    repeat split; try done.
    exists (set_instructions agx_create_block code :: news).
    split; [|split].
    + rewrite Hb. cbn. by rewrite <- app_assoc.
    + cbn. by rewrite Hlen.
    + by constructor.
Qed.

Lemma agx_build_blocks_ok shader_nir :
  is_ok (agx_build_blocks shader_nir)
  = match first_body (functions shader_nir) with
    | None => true
    | Some i => forallb (cf_node_accepted (initial_context shader_nir 0)) (body i)
    end.
Proof.
  rewrite agx_build_blocks_eq.
  destruct (first_body (functions shader_nir)) as [i|]; [|done].
  rewrite <- (cf_nodes_accepted_env
                (initial_context shader_nir (to_unsigned (ssa_alloc i))))
    by done.
  rewrite <- emit_cf_nodes_ok with (start := None). unfold emit_cf_list.
  by destruct (emit_cf_nodes _ None (body i)) as [[? ?]|].
Qed.

Lemma agx_build_blocks_shape shader_nir ctx :
  agx_build_blocks shader_nir = Ok ctx ->
  nir ctx = shader_nir
  /\ stage ctx = info_stage shader_nir
  /\ key ctx = None
  /\ length (blocks ctx)
     = match first_body (functions shader_nir) with
       | None => 0%nat
       | Some i => length (body i)
       end
  /\ Forall (fun blk => predecessors blk = [] /\ name blk = 0) (blocks ctx).
Proof.
  rewrite agx_build_blocks_eq.
  destruct (first_body (functions shader_nir)) as [i|].
  - unfold emit_cf_list.
    destruct (emit_cf_nodes _ None (body i)) as [[s ctx']|] eqn:Hrun; [|done].
    intros [= ->].
    apply emit_cf_nodes_shape in Hrun
        as (Hn & Hs & Hk & news & Hb & Hlen & Hall).
    cbn in Hb. by rewrite Hb.
  - by intros [= <-].
Qed.

(** X7.  Building the blocks of a shader gets through exactly when every
    node of the body walked is a block all of whose instructions the
    selector accepts (always, when no function has a body).  The context
    it then gives is that of the shader and of its stage, still without
    a key, with one block per node of the body, each without
    predecessors and not yet named. *)
Theorem agx_build_blocks_accepts (shader_nir : nir_shader) :
  is_ok (agx_build_blocks shader_nir)
  = match first_body (functions shader_nir) with
    | None => true
    | Some i => forallb (cf_node_accepted (initial_context shader_nir 0)) (body i)
    end
  /\ forall ctx,
       agx_build_blocks shader_nir = Ok ctx ->
       nir ctx = shader_nir
       /\ stage ctx = info_stage shader_nir
       /\ key ctx = None
       /\ length (blocks ctx)
          = match first_body (functions shader_nir) with
            | None => 0%nat
            | Some i => length (body i)
            end
       /\ Forall (fun blk => predecessors blk = [] /\ name blk = 0) (blocks ctx).
Proof.
  split; [apply agx_build_blocks_ok|apply agx_build_blocks_shape].
Qed.

(** ** Fragment outputs through the driver *)

Lemma forallb_elem_false {A} (f : A -> bool) l x :
  x ∈ l -> f x = false -> forallb f l = false.
Proof.
  induction 1 as [y l|y z l _ IH]; cbn [forallb]; intros Hx.
  - by rewrite Hx.
  - rewrite IH by done. apply andb_false_r.
Qed.

(** X8.  The driver allocates its context zeroed and never stores a key
    into it, and [agx_emit_fragment_out] reads the tilebuffer format
    through the key: so a fragment shader whose walked body holds a
    [store_output] in one of its blocks never gets through
    [agx_compile_shader_nir]. *)
Theorem agx_compile_shader_nir_fragment_store
    (shader_nir : nir_shader) (i : nir_function_impl)
    (instrs : list nir_instr) (s : nir_intrinsic_instr) :
  info_stage shader_nir = MESA_SHADER_FRAGMENT ->
  first_body (functions shader_nir) = Some i ->
  nir_cf_node_block instrs ∈ body i ->
  nir_instr_type_intrinsic s ∈ instrs ->
  intrinsic s = nir_intrinsic_store_output ->
  is_fatal (agx_compile_shader_nir shader_nir).
Proof.
  intros Hst Hi Hblk Hin Hs.
  assert (is_ok (agx_build_blocks shader_nir) = false) as Hrej.
  { rewrite agx_build_blocks_eq, Hi.
    transitivity
      (is_ok (emit_cf_list
                (initial_context shader_nir (to_unsigned (ssa_alloc i)))
                (body i))).
    { by destruct (emit_cf_list _ (body i)) as [[? ?]|]. }
    unfold emit_cf_list. rewrite emit_cf_nodes_ok.
    eapply forallb_elem_false; [exact Hblk|]. cbn [cf_node_accepted].
    eapply forallb_elem_false; [exact Hin|]. cbn [instr_accepted].
    unfold intrinsic_accepted. rewrite Hs. cbn [stage initial_context].
    rewrite Hst. unfold fragment_out_accepted. cbn [key initial_context].
    apply andb_false_r. }
  unfold agx_compile_shader_nir.
  by destruct (agx_build_blocks shader_nir).
Qed.

(** ** The loop of the optimizer under passes that report honestly *)

Lemma fold_NIR_PASS_fixed passes shader_nir result_nir :
  Forall honest passes ->
  fold_left (fun st pass => NIR_PASS pass st) passes (false, shader_nir)
  = (false, result_nir) ->
  result_nir = shader_nir
  /\ Forall (fun pass => pass shader_nir = (false, shader_nir)) passes.
Proof.
  intros Hh. revert shader_nir.
  induction Hh as [|pass passes Hp _ IH]; intros shader_nir.
  - by intros [= <-].
  - cbn [fold_left]. intros Hrun.
    pose proof (f_equal fst Hrun) as Hq. cbn [fst] in Hq.
    apply fold_NIR_PASS_quiet in Hq.
    unfold NIR_PASS in Hq, Hrun.
    destruct (pass shader_nir) as [[] next] eqn:Hpass; [done|].
    apply Hp in Hpass as Hnext. subst next.
    apply IH in Hrun as [-> Hall]. split; [done|]. by constructor.
Qed.

Lemma fold_NIR_PASS_idle passes shader_nir :
  Forall (fun pass => pass shader_nir = (false, shader_nir)) passes ->
  fold_left (fun st pass => NIR_PASS pass st) passes (false, shader_nir)
  = (false, shader_nir).
Proof.
  induction 1 as [|pass passes Hp _ IH]; [done|].
  cbn [fold_left]. unfold NIR_PASS at 2. by rewrite Hp.
Qed.

Lemma agx_optimize_nir_eq P fuel shader_nir :
  agx_optimize_nir P fuel shader_nir
  = match agx_optimize_loop P fuel (run_passes (early_passes P) shader_nir) with
    | Some mid => Some (run_passes (late_passes P) mid)
    | None => None
    end.
Proof. reflexivity. Qed.

(** X9.  [agx_optimize_nir] runs six lowering passes, the loop, then
    nine cleanup passes.  If each pass of the loop leaves the shader as
    it is whenever it reports no progress, then the shader [mid] the
    loop hands to the cleanup passes is one on which each of the
    thirteen passes of the loop reports no progress and changes nothing,
    and on which the loop, run again, stops after one iteration with
    [mid] itself. *)
Theorem agx_optimize_nir_fixed_point
    (P : nir_passes) (fuel : nat) (shader_nir result_nir : nir_shader) :
  Forall honest (fixed_point_set P) ->
  agx_optimize_nir P fuel shader_nir = Some result_nir ->
  exists mid,
    agx_optimize_loop P fuel (run_passes (early_passes P) shader_nir) = Some mid
    /\ result_nir = run_passes (late_passes P) mid
    /\ Forall (fun pass => pass mid = (false, mid)) (fixed_point_set P)
    /\ forall fuel', agx_optimize_loop P (S fuel') mid = Some mid.
Proof.
  intros Hh. rewrite agx_optimize_nir_eq.
  destruct (agx_optimize_loop P fuel _) as [mid|] eqn:Hloop; [|done].
  intros [= <-]. exists mid. split; [done|]. split; [done|].
  destruct (agx_optimize_loop_exit _ _ _ _ Hloop) as [last Hlast].
  unfold agx_optimize_iteration in Hlast.
  destruct (fold_NIR_PASS_fixed _ _ _ Hh Hlast) as [-> Hall].
  split; [done|]. intros fuel'. cbn [agx_optimize_loop].
  unfold agx_optimize_iteration. by rewrite (fold_NIR_PASS_idle _ _ Hall).
Qed.

(** ** The driver from the shader to the named blocks *)

Lemma list_last_split {A} (l : list A) :
  l <> [] -> exists pre last, l = pre ++ [last].
Proof.
  induction l as [|x l IH] using rev_ind; [done|]. intros _. by exists l, x.
Qed.

(** X10.  For a shader whose walked body is not empty, the driver gets
    from the shader to the named blocks exactly when every node of that
    body is a block all of whose instructions the selector accepts; the
    epilogue then never fails, and the context has one block per node,
    the shader and the stage it started from, and no key. *)
Theorem agx_compile_shader_nir_accepts
    (shader_nir : nir_shader) (i : nir_function_impl) :
  first_body (functions shader_nir) = Some i ->
  body i <> [] ->
  is_ok (agx_compile_shader_nir shader_nir)
  = forallb (cf_node_accepted (initial_context shader_nir 0)) (body i)
  /\ forall ctx,
       agx_compile_shader_nir shader_nir = Ok ctx ->
       nir ctx = shader_nir
       /\ stage ctx = info_stage shader_nir
       /\ key ctx = None
       /\ length (blocks ctx) = length (body i).
Proof.
  intros Hi Hbody.
  pose proof (agx_build_blocks_ok shader_nir) as Hok.
  pose proof (agx_build_blocks_shape shader_nir) as Hshape.
  rewrite Hi in Hok, Hshape. unfold agx_compile_shader_nir.
  destruct (agx_build_blocks shader_nir) as [ctx0|]; [|by rewrite <- Hok].
  destruct (Hshape ctx0 eq_refl) as (Hn & Hs & Hk & Hlen & _).
  destruct (list_last_split (blocks ctx0)) as (pre & last & Hbs).
  { intros Hnil. rewrite Hnil in Hlen. by destruct (body i). }
  rewrite (agx_terminate_shader_run _ _ _ Hbs). split; [by rewrite <- Hok|].
  intros ctx [= <-]. cbn [nir stage key blocks set_blocks].
  repeat split; try done.
  rewrite agx_name_blocks_length, <- Hlen, Hbs, !length_app. done.
Qed.

(** ** What the selector reads *)

(** X11.  What [agx_emit_instr] does is decided by the instruction, the
    shader, the stage, the key and the counter: on two builders that
    agree on these, each with its cursor after a block, it aborts with
    the same diagnostic and the same abort on both, or appends the same
    instructions and leaves the same counter on both, whatever the
    blocks hold and wherever the cursors are. *)
Theorem agx_emit_instr_local
    (instr : nir_instr) (b1 b2 : agx_builder) (blk1 blk2 : agx_block) :
  nir (shader b1) = nir (shader b2) ->
  stage (shader b1) = stage (shader b2) ->
  key (shader b1) = key (shader b2) ->
  alloc (shader b1) = alloc (shader b2) ->
  blocks (shader b1) !! cursor b1 = Some blk1 ->
  blocks (shader b2) !! cursor b2 = Some blk2 ->
  match agx_emit_instr instr b1, agx_emit_instr instr b2 with
  | Ok (_, b1'), Ok (_, b2') =>
      exists code a', b1' = grow b1 blk1 code a' /\ b2' = grow b2 blk2 code a'
  | Fatal e1 w1, Fatal e2 w2 => e1 = e2 /\ w1 = w2
  | _, _ => False
  end.
Proof.
  intros Hn Hs Hk Ha H1 H2.
  pose proof (sim_instr instr b1 b2 blk1 blk2
                (conj Hn (conj Hs (conj Hk Ha))) H1 H2) as Hsim.
  destruct (agx_emit_instr instr b1) as [[[] b1']|],
           (agx_emit_instr instr b2) as [[[] b2']|]; try done.
  by destruct Hsim as [_ Hsim].
Qed.

End Selector.

(** * The selector on the sample inputs *)

Abbreviation sample_emit_intrinsic :=
  (agx_emit_intrinsic sample_size_for_bits sample_intrinsic_infos
     sample_get_io_offset_src sample_FRAG_RESULT_COLOR sample_FRAG_RESULT_DATA0).

Abbreviation sample_emit_alu :=
  (agx_emit_alu sample_size_for_bits sample_op_infos_other sample_op_is_vec).

Abbreviation sample_emit_cf_list :=
  (emit_cf_list sample_size_for_bits sample_intrinsic_infos
     sample_op_infos_other sample_op_is_vec sample_get_io_offset_src
     sample_FRAG_RESULT_COLOR sample_FRAG_RESULT_DATA0).

(** A 32-bit constant 42 becomes one move-immediate of 42; a 64-bit
    constant and a two-component constant abort. *)
Lemma agx_emit_load_const_witness :
  agx_emit_load_const sample_size_for_bits sample_load_const
    (sample_builder MESA_SHADER_VERTEX [])
  = Ok (tt, sample_after MESA_SHADER_VERTEX []
              [mk_instr AGX_OPCODE_MOV_IMM (agx_get_index 7 AGX_SIZE_32) [] 42 0]
              10)
  /\ is_fatal (agx_emit_load_const sample_size_for_bits sample_load_const64
                 (sample_builder MESA_SHADER_VERTEX []))
  /\ is_fatal (agx_emit_load_const sample_size_for_bits sample_load_const_vec2
                 (sample_builder MESA_SHADER_VERTEX [])).
Proof.
  split; [|split].
  - exact (proj1 (agx_emit_load_const_spec sample_size_for_bits
                    (sample_builder MESA_SHADER_VERTEX []) sample_load_const)
             agx_create_block 42 [] eq_refl eq_refl eq_refl
             (or_intror eq_refl)).
  - apply (proj1 (proj2 (proj2
             (agx_emit_load_const_spec sample_size_for_bits
                (sample_builder MESA_SHADER_VERTEX []) sample_load_const64)))).
    reflexivity.
  - apply (proj2 (proj2 (proj2 (proj2
             (agx_emit_load_const_spec sample_size_for_bits
                (sample_builder MESA_SHADER_VERTEX []) sample_load_const_vec2))))).
    reflexivity.
Defined.

(** At the vertex stage, a store with base 2, component 3 and constant
    offset 1 under write mask 1 becomes one store-varying at index
    4*2 + 3 + 1 = 12; under write mask 3 it aborts. *)
Lemma agx_emit_store_vary_witness :
  sample_emit_intrinsic (sample_store 1) (sample_builder MESA_SHADER_VERTEX [])
  = Ok (tt, sample_after MESA_SHADER_VERTEX []
              [mk_instr AGX_OPCODE_ST_VARY agx_null
                 [agx_immediate 12; agx_get_index 4 AGX_SIZE_32] 0 0]
              10)
  /\ is_fatal (sample_emit_intrinsic (sample_store 3)
                 (sample_builder MESA_SHADER_VERTEX [])).
Proof.
  split.
  - exact (proj1 (proj1 (agx_emit_store_vary_spec sample_size_for_bits
                           sample_intrinsic_infos sample_get_io_offset_src
                           sample_FRAG_RESULT_COLOR sample_FRAG_RESULT_DATA0
                           (sample_builder MESA_SHADER_VERTEX []) (sample_store 1))
                    agx_create_block (sample_const 1) sample_scalar
                    eq_refl eq_refl eq_refl eq_refl eq_refl eq_refl eq_refl)).
  - apply (proj2 (agx_emit_store_vary_spec sample_size_for_bits
                    sample_intrinsic_infos sample_get_io_offset_src
                    sample_FRAG_RESULT_COLOR sample_FRAG_RESULT_DATA0
                    (sample_builder MESA_SHADER_VERTEX []) (sample_store 3)));
      [reflexivity|reflexivity|discriminate].
Defined.

(** At the fragment stage, a smooth load of 3 components with base 1 and
    constant offset 2 becomes one load-varying at index 3 with mask
    0b111; a dynamic offset, a flat input and centroid barycentrics
    abort. *)
Lemma agx_emit_load_vary_witness :
  sample_emit_intrinsic sample_load_vary (sample_builder MESA_SHADER_FRAGMENT [])
  = Ok (tt, sample_after MESA_SHADER_FRAGMENT []
              [set_mask
                 (mk_instr AGX_OPCODE_LD_VARY (agx_get_index 5 AGX_SIZE_32)
                    [agx_immediate 3] 0 0) 7]
              10)
  /\ is_fatal (sample_emit_intrinsic sample_load_vary_dynamic
                 (sample_builder MESA_SHADER_FRAGMENT []))
  /\ is_fatal (sample_emit_intrinsic sample_load_flat
                 (sample_builder MESA_SHADER_FRAGMENT []))
  /\ is_fatal (sample_emit_intrinsic sample_load_vary_centroid
                 (sample_builder MESA_SHADER_FRAGMENT [])).
Proof.
  pose proof (agx_emit_load_vary_spec sample_size_for_bits
                sample_intrinsic_infos sample_get_io_offset_src
                sample_FRAG_RESULT_COLOR sample_FRAG_RESULT_DATA0
                (sample_builder MESA_SHADER_FRAGMENT [])) as T.
  split; [|split; [|split]].
  - exact (proj1 (proj1 (T sample_load_vary) agx_create_block
                    (sample_barycentric nir_intrinsic_load_barycentric_pixel)
                    (sample_const 2) eq_refl eq_refl eq_refl eq_refl eq_refl
                    eq_refl eq_refl)).
  - apply (proj1 (proj2 (T sample_load_vary_dynamic)) sample_scalar);
      reflexivity.
  - apply (proj1 (proj2 (proj2 (T sample_load_flat)))); reflexivity.
  - apply (proj2 (proj2 (proj2 (T sample_load_vary_centroid)))
             (sample_barycentric nir_intrinsic_load_barycentric_centroid));
      [reflexivity|reflexivity|reflexivity|discriminate].
Defined.

(** At the fragment stage, a store to the variable at the implicit
    colour location, with dual-source index 0, becomes writeout 0xC200,
    writeout 0x000C and a blend with the key's format of render target
    0; a variable at the data-1 location (render target 1) aborts, and
    so does a second dual-source output. *)
Lemma agx_emit_fragment_out_witness :
  sample_emit_intrinsic sample_store_color
    (sample_builder MESA_SHADER_FRAGMENT [sample_out_var 2 0])
  = Ok (tt, sample_after MESA_SHADER_FRAGMENT [sample_out_var 2 0]
              [mk_instr AGX_OPCODE_WRITEOUT agx_null [] 0xC200 0;
               mk_instr AGX_OPCODE_WRITEOUT agx_null [] 0x000C 0;
               mk_instr AGX_OPCODE_BLEND agx_null
                 [agx_get_index 3 AGX_SIZE_32] 0 100]
              10)
  /\ is_fatal (sample_emit_intrinsic sample_store_color
                 (sample_builder MESA_SHADER_FRAGMENT [sample_out_var 5 0]))
  /\ is_fatal (sample_emit_intrinsic sample_store_color
                 (sample_builder MESA_SHADER_FRAGMENT [sample_out_var 2 1])).
Proof.
  pose proof (fun vars =>
                agx_emit_fragment_out_spec sample_size_for_bits
                  sample_intrinsic_infos sample_get_io_offset_src
                  sample_FRAG_RESULT_COLOR sample_FRAG_RESULT_DATA0
                  (sample_builder MESA_SHADER_FRAGMENT vars) sample_store_color)
    as T.
  split; [|split].
  - exact (proj2 (proj1 (T [sample_out_var 2 0]) agx_create_block
                    (sample_out_var 2 0) sample_vec4 sample_key
                    eq_refl eq_refl eq_refl eq_refl (or_introl eq_refl)
                    eq_refl eq_refl eq_refl)).
  - apply (proj1 (proj2 (T [sample_out_var 5 0])) (sample_out_var 5 0));
      [reflexivity|reflexivity|reflexivity|discriminate].
  - apply (proj2 (proj2 (T [sample_out_var 2 1])) (sample_out_var 2 1));
      [reflexivity|reflexivity|reflexivity|discriminate].
Defined.

(** C1 as the spec states it fails here: the variable sits at the
    explicit data-0 location, so it resolves to render target 0, but it
    is the second output of a dual-source pair ([index = 1]) and the
    selector aborts on its assertion instead of emitting the three
    instructions; the block stays empty. *)
Lemma agx_emit_fragment_out_dual_source_counterexample :
  nir_find_variable_with_driver_location
    (nir (shader (sample_builder MESA_SHADER_FRAGMENT [sample_out_var 4 1])))
    nir_var_shader_out (to_unsigned (nir_intrinsic_base sample_store_color))
  = Some (sample_out_var 4 1)
  /\ data_location (sample_out_var 4 1) = sample_FRAG_RESULT_DATA0
  /\ render_target sample_FRAG_RESULT_COLOR sample_FRAG_RESULT_DATA0
       (sample_out_var 4 1) = 0
  /\ sample_emit_intrinsic sample_store_color
       (sample_builder MESA_SHADER_FRAGMENT [sample_out_var 4 1])
     = Fatal "" (assert_fail "var->data.index == 0 && todo: dual-source blending").
Proof. repeat split. Qed.

(** The pixel barycentrics are accepted and leave the builder as it is;
    an intrinsic outside the switch aborts with its name. *)
Lemma agx_emit_intrinsic_barycentric_witness :
  sample_emit_intrinsic sample_barycentric_instr
    (sample_builder MESA_SHADER_FRAGMENT [])
  = Ok (tt, sample_builder MESA_SHADER_FRAGMENT []).
Proof.
  exact (proj1 (agx_emit_intrinsic_barycentric sample_size_for_bits
                  sample_intrinsic_infos sample_op_infos_other sample_op_is_vec
                  sample_get_io_offset_src sample_FRAG_RESULT_COLOR
                  sample_FRAG_RESULT_DATA0
                  (sample_builder MESA_SHADER_FRAGMENT [])
                  sample_barycentric_instr eq_refl)).
Defined.

Lemma agx_emit_intrinsic_unhandled_witness :
  sample_emit_intrinsic sample_discard (sample_builder MESA_SHADER_FRAGMENT [])
  = Fatal ("Unhandled intrinsic discard" +:+ newline) (assert_fail "0")
  /\ is_barycentric (intrinsic sample_barycentric_instr) = true.
Proof.
  split.
  - exact (proj1 (agx_emit_intrinsic_unhandled sample_size_for_bits
                    sample_intrinsic_infos sample_get_io_offset_src
                    sample_FRAG_RESULT_COLOR sample_FRAG_RESULT_DATA0
                    (sample_builder MESA_SHADER_FRAGMENT []) sample_discard)
             eq_refl eq_refl).
  - exact (proj2 (agx_emit_intrinsic_unhandled sample_size_for_bits
                    sample_intrinsic_infos sample_get_io_offset_src
                    sample_FRAG_RESULT_COLOR sample_FRAG_RESULT_DATA0
                    (sample_builder MESA_SHADER_FRAGMENT [])
                    sample_barycentric_instr)
             (sample_builder MESA_SHADER_FRAGMENT []) eq_refl eq_refl).
Defined.

(** C2 as the spec states it fails here: [load_barycentric_pixel] is
    none of the handled cases, yet the selector does not abort on it; it
    accepts it and emits nothing. *)
Lemma agx_emit_intrinsic_skip_counterexample :
  handled_case (intrinsic sample_barycentric_instr) = false
  /\ intrinsic sample_barycentric_instr = nir_intrinsic_load_barycentric_pixel
  /\ sample_emit_intrinsic sample_barycentric_instr
       (sample_builder MESA_SHADER_FRAGMENT [])
     = Ok (tt, sample_builder MESA_SHADER_FRAGMENT []).
Proof. repeat split. Qed.

(** A [vec2] of a scalar and of channel 2 of a four-component value
    becomes one extract of that channel into the fresh register 10 and
    one combine of the scalar and of register 10; an [fadd] aborts with
    its name, a [vec8] is unreachable, a negated source aborts. *)
Lemma agx_emit_alu_witness :
  (exists ptr,
      sample_emit_alu sample_vec2 (sample_builder MESA_SHADER_VERTEX [])
      = Ok (ptr, sample_after MESA_SHADER_VERTEX []
                   [mk_instr AGX_OPCODE_P_EXTRACT (agx_get_index 10 AGX_SIZE_32)
                      [agx_get_index 3 AGX_SIZE_32] 2 0;
                    mk_instr AGX_OPCODE_P_COMBINE (agx_get_index 6 AGX_SIZE_32)
                      [agx_get_index 4 AGX_SIZE_32; agx_get_index 10 AGX_SIZE_32;
                       agx_null; agx_null] 0 0]
                   11))
  /\ sample_emit_alu sample_fadd (sample_builder MESA_SHADER_VERTEX [])
     = Fatal ("Unhandled ALU op fadd" +:+ newline)
             (unreachable_reached "Unhandled ALU instruction")
  /\ sample_emit_alu sample_vec8 (sample_builder MESA_SHADER_VERTEX [])
     = Fatal "" (unreachable_reached "should've been lowered")
  /\ is_fatal (sample_emit_alu sample_vec2_negated
                 (sample_builder MESA_SHADER_VERTEX [])).
Proof.
  pose proof (agx_emit_alu_spec sample_size_for_bits sample_op_infos_other
                sample_op_is_vec (sample_builder MESA_SHADER_VERTEX [])) as T.
  split; [|split; [|split]].
  - exact (proj1 (proj1 (T sample_vec2) agx_create_block
                    [mk_instr AGX_OPCODE_P_EXTRACT (agx_get_index 10 AGX_SIZE_32)
                       [agx_get_index 3 AGX_SIZE_32] 2 0]
                    [agx_get_index 4 AGX_SIZE_32; agx_get_index 10 AGX_SIZE_32]
                    11 eq_refl eq_refl eq_refl eq_refl)).
  - exact (proj1 (proj2 (proj2 (T sample_fadd))) agx_create_block 0%N
             eq_refl eq_refl eq_refl).
  - exact (proj1 (proj2 (proj2 (proj2 (T sample_vec8)))) agx_create_block
             eq_refl eq_refl (or_introl eq_refl)).
  - exact (proj2 (proj2 (proj2 (proj2 (T sample_vec2_negated)))) 0%nat
             (sample_alu_src sample_scalar true 0)
             ltac:(reflexivity) eq_refl (or_introl eq_refl)).
Defined.

(** A list of two block nodes, with the context holding one block
    already: two blocks are appended, the first with the move of the
    first body, the second with the move and the store of the second,
    and block 1, the first new one, is returned.  A list with a
    conditional aborts. *)
Lemma emit_cf_list_witness :
  sample_emit_cf_list (sample_context MESA_SHADER_VERTEX [])
    (map nir_cf_node_block sample_bodies)
  = Ok (Some 1%nat,
        {| nir := sample_shader MESA_SHADER_VERTEX [] [];
           stage := MESA_SHADER_VERTEX;
           key := Some sample_key;
           blocks :=
             [ agx_create_block;
               {| instructions :=
                    [mk_instr AGX_OPCODE_MOV_IMM (agx_get_index 7 AGX_SIZE_32)
                       [] 42 0];
                  predecessors := []; name := 0 |};
               {| instructions :=
                    [mk_instr AGX_OPCODE_MOV_IMM (agx_get_index 7 AGX_SIZE_32)
                       [] 42 0;
                     mk_instr AGX_OPCODE_ST_VARY agx_null
                       [agx_immediate 12; agx_get_index 4 AGX_SIZE_32] 0 0];
                  predecessors := []; name := 0 |} ];
           alloc := 10 |})
  /\ is_fatal (sample_emit_cf_list (sample_context MESA_SHADER_VERTEX [])
                 [nir_cf_node_block []; nir_cf_node_if]).
Proof.
  pose proof (emit_cf_list_spec sample_size_for_bits sample_intrinsic_infos
                sample_op_infos_other sample_op_is_vec sample_get_io_offset_src
                sample_FRAG_RESULT_COLOR sample_FRAG_RESULT_DATA0
                (sample_context MESA_SHADER_VERTEX [])) as T.
  split.
  - refine (proj1 (proj1 (proj1 (T _) sample_bodies eq_refl)
                     [set_instructions agx_create_block
                        ([mk_instr AGX_OPCODE_MOV_IMM
                            (agx_get_index 7 AGX_SIZE_32) [] 42 0] ++ []);
                      set_instructions agx_create_block
                        ([mk_instr AGX_OPCODE_MOV_IMM
                            (agx_get_index 7 AGX_SIZE_32) [] 42 0]
                         ++ [mk_instr AGX_OPCODE_ST_VARY agx_null
                               [agx_immediate 12; agx_get_index 4 AGX_SIZE_32]
                               0 0] ++ [])]
                     10 _)).
    eapply builds_cons.
    + eapply translates_cons; [reflexivity|apply translates_nil].
    + eapply builds_cons; [|apply builds_nil].
      eapply translates_cons; [reflexivity|].
      eapply translates_cons; [reflexivity|apply translates_nil].
  - exact (proj2 (T [nir_cf_node_block []; nir_cf_node_if]) eq_refl).
Defined.

(** C7 as the spec states it fails here: the list is one block node, but
    the block holds a texture instruction, which the selector does not
    translate: the walk aborts on the stub instead of returning a
    block. *)
Lemma emit_cf_list_unsupported_counterexample :
  forallb is_block [nir_cf_node_block [nir_instr_type_tex]] = true
  /\ sample_emit_cf_list (sample_context MESA_SHADER_FRAGMENT [])
       [nir_cf_node_block [nir_instr_type_tex]]
     = Fatal "" (unreachable_reached "stub").
Proof. repeat split. Qed.

(** The sample vertex shader: its second function has the body, two
    blocks are built, and the driver appends the stop and the eight traps
    to the second and names the blocks 0 and 1. *)
Lemma agx_compile_shader_nir_epilogue_witness :
  exists ctx',
    agx_compile_shader_nir sample_size_for_bits sample_intrinsic_infos
      sample_op_infos_other sample_op_is_vec sample_get_io_offset_src
      sample_FRAG_RESULT_COLOR sample_FRAG_RESULT_DATA0 sample_vertex_shader
    = Ok ctx'
    /\ map name (blocks ctx') = [0; 1]
    /\ map (fun blk => map i_op (instructions blk)) (blocks ctx')
       = [ [AGX_OPCODE_MOV_IMM];
           [AGX_OPCODE_MOV_IMM; AGX_OPCODE_ST_VARY; AGX_OPCODE_STOP;
            AGX_OPCODE_TRAP; AGX_OPCODE_TRAP; AGX_OPCODE_TRAP; AGX_OPCODE_TRAP;
            AGX_OPCODE_TRAP; AGX_OPCODE_TRAP; AGX_OPCODE_TRAP; AGX_OPCODE_TRAP] ].
Proof.
  destruct (agx_compile_shader_nir_epilogue sample_size_for_bits
              sample_intrinsic_infos sample_op_infos_other sample_op_is_vec
              sample_get_io_offset_src sample_FRAG_RESULT_COLOR
              sample_FRAG_RESULT_DATA0 sample_vertex_shader
              {| nir := sample_vertex_shader; stage := MESA_SHADER_VERTEX;
                 key := None;
                 blocks :=
                   [ {| instructions :=
                          [mk_instr AGX_OPCODE_MOV_IMM
                             (agx_get_index 7 AGX_SIZE_32) [] 42 0];
                        predecessors := []; name := 0 |};
                     {| instructions :=
                          [mk_instr AGX_OPCODE_MOV_IMM
                             (agx_get_index 7 AGX_SIZE_32) [] 42 0;
                           mk_instr AGX_OPCODE_ST_VARY agx_null
                             [agx_immediate 12; agx_get_index 4 AGX_SIZE_32]
                             0 0];
                        predecessors := []; name := 0 |} ];
                 alloc := 8 |}
              [ {| instructions :=
                     [mk_instr AGX_OPCODE_MOV_IMM
                        (agx_get_index 7 AGX_SIZE_32) [] 42 0];
                   predecessors := []; name := 0 |} ]
              {| instructions :=
                   [mk_instr AGX_OPCODE_MOV_IMM
                      (agx_get_index 7 AGX_SIZE_32) [] 42 0;
                    mk_instr AGX_OPCODE_ST_VARY agx_null
                      [agx_immediate 12; agx_get_index 4 AGX_SIZE_32] 0 0];
                 predecessors := []; name := 0 |}
              eq_refl eq_refl) as (ctx' & Hrun & _).
  exists ctx'. split; [exact Hrun|].
  vm_compute in Hrun. injection Hrun as <-. split; reflexivity.
Defined.

(** * Further properties on the sample inputs *)

Abbreviation sample_emit_instr :=
  (agx_emit_instr sample_size_for_bits sample_intrinsic_infos
     sample_op_infos_other sample_op_is_vec sample_get_io_offset_src
     sample_FRAG_RESULT_COLOR sample_FRAG_RESULT_DATA0).

Abbreviation sample_build_blocks :=
  (agx_build_blocks sample_size_for_bits sample_intrinsic_infos
     sample_op_infos_other sample_op_is_vec sample_get_io_offset_src
     sample_FRAG_RESULT_COLOR sample_FRAG_RESULT_DATA0).

Abbreviation sample_compile_shader_nir :=
  (agx_compile_shader_nir sample_size_for_bits sample_intrinsic_infos
     sample_op_infos_other sample_op_is_vec sample_get_io_offset_src
     sample_FRAG_RESULT_COLOR sample_FRAG_RESULT_DATA0).

(** The vertex-stage store on the sample builder: the block gets the
    store-varying and nothing else moves. *)
Lemma agx_emit_instr_appends_witness :
  sample_emit_instr (nir_instr_type_intrinsic (sample_store 1))
    (sample_builder MESA_SHADER_VERTEX [])
  = Ok (tt, sample_after MESA_SHADER_VERTEX []
              [mk_instr AGX_OPCODE_ST_VARY agx_null
                 [agx_immediate 12; agx_get_index 4 AGX_SIZE_32] 0 0]
              10)
  /\ exists code blk',
       blocks (shader (sample_after MESA_SHADER_VERTEX []
                         [mk_instr AGX_OPCODE_ST_VARY agx_null
                            [agx_immediate 12; agx_get_index 4 AGX_SIZE_32] 0 0]
                         10)) !! 0%nat
       = Some blk'
       /\ instructions blk' = [] ++ code
       /\ predecessors blk' = []
       /\ name blk' = 0.
Proof.
  split; [reflexivity|].
  exact (proj2 (proj2 (proj2 (proj2 (proj2 (proj2
           (agx_emit_instr_appends sample_size_for_bits sample_intrinsic_infos
              sample_op_infos_other sample_op_is_vec sample_get_io_offset_src
              sample_FRAG_RESULT_COLOR sample_FRAG_RESULT_DATA0
              (nir_instr_type_intrinsic (sample_store 1))
              (sample_builder MESA_SHADER_VERTEX [])
              (sample_after MESA_SHADER_VERTEX []
                 [mk_instr AGX_OPCODE_ST_VARY agx_null
                    [agx_immediate 12; agx_get_index 4 AGX_SIZE_32] 0 0]
                 10)
              agx_create_block eq_refl eq_refl))))))).
Defined.

(** At the vertex stage the sample store is accepted and the flat load
    runs into the stub; at the compute stage the store aborts on the
    stage. *)
Lemma agx_emit_intrinsic_accepts_witness :
  is_ok (sample_emit_intrinsic (sample_store 1)
           (sample_builder MESA_SHADER_VERTEX []))
  = true
  /\ sample_emit_intrinsic sample_load_flat (sample_builder MESA_SHADER_VERTEX [])
     = Fatal EmptyString (unreachable_reached "stub")
  /\ sample_emit_intrinsic (sample_store 1) (sample_builder MESA_SHADER_COMPUTE [])
     = Fatal EmptyString (unreachable_reached "Unsupported shader stage").
Proof.
  pose proof (fun st instr =>
                agx_emit_intrinsic_accepts sample_size_for_bits
                  sample_intrinsic_infos sample_get_io_offset_src
                  sample_FRAG_RESULT_COLOR sample_FRAG_RESULT_DATA0
                  instr (sample_builder st []) agx_create_block eq_refl) as T.
  split; [|split].
  - exact (proj1 (T MESA_SHADER_VERTEX (sample_store 1))).
  - exact (proj1 (proj2 (T MESA_SHADER_VERTEX sample_load_flat))
             eq_refl (or_introl eq_refl)).
  - apply (proj1 (proj2 (proj2 (T MESA_SHADER_COMPUTE (sample_store 1)))));
      [discriminate|discriminate|reflexivity].
Defined.

(** The sample pack of two sources is legalized, hence accepted; the
    sample addition is not. *)
Lemma agx_emit_alu_accepts_witness :
  is_ok (sample_emit_alu sample_vec2 (sample_builder MESA_SHADER_VERTEX []))
  = true
  /\ alu_accepted sample_op_infos_other sample_op_is_vec sample_vec2 = true
  /\ is_ok (sample_emit_alu sample_fadd (sample_builder MESA_SHADER_VERTEX []))
     = false.
Proof.
  pose proof (fun instr =>
                agx_emit_alu_accepts sample_size_for_bits sample_op_infos_other
                  sample_op_is_vec sample_FRAG_RESULT_COLOR instr
                  (sample_builder MESA_SHADER_VERTEX []) agx_create_block
                  eq_refl) as T.
  split; [|split].
  - exact (proj1 (T sample_vec2)).
  - exact (proj2 (T sample_vec2) eq_refl eq_refl).
  - exact (proj1 (T sample_fadd)).
Defined.

(** The sample vertex shader with a function the selector does not
    translate after the one that is walked: the build gets through as
    it does without that function. *)
Lemma agx_build_blocks_first_body_witness :
  functions sample_multi_shader
  = [ {| impl := None |} ]
    ++ {| impl := Some {| ssa_alloc := 8;
                          body := map nir_cf_node_block sample_bodies |} |}
       :: [sample_untranslated_function]
  /\ is_ok (sample_build_blocks sample_vertex_shader)
     = is_ok (sample_build_blocks sample_multi_shader)
  /\ is_ok (sample_build_blocks sample_multi_shader) = true.
Proof.
  pose proof (agx_build_blocks_first_body sample_size_for_bits
                sample_intrinsic_infos sample_op_infos_other sample_op_is_vec
                sample_get_io_offset_src sample_FRAG_RESULT_COLOR
                sample_FRAG_RESULT_DATA0 sample_multi_shader
                [ {| impl := None |} ]
                {| impl := Some {| ssa_alloc := 8;
                                   body := map nir_cf_node_block sample_bodies |} |}
                {| ssa_alloc := 8; body := map nir_cf_node_block sample_bodies |}
                [sample_untranslated_function]
                eq_refl ltac:(by repeat constructor) eq_refl)
    as [Hrun Hsame].
  split; [reflexivity|]. split.
  - exact (Hsame sample_vertex_shader eq_refl eq_refl eq_refl).
  - rewrite Hrun. reflexivity.
Defined.

(** The two blocks of the sample vertex shader are accepted, and the
    build gives two blocks. *)
Lemma agx_build_blocks_accepts_witness :
  is_ok (sample_build_blocks sample_vertex_shader) = true
  /\ exists ctx,
       sample_build_blocks sample_vertex_shader = Ok ctx
       /\ length (blocks ctx) = 2%nat /\ key ctx = None.
Proof.
  pose proof (agx_build_blocks_accepts sample_size_for_bits
                sample_intrinsic_infos sample_op_infos_other sample_op_is_vec
                sample_get_io_offset_src sample_FRAG_RESULT_COLOR
                sample_FRAG_RESULT_DATA0 sample_vertex_shader) as [Hok Hshape].
  split; [exact Hok|].
  destruct (sample_build_blocks sample_vertex_shader) as [ctx|] eqn:Hrun;
    [|discriminate Hok].
  exists ctx. split; [reflexivity|].
  destruct (Hshape ctx eq_refl) as (_ & _ & Hk & Hlen & _). by split.
Defined.

(** The sample fragment shader stores a colour output: the driver does
    not get through it. *)
Lemma agx_compile_shader_nir_fragment_store_witness :
  is_fatal (sample_compile_shader_nir sample_fragment_shader).
Proof.
  apply (agx_compile_shader_nir_fragment_store sample_size_for_bits
           sample_intrinsic_infos sample_op_infos_other sample_op_is_vec
           sample_get_io_offset_src sample_FRAG_RESULT_COLOR
           sample_FRAG_RESULT_DATA0 sample_fragment_shader
           {| ssa_alloc := 8;
              body := [nir_cf_node_block
                         [nir_instr_type_load_const sample_load_const;
                          nir_instr_type_intrinsic sample_store_color]] |}
           [nir_instr_type_load_const sample_load_const;
            nir_instr_type_intrinsic sample_store_color]
           sample_store_color).
  - reflexivity.
  - reflexivity.
  - constructor.
  - do 2 constructor.
  - reflexivity.
Defined.

Lemma sample_passes_honest : Forall honest (fixed_point_set sample_passes).
Proof.
  assert (honest sample_idle) as Hidle by (by intros n n' [= <-]).
  assert (honest sample_dce) as Hdce.
  { intros n n'. unfold sample_dce. by destruct (_ <? _)%nat; intros [= <-]. }
  repeat (constructor; [first [exact Hidle | exact Hdce]|]).
  constructor.
Qed.

(** With the sample passes, the loop drops the bodiless function of the
    sample vertex shader in its first iteration and stops after the
    second; on what it returns, no pass of the loop reports progress. *)
Lemma agx_optimize_nir_fixed_point_witness :
  agx_optimize_nir sample_passes 2 sample_vertex_shader
  = Some (sample_shader MESA_SHADER_VERTEX []
            [ {| impl := Some {| ssa_alloc := 8;
                                 body := map nir_cf_node_block sample_bodies |} |} ])
  /\ exists mid,
       agx_optimize_loop sample_passes 2
         (run_passes (early_passes sample_passes) sample_vertex_shader)
       = Some mid
       /\ Forall (fun pass => pass mid = (false, mid))
            (fixed_point_set sample_passes)
       /\ agx_optimize_loop sample_passes 1 mid = Some mid.
Proof.
  split; [reflexivity|].
  destruct (agx_optimize_nir_fixed_point sample_passes 2 sample_vertex_shader
              (sample_shader MESA_SHADER_VERTEX []
                 [ {| impl := Some {| ssa_alloc := 8;
                                      body := map nir_cf_node_block
                                                sample_bodies |} |} ])
              sample_passes_honest eq_refl)
    as (mid & Hloop & _ & Hall & Hagain).
  exists mid. split; [exact Hloop|]. split; [exact Hall|]. exact (Hagain 0%nat).
Defined.

(** The sample vertex shader has a body of two blocks, both accepted:
    the driver gets through it. *)
Lemma agx_compile_shader_nir_accepts_witness :
  is_ok (sample_compile_shader_nir sample_vertex_shader) = true
  /\ is_ok (sample_compile_shader_nir sample_fragment_shader) = false.
Proof.
  split.
  - refine (proj1 (agx_compile_shader_nir_accepts sample_size_for_bits
                     sample_intrinsic_infos sample_op_infos_other
                     sample_op_is_vec sample_get_io_offset_src
                     sample_FRAG_RESULT_COLOR sample_FRAG_RESULT_DATA0
                     sample_vertex_shader
                     {| ssa_alloc := 8;
                        body := map nir_cf_node_block sample_bodies |}
                     eq_refl _)).
    discriminate.
  - refine (proj1 (agx_compile_shader_nir_accepts sample_size_for_bits
                     sample_intrinsic_infos sample_op_infos_other
                     sample_op_is_vec sample_get_io_offset_src
                     sample_FRAG_RESULT_COLOR sample_FRAG_RESULT_DATA0
                     sample_fragment_shader
                     {| ssa_alloc := 8;
                        body := [nir_cf_node_block
                                   [nir_instr_type_load_const sample_load_const;
                                    nir_instr_type_intrinsic
                                      sample_store_color]] |}
                     eq_refl _)).
    discriminate.
Defined.

(** The same store on an empty block and on a block that already holds
    an instruction: the same store-varying is appended to both. *)
Lemma agx_emit_instr_local_witness :
  match sample_emit_instr (nir_instr_type_intrinsic (sample_store 1))
          (sample_builder MESA_SHADER_VERTEX []),
        sample_emit_instr (nir_instr_type_intrinsic (sample_store 1))
          (sample_after MESA_SHADER_VERTEX []
             [mk_instr AGX_OPCODE_STOP agx_null [] 0 0] 10) with
  | Ok (_, b1'), Ok (_, b2') =>
      exists code a',
        b1' = grow (sample_builder MESA_SHADER_VERTEX []) agx_create_block code a'
        /\ b2' = grow (sample_after MESA_SHADER_VERTEX []
                         [mk_instr AGX_OPCODE_STOP agx_null [] 0 0] 10)
                   {| instructions := [mk_instr AGX_OPCODE_STOP agx_null [] 0 0];
                      predecessors := []; name := 0 |}
                   code a'
  | Fatal e1 w1, Fatal e2 w2 => e1 = e2 /\ w1 = w2
  | _, _ => False
  end.
Proof.
  exact (agx_emit_instr_local sample_size_for_bits sample_intrinsic_infos
           sample_op_infos_other sample_op_is_vec sample_get_io_offset_src
           sample_FRAG_RESULT_COLOR sample_FRAG_RESULT_DATA0
           (nir_instr_type_intrinsic (sample_store 1))
           (sample_builder MESA_SHADER_VERTEX [])
           (sample_after MESA_SHADER_VERTEX []
              [mk_instr AGX_OPCODE_STOP agx_null [] 0 0] 10)
           agx_create_block
           {| instructions := [mk_instr AGX_OPCODE_STOP agx_null [] 0 0];
              predecessors := []; name := 0 |}
           eq_refl eq_refl eq_refl eq_refl eq_refl eq_refl).
Defined.
